(** * ppdhfl: weight trees, skeletons, the Dirichlet partitioner and DataIter

    A shallow embedding of [src/ablation/utils/weights.py],
    [src/ablation/utils/datasets.py] and, of [src/performance/main.py],
    the [lda] partitioner and the computation of the client indices,
    followed by the properties of these functions.

    Conventions of the embedding.
    - A numpy array is its shape together with its elements in row-major
      (C) order; [np.wf] is numpy's invariant that the number of elements
      is the product of the shape.
    - All tensors of a development share one element type [A] (a dtype);
      the element operations are the fields of [Dtype].  Nothing below
      depends on laws of these operations.
    - A Python exception is [None]; where a loop mutates an object before
      it raises, the mutated store is returned next to the error.
    - A Python [dict] is an association list in insertion order with
      pairwise distinct keys. *)

From Stdlib Require Import ZArith QArith Qround Lia Lqa.
From stdpp Require Import base strings gmap functions option sorting list.

Local Open Scope nat_scope.
Local Open Scope list_scope.

(** ** Element types *)

(** The element operations numpy applies pointwise: [+ - * /],
    [np.minimum], [np.maximum], the test [x != 0] and the constants
    0 and 1 of the dtype. *)
Class Dtype (A : Type) := {
  d_zero : A;
  d_one : A;
  d_add : A → A → A;
  d_sub : A → A → A;
  d_mul : A → A → A;
  d_div : A → A → A;
  d_min : A → A → A;
  d_max : A → A → A;
  d_nonzero : A → bool
}.

(** Exact integers, used for the worked examples. *)
#[export] Instance Z_dtype : Dtype Z := {|
  d_zero := 0%Z;
  d_one := 1%Z;
  d_add := Z.add;
  d_sub := Z.sub;
  d_mul := Z.mul;
  d_div := Z.div;
  d_min := Z.min;
  d_max := Z.max;
  d_nonzero := fun z => negb (Z.eqb z 0)
|}.

(** ** Random generators *)

(** The methods of a numpy [Generator] that the repository calls.  A
    generator is a mutable object; here every method takes the
    generator's state and returns the drawn value with the next state.
    - [rng_uniform g low high s] and [rng_normal g loc scale s]: the
      elements of [rng.uniform(low, high, size=s).astype(dtype)] and of
      [rng.normal(loc, scale, size=s).astype(dtype)];
    - [rng_dirichlet g alpha n]: [rng.dirichlet(alpha, size=n)], with
      rationals standing for the floating-point proportions;
    - [rng_shuffle g l]: the contents of [l] after [rng.shuffle(l)];
    - [rng_choice g a k]: [rng.choice(a, k, replace=False)], which raises
      when more than [len(a)] elements are requested. *)
Class Generator (G A : Type) := {
  rng_uniform : G → A → A → list nat → list A * G;
  rng_normal : G → A → A → list nat → list A * G;
  rng_dirichlet : G → list Q → nat → list (list Q) * G;
  rng_shuffle : G → list nat → list nat * G;
  rng_choice : G → list nat → nat → option (list nat * G)
}.

(** What numpy documents about these methods. *)
Class GeneratorLaws (G A : Type) `{!Generator G A} : Prop := {
  rng_uniform_length g lo hi s :
    length (rng_uniform g lo hi s).1 = foldr Nat.mul 1 s;
  rng_normal_length g lo hi s :
    length (rng_normal g lo hi s).1 = foldr Nat.mul 1 s;
  rng_dirichlet_rows g alpha n :
    alpha ≠ [] → Forall (λ a, 0 < a)%Q alpha →
    length (rng_dirichlet g alpha n).1 = n ∧
    Forall (λ row, length row = length alpha ∧ Forall (λ p, 0 <= p)%Q row)
           (rng_dirichlet g alpha n).1;
  rng_shuffle_perm g l : (rng_shuffle g l).1 ≡ₚ l;
  rng_choice_some g a k :
    k ≤ length a →
    ∃ ix g', rng_choice g a k = Some (ix, g') ∧ length ix = k ∧
             ∃ rest, ix ++ rest ≡ₚ a;
  rng_choice_none g a k : length a < k → rng_choice g a k = None
}.

(** A counter-driven generator for the worked examples: the [n]-th draw
    fills an array with [n], rotates a shuffled list by one, proposes
    equal proportions, and takes the leading [k] elements. *)
#[export] Instance counter_generator : Generator nat Z := {|
  rng_uniform g _ _ s := (replicate (foldr Nat.mul 1 s) (Z.of_nat g), S g);
  rng_normal g _ _ s := (replicate (foldr Nat.mul 1 s) (Z.of_nat g), S g);
  rng_dirichlet g alpha n :=
    (replicate n (replicate (length alpha) (1 # Pos.of_nat (length alpha))), S g);
  rng_shuffle g l := (drop 1 l ++ take 1 l, S g);
  rng_choice g a k :=
    if decide (k ≤ length a) then Some (take k a, S g) else None
|}.

(** ** numpy arrays *)

Module np.

Record ndarray (A : Type) := mk_ndarray { shape : list nat; data : list A }.
Arguments mk_ndarray {A} _ _.
Arguments shape {A} _.
Arguments data {A} _.

Section arrays.
Context {A : Type}.

(** Number of elements of an array of a given shape ([x.size]). *)
Definition prod (s : list nat) : nat := foldr Nat.mul 1 s.

Definition size (x : ndarray A) : nat := prod (shape x).

Definition ndim (x : ndarray A) : nat := length (shape x).

Definition wf (x : ndarray A) : Prop := length (data x) = size x.

(** [l[i:j]] for [0 <= i], [0 <= j]: clamped at the end of [l], empty when
    [j <= i]. *)
Definition py_slice {X : Type} (l : list X) (i j : nat) : list X :=
  take (j - i) (drop i l).

(** [np.ravel(x)] *)
Definition ravel (x : ndarray A) : list A := data x.

(** [np.concatenate(xs)] of one-dimensional arrays: raises on an empty
    sequence ("need at least one array to concatenate"). *)
Definition concatenate (xs : list (list A)) : option (list A) :=
  match xs with
  | [] => None
  | _ => Some (concat xs)
  end.

(** [np.reshape(v, s)] of a one-dimensional [v] to a shape of
    non-negative sizes: raises unless the sizes agree. *)
Definition reshape (v : list A) (s : list nat) : option (ndarray A) :=
  if decide (length v = prod s) then Some (mk_ndarray s v) else None.

(** The [d] consecutive blocks of [n] elements of [l]: the sub-arrays
    [x[0]], ..., [x[d-1]] of an array of shape [d :: ds], [n = prod ds]. *)
Fixpoint chunks (n d : nat) (l : list A) : list (list A) :=
  match d with
  | 0 => []
  | S d' => take n l :: chunks n d' (drop n l)
  end.

(** [x[i0, i1, ...]] for a full multi-index. *)
Fixpoint item (s idx : list nat) (l : list A) : option A :=
  match s, idx with
  | [], [] => l !! 0
  | d :: ds, i :: idx' => chunks (prod ds) d l !! i ≫= item ds idx'
  | _, _ => None
  end.

(** [x[idx]] for a full multi-index of in-range positions. *)
Definition getitem (x : ndarray A) (idx : list nat) : option A :=
  item (shape x) idx (data x).

(** [x[0:k0, 0:k1, ...]]: every slice clamps at the axis size, and axes
    beyond the given slices are taken whole. *)
Fixpoint leading_block (s ks : list nat) (l : list A) : list A :=
  match s, ks with
  | d :: ds, k :: ks' =>
      concat (leading_block ds ks' <$> take k (chunks (prod ds) d l))
  | _, _ => l
  end.

Fixpoint block_shape (s ks : list nat) : list nat :=
  match s, ks with
  | d :: ds, k :: ks' => Nat.min k d :: block_shape ds ks'
  | _, _ => s
  end.

(** [x[tuple(slice(k) for k in ks)]]: more slices than axes is an
    IndexError. *)
Definition slice_leading (x : ndarray A) (ks : list nat) : option (ndarray A) :=
  if decide (length ks ≤ ndim x)
  then Some (mk_ndarray (block_shape (shape x) ks)
                        (leading_block (shape x) ks (data x)))
  else None.

Context `{!Dtype A}.

(** [np.zeros(s)] *)
Definition zeros (s : list nat) : ndarray A :=
  mk_ndarray s (replicate (prod s) d_zero).

(** Constant zero padding of [aft] trailing entries along each axis. *)
Fixpoint pad_data (s aft : list nat) (l : list A) : list A :=
  match s, aft with
  | d :: ds, a :: aft' =>
      concat (pad_data ds aft' <$> chunks (prod ds) d l)
      ++ replicate (a * prod (zip_with Nat.add ds aft')) d_zero
  | _, _ => l
  end.

(** [np.pad(x, tuple((0, a) for a in aft))].  numpy converts the pad
    widths to an array first: an empty tuple becomes a float array and is
    rejected ("must be of integral type"); a negative width is rejected;
    a single pair is broadcast to every axis; otherwise there must be one
    pair per axis. *)
Definition pad (x : ndarray A) (aft : list Z) : option (ndarray A) :=
  match aft with
  | [] => None
  | _ =>
    if decide (Forall (λ a, 0 ≤ a)%Z aft) then
      let widths :=
        if decide (length aft = ndim x) then Some (Z.to_nat <$> aft)
        else match aft with
             | [a] => Some (replicate (ndim x) (Z.to_nat a))
             | _ => None
             end in
      w ← widths;
      Some (mk_ndarray (zip_with Nat.add (shape x) w)
                       (pad_data (shape x) w (data x)))
    else None
  end.


(** Broadcasting of two shapes, aligned at the trailing axis; the
    arguments are the reversed shapes.  Two sizes are compatible when they
    are equal or one of them is 1. *)
Fixpoint broadcast_rev (a b : list nat) : option (list nat) :=
  match a, b with
  | [], _ => Some b
  | _, [] => Some a
  | x :: a', y :: b' =>
      r ← broadcast_rev a' b';
      if decide (x = y) then Some (x :: r)
      else if decide (x = 1) then Some (y :: r)
      else if decide (y = 1) then Some (x :: r)
      else None
  end.

(** [np.broadcast_shapes(a, b)]; [None] is numpy's "operands could not be
    broadcast together". *)
Definition broadcast_shapes (a b : list nat) : option (list nat) :=
  reverse <$> broadcast_rev (reverse a) (reverse b).

(** The elements of [np.broadcast_to(x, o)] for [x] of shape [s]. *)
Fixpoint broadcast_data (s o : list nat) (l : list A) : list A :=
  match o with
  | [] => l
  | d :: o' =>
      if decide (length s ≤ length o')
      then concat (replicate d (broadcast_data s o' l))
      else match s with
           | [] => l
           | ds :: s' =>
               if decide (ds = d)
               then concat (broadcast_data s' o' <$> chunks (prod s') ds l)
               else concat (replicate d (broadcast_data s' o' l))
           end
  end.

(** [x op y] for two arrays. *)
Definition binop (f : A → A → A) (x y : ndarray A) : option (ndarray A) :=
  o ← broadcast_shapes (shape x) (shape y);
  Some (mk_ndarray o (zip_with f (broadcast_data (shape x) o (data x))
                                 (broadcast_data (shape y) o (data y)))).

(** A Python scalar as a zero-dimensional array. *)
Definition scalar (c : A) : ndarray A := mk_ndarray [] [c].

(** [f(x)] applied to every element, e.g. [x * c] for a scalar [c]. *)
Definition pointwise (f : A → A) (x : ndarray A) : ndarray A :=
  mk_ndarray (shape x) (f <$> data x).

(** [(x != 0).astype(x.dtype)] *)
Definition nonzero_indicator (x : ndarray A) : ndarray A :=
  pointwise (λ e, if d_nonzero e then d_one else d_zero) x.

End arrays.

Arguments prod : simpl never.
Arguments chunks : simpl nomatch.

End np.

(** ** weights.py *)

Module weights.
Import np.

Section trees.
Context {A : Type} `{!Dtype A}.

(** A weight tree is a Python list of arrays. *)
Local Abbreviation tree := (list (ndarray A)) (only parsing).

(** [ravel(weights)] *)
Definition ravel (weights : tree) : option (list A) :=
  np.concatenate (np.ravel <$> weights).

(** The loop of [unravel], started at offset [i]. *)
Fixpoint unravel_from (weights : list A) (i : nat)
    (skeleton : list (list nat * nat)) : option tree :=
  match skeleton with
  | [] => Some []
  | (shape, length) :: rest =>
      x ← np.reshape (py_slice weights i (i + length)) shape;
      xs ← unravel_from weights (i + length) rest;
      Some (x :: xs)
  end.

(** [unravel(weights, skeleton)] *)
Definition unravel (weights : list A) (skeleton : list (list nat * nat))
    : option tree :=
  unravel_from weights 0 skeleton.

(** [unraveller(weights)] *)
Definition unraveller (weights : tree) : list (list nat * nat) :=
  (λ x, (shape x, np.size x)) <$> weights.

(** [unravel(ravel(T), unraveller(T))] *)
Definition roundtrip (T : tree) : option tree :=
  v ← ravel T; unravel v (unraveller T).

(** *** Element-wise arithmetic *)

(** [[a op b for a, b in zip(weights_a, weights_b)]]: [zip] stops at the
    shorter tree. *)
Definition zip_op (f : A → A → A) (weights_a weights_b : tree) : option tree :=
  mapM (λ ab, np.binop f ab.1 ab.2) (zip weights_a weights_b).

Definition mul : tree → tree → option tree := zip_op d_mul.
Definition div : tree → tree → option tree := zip_op d_div.
Definition sub : tree → tree → option tree := zip_op d_sub.

(** [scale(weights, scale)] for a scalar [scale] *)
Definition scale (weights : tree) (scale : A) : tree :=
  np.pointwise (λ e, d_mul e scale) <$> weights.

(** [zip] applied to the trees: the tuples of same-position arrays, as many as the
    shortest tree has; no tuple at all for no tree. *)
Fixpoint py_zip (weights : list tree) : list (list (ndarray A)) :=
  match weights with
  | [] => []
  | [w] => (λ x, [x]) <$> w
  | w :: rest => zip_with cons w (py_zip rest)
  end.

(** [sum(xs)]: starts from the integer 0 and adds from the left. *)
Definition py_sum (xs : list (ndarray A)) : option (ndarray A) :=
  foldl (λ acc x, a ← acc; np.binop d_add a x) (Some (np.scalar d_zero)) xs.

(** [add], applied to any number of trees *)
Definition add (weights : list tree) : option tree :=
  mapM py_sum (py_zip weights).

(** [minimum(weights, val)] and [maximum(weights, val)] for a scalar *)
Definition minimum (weights : tree) (val : A) : tree :=
  np.pointwise (λ e, d_min e val) <$> weights.

Definition maximum (weights : tree) (val : A) : tree :=
  np.pointwise (λ e, d_max e val) <$> weights.

(** [counter(weights)] *)
Definition counter (weights : tree) : tree :=
  np.nonzero_indicator <$> weights.

(** *** Random trees *)

Context {G : Type} `{!Generator G A}.

(** The comprehension of [uniform], drawing from generator state [g]. *)
Fixpoint uniform_from (g : G) (weights : tree) (low high : A) : tree * G :=
  match weights with
  | [] => ([], g)
  | x :: rest =>
      let '(d, g1) := rng_uniform g low high (shape x) in
      let '(ys, g2) := uniform_from g1 rest low high in
      (mk_ndarray (shape x) d :: ys, g2)
  end.

(** The comprehension of [add_normal], drawing from generator state [g].
    The generator is advanced for the arrays before the one whose sum
    raises. *)
Fixpoint add_normal_from (g : G) (weights : tree) (loc scale : A)
    : option tree * G :=
  match weights with
  | [] => (Some [], g)
  | x :: rest =>
      let '(d, g1) := rng_normal g loc scale (shape x) in
      match np.binop d_add x (mk_ndarray (shape x) d) with
      | None => (None, g1)
      | Some y =>
          let '(ys, g2) := add_normal_from g1 rest loc scale in
          (cons y <$> ys, g2)
      end
  end.

(** Generator objects.  Each function with a parameter
    [rng=np.random.default_rng()] owns one generator, created when the
    function is defined and used by every call that leaves [rng] out; the
    others are the generators the callers create. *)
Inductive default_site : Set :=
  | site_uniform | site_add_normal | site_get_iter | site_fed_split.

Inductive rng_ref : Set :=
  | default_rng (f : default_site)
  | caller_rng (n : nat).

#[export] Instance default_site_eq_dec : EqDecision default_site.
Proof. solve_decision. Defined.

#[export] Instance rng_ref_eq_dec : EqDecision rng_ref.
Proof. solve_decision. Defined.

(** The state of every generator object is a function [rng_ref → G]. *)

(** The generator a call uses. *)
Definition resolve (f : default_site) (rng : option rng_ref) : rng_ref :=
  default (default_rng f) rng.

(** [uniform(weights, low, high, rng)] *)
Definition uniform (weights : tree) (low high : A) (rng : option rng_ref)
    (σ : rng_ref → G) : tree * (rng_ref → G) :=
  let r := resolve site_uniform rng in
  let '(t, g) := uniform_from (σ r) weights low high in
  (t, <[r := g]> σ).

(** [add_normal(weights, loc, scale, rng)] *)
Definition add_normal (weights : tree) (loc scale : A) (rng : option rng_ref)
    (σ : rng_ref → G) : option tree * (rng_ref → G) :=
  let r := resolve site_add_normal rng in
  let '(t, g) := add_normal_from (σ r) weights loc scale in
  (t, <[r := g]> σ).

(** *** Named skeletons *)

(** [{'index': i, 'shape': s}] *)
Record entry : Set := mk_entry { index : nat; eshape : list nat }.

Local Abbreviation skel := (list (string * entry)) (only parsing).

(** [d[k]], and [k in d] as [is_Some]. *)
Fixpoint dict_get {V : Type} (k : string) (d : list (string * V)) : option V :=
  match d with
  | [] => None
  | (k', v) :: rest => if decide (k' = k) then Some v else dict_get k rest
  end.

(** [d[k] = v]: a key already present keeps its position. *)
Fixpoint dict_set {V : Type} (k : string) (v : V) (d : list (string * V))
    : list (string * V) :=
  match d with
  | [] => [(k, v)]
  | (k', v') :: rest =>
      if decide (k' = k) then (k, v) :: rest else (k', v') :: dict_set k v rest
  end.

(** [enumerate(l, i)] *)
Fixpoint py_enumerate {X : Type} (i : nat) (l : list X) : list (nat * X) :=
  match l with
  | [] => []
  | x :: rest => (i, x) :: py_enumerate (S i) rest
  end.

(** [skeleton(model)], for [model.weights] given as (name, array) pairs. *)
Definition skeleton (model_weights : list (string * ndarray A)) : skel :=
  foldl (λ d iw, dict_set iw.2.1 (mk_entry iw.1 (shape iw.2.2)) d) []
        (py_enumerate 0 model_weights).

(** [partition(weights, skel_from, skel_to)] *)
Definition partition (weights : tree) (skel_from skel_to : skel) : option tree :=
  mapM (λ kv : string * entry,
          e ← dict_get kv.1 skel_from;
          x ← weights !! index e;
          np.slice_leading x (eshape kv.2))
       (filter (λ kv, is_Some (dict_get kv.1 skel_from)) skel_to).

(** [weights.insert(i, x)]: past the end it appends. *)
Definition py_insert {X : Type} (i : nat) (x : X) (l : list X) : list X :=
  take i l ++ x :: drop i l.

(** One iteration of the loop of [expand]. *)
Definition expand_step (skel_from : skel) (weights : tree)
    (kv : string * entry) : option tree :=
  if decide (is_Some (dict_get kv.1 skel_from)) then
    x ← weights !! index kv.2;
    y ← np.pad x (zip_with (λ b ws, Z.of_nat b - Z.of_nat ws)%Z
                           (eshape kv.2) (shape x));
    Some (<[index kv.2 := y]> weights)
  else Some (py_insert (index kv.2) (np.zeros (eshape kv.2)) weights).

(** The loop of [expand] over the remaining items of [skel_to], with the
    list as it stands when the loop ends or raises. *)
Fixpoint expand_loop (skel_from : skel) (weights : tree)
    (items : list (string * entry)) : bool * tree :=
  match items with
  | [] => (true, weights)
  | kv :: rest =>
      match expand_step skel_from weights kv with
      | None => (false, weights)
      | Some weights' => expand_loop skel_from weights' rest
      end
  end.

(** [expand(weights, skel_from, skel_to)], as a function of the contents
    of the list: the list it returns, or [None] when it raises. *)
Definition expand (weights : tree) (skel_from skel_to : skel) : option tree :=
  let '(ok, weights') := expand_loop skel_from weights skel_to in
  if ok then Some weights' else None.

End trees.

(** A weight tree is a Python list of arrays. *)
Abbreviation tree A := (list (ndarray A)) (only parsing).

(** A named skeleton is a Python dict from names to entries. *)
Abbreviation skel := (list (string * entry)) (only parsing).

End weights.

(** ** datasets.py *)

Module datasets.
Import weights.

Section datasets.
Context {Row : Type} {G A : Type} `{!Generator G A}.

(** [a[ix]] for an integer index array: raises on an index out of range. *)
Definition take_rows {T : Type} (a : list T) (ix : list nat) : option (list T) :=
  mapM (λ i, a !! i) ix.

(** [a[mask]] for a boolean mask: raises unless the mask has one entry per
    row. *)
Definition mask_rows {T : Type} (a : list T) (mask : list bool) : option (list T) :=
  if decide (length mask = length a)
  then Some (fst <$> filter (λ rm : T * bool, rm.2 = true) (zip a mask))
  else None.

(** The fields of a [DataIter].  The labels are class numbers, the
    generator is a reference to a generator object, and [batch_size] is a
    number: the constructor never stores [None]. *)
Record DataIter := mk_DataIter {
  X : list Row;
  y : list nat;
  batch_size : nat;
  idx : list nat;
  classes : nat;
  rng : rng_ref
}.

(** [y.shape[0] if batch_size is None else min(batch_size, y.shape[0])] *)
Definition clamp (batch_size : option nat) (n : nat) : nat :=
  match batch_size with
  | None => n
  | Some b => Nat.min b n
  end.

(** [DataIter.__init__(X, y, batch_size, classes, rng)] *)
Definition DataIter_init (X : list Row) (y : list nat) (batch_size : option nat)
    (classes : nat) (rng : rng_ref) : DataIter :=
  mk_DataIter X y (clamp batch_size (length y)) (seq 0 (length y)) classes rng.

(** [DataIter.__next__]: the batch, and the generator objects after the
    draw. *)
Definition DataIter_next (it : DataIter) (σ : rng_ref → G)
    : option ((list Row * list nat) * (rng_ref → G)) :=
  '(ix, g) ← rng_choice (σ (rng it)) (idx it) (batch_size it);
  bX ← take_rows (X it) ix;
  by_ ← take_rows (y it) ix;
  Some ((bX, by_), <[rng it := g]> σ).

(** [n] successive calls of [__next__]. *)
Fixpoint DataIter_next_n (n : nat) (it : DataIter) (σ : rng_ref → G)
    : option (list (list Row * list nat) * (rng_ref → G)) :=
  match n with
  | 0 => Some ([], σ)
  | S n' =>
      '(b, σ1) ← DataIter_next it σ;
      '(bs, σ2) ← DataIter_next_n n' it σ1;
      Some (b :: bs, σ2)
  end.

(** [DataIter.map(f)]; the stored [batch_size] is a number, so the
    re-clamping takes the [min] branch. *)
Definition DataIter_map (it : DataIter)
    (f : list Row → list nat → list Row * list nat) : DataIter :=
  let '(X', y') := f (X it) (y it) in
  mk_DataIter X' y' (clamp (Some (batch_size it)) (length y'))
              (seq 0 (length y')) (classes it) (rng it).

(** [DataIter.filter(f)] for [f] returning a boolean mask over the
    labels. *)
Definition DataIter_filter (it : DataIter) (f : list nat → list bool)
    : option DataIter :=
  let mask := f (y it) in
  X' ← mask_rows (X it) mask;
  y' ← mask_rows (y it) mask;
  Some (mk_DataIter X' y' (clamp (Some (batch_size it)) (length y'))
                    (seq 0 (length y')) (classes it) (rng it)).

(** A [map] or [filter] call. *)
Inductive transform : Type :=
  | Map (f : list Row → list nat → list Row * list nat)
  | Filter (f : list nat → list bool).

Definition apply_transform (it : DataIter) (t : transform) : option DataIter :=
  match t with
  | Map f => Some (DataIter_map it f)
  | Filter f => DataIter_filter it f
  end.

(** A sequence of chained [map] and [filter] calls. *)
Fixpoint apply_transforms (it : DataIter) (ts : list transform) : option DataIter :=
  match ts with
  | [] => Some it
  | t :: rest => it' ← apply_transform it t; apply_transforms it' rest
  end.

(** The fields of a [Dataset] that its methods read ([input_shape] is
    stored and never read). *)
Record Dataset := mk_Dataset {
  ds_X : list Row;
  ds_y : list nat;
  train_idx : list bool;
  ds_classes : nat
}.

(** [Dataset.__init__(X, y, train)]; [classes] counts the distinct
    labels. *)
Definition Dataset_init (X : list Row) (y : list nat) (train : list bool) : Dataset :=
  mk_Dataset X y train (length (remove_dups y)).

(** [Dataset.train()] and [Dataset.test()] *)
Definition train (ds : Dataset) : option (list Row * list nat) :=
  X' ← mask_rows (ds_X ds) (train_idx ds);
  y' ← mask_rows (ds_y ds) (train_idx ds);
  Some (X', y').

Definition test (ds : Dataset) : option (list Row * list nat) :=
  X' ← mask_rows (ds_X ds) (negb <$> train_idx ds);
  y' ← mask_rows (ds_y ds) (negb <$> train_idx ds);
  Some (X', y').

(** [Dataset.get_iter(split, batch_size, idx, filter, map, rng)] *)
Definition get_iter (ds : Dataset) (split : string) (batch_size : option nat)
    (idx : option (list nat)) (filter : option (list nat → list bool))
    (map : option (list Row → list nat → list Row * list nat))
    (rng : option rng_ref) : option DataIter :=
  '(X0, y0) ← (if decide (split = "train"%string) then train ds else test ds);
  '(X1, y1) ← match idx with
              | Some ix => X' ← take_rows X0 ix; y' ← take_rows y0 ix; Some (X', y')
              | None => Some (X0, y0)
              end;
  '(X2, y2) ← match filter with
              | Some f => X' ← mask_rows X1 (f y1); y' ← mask_rows y1 (f y1);
                          Some (X', y')
              | None => Some (X1, y1)
              end;
  let '(X3, y3) := match map with
                   | Some f => f X2 y2
                   | None => (X2, y2)
                   end in
  Some (DataIter_init X3 y3 batch_size (ds_classes ds)
                      (resolve site_get_iter rng)).

(** [Dataset.fed_split(batch_sizes, mapping, rng)].  The [mapping]
    receives the generator and may draw from it. *)
Definition fed_split (ds : Dataset) (batch_sizes : list (option nat))
    (mapping : option (list Row → list nat → nat → nat → G →
                       option (list (list nat)) * G))
    (rng : option rng_ref) (σ : rng_ref → G)
    : option (list DataIter) * (rng_ref → G) :=
  let r := resolve site_fed_split rng in
  match mapping with
  | Some m =>
      match train ds with
      | None => (None, σ)
      | Some (X0, y0) =>
          let '(distribution, g) :=
            m X0 y0 (length batch_sizes) (ds_classes ds) (σ r) in
          (d ← distribution;
           mapM (λ bd : option nat * list nat,
                   get_iter ds "train" bd.1 (Some bd.2) None None (Some r))
                (zip batch_sizes d),
           <[r := g]> σ)
      end
  | None =>
      (mapM (λ b, get_iter ds "train" b None None None (Some r)) batch_sizes, σ)
  end.

End datasets.
End datasets.

(** ** main.py: the Dirichlet partitioner and the client indices *)

Module main.
Import weights.

Section lda.
Context {G A : Type} `{!Generator G A}.

(** [np.where(Y == c)[0]] *)
Definition where_eq (Y : list nat) (c : nat) : list nat :=
  filter (λ i, Y !! i = Some c) (seq 0 (length Y)).

(** [np.cumsum] *)
Fixpoint cumsum_from (acc : Q) (l : list Q) : list Q :=
  match l with
  | [] => []
  | p :: rest => (acc + p)%Q :: cumsum_from (acc + p)%Q rest
  end.

Definition cumsum (l : list Q) : list Q := cumsum_from 0%Q l.

(** [np.round(q).astype(int)]: to the nearest integer, halves to the even
    neighbour. *)
Definition round_half_even (q : Q) : Z :=
  let f := Qfloor q in
  match (q - inject_Z f ?= 1 # 2)%Q with
  | Lt => f
  | Gt => (f + 1)%Z
  | Eq => if Z.even f then f else (f + 1)%Z
  end.

(** [a[:-1]] *)
Definition drop_last {T : Type} (a : list T) : list T :=
  take (length a - 1) a.

(** A slice bound as Python reads it: a negative bound counts from the
    end, and every bound is clamped into [0, len]. *)
Definition slice_bound (n : nat) (b : Z) : nat :=
  if decide (b < 0)%Z then Z.to_nat (Z.of_nat n + b)
  else Nat.min (Z.to_nat b) n.

(** [a[st:en]] *)
Definition py_slice_Z {T : Type} (a : list T) (st en : Z) : list T :=
  np.py_slice a (slice_bound (length a) st) (slice_bound (length a) en).

(** [np.split(ary, indices)] for a list of split points: the pieces
    between consecutive points of [[0] + indices + [len(ary)]]. *)
Definition np_split {T : Type} (ary : list T) (indices : list Z) : list (list T) :=
  let div_points := 0%Z :: indices ++ [Z.of_nat (length ary)] in
  zip_with (py_slice_Z ary) div_points (tail div_points).

(** The split points of class [c]:
    [np.round(np.cumsum(p) * n).astype(int)[:-1]]. *)
Definition split_points (p : list Q) (n : nat) : list Z :=
  drop_last ((λ q, round_half_even (q * inject_Z (Z.of_nat n))%Q) <$> cumsum p).

(** [[distribution[i] + d.tolist() for i, d in enumerate(dists_c)]] *)
Definition extend (distribution dists_c : list (list nat))
    : option (list (list nat)) :=
  mapM (λ id : nat * list nat, (λ l, l ++ id.2) <$> distribution !! id.1)
       (py_enumerate 0 dists_c).

(** One iteration of the loop over the classes. *)
Definition lda_class (Y : list nat) (proportions : list (list Q))
    (acc : option (list (list nat)) * G) (c : nat)
    : option (list (list nat)) * G :=
  match acc with
  | (None, g) => (None, g)
  | (Some distribution, g) =>
      let '(idx_c, g') := rng_shuffle g (where_eq Y c) in
      match proportions !! c with
      | None => (None, g')
      | Some p =>
          (extend distribution (np_split idx_c (split_points p (length idx_c))),
           g')
      end
  end.

(** [lda(Y, nclients, nclasses, rng, alpha)] *)
Definition lda (Y : list nat) (nclients nclasses : nat) (rng : G) (alpha : Q)
    : option (list (list nat)) * G :=
  let '(proportions, g) :=
    rng_dirichlet rng (replicate nclients alpha) nclasses in
  foldl (lda_class Y proportions) (Some (replicate nclients []), g)
        (seq 0 nclasses).

End lda.

(** *** Client indices from client ids *)

Section clients.
Context {G A : Type} `{!Generator G A}.

(** [np.unique(ids)]: the distinct values in ascending order. *)
Definition np_unique (ids : list nat) : list nat :=
  merge_sort (≤) (remove_dups ids).

(** [client_ids_to_idx(ids)]: for every distinct id, in ascending order,
    the positions [idx[ids == cid]] that hold it. *)
Definition client_ids_to_idx (ids : list nat) : option (list (list nat)) :=
  let idx := seq 0 (length ids) in
  mapM (λ cid, datasets.mask_rows idx ((λ i, bool_decide (i = cid)) <$> ids))
       (np_unique ids).

(** [np.cumsum] of section sizes. *)
Fixpoint cumsum_sizes (acc : nat) (sizes : list nat) : list nat :=
  match sizes with
  | [] => []
  | n :: rest => (acc + n) :: cumsum_sizes (acc + n) rest
  end.

(** [np.array_split(ary, Nsections)] for a number of sections: raises
    unless the number is positive; the first [len(ary) % Nsections]
    sections hold one element more than the others. *)
Definition array_split {T : Type} (ary : list T) (Nsections : Z)
    : option (list (list T)) :=
  if decide (Nsections ≤ 0)%Z then None
  else
    let n := Z.to_nat Nsections in
    let Neach_section := length ary / n in
    let extras := length ary mod n in
    let section_sizes :=
      0 :: replicate extras (Neach_section + 1)
        ++ replicate (n - extras) Neach_section in
    let div_points := cumsum_sizes 0 section_sizes in
    Some ((λ i, np.py_slice ary (nth i div_points 0) (nth (S i) div_points 0))
          <$> seq 0 n).

(** One iteration of the re-splitting loop of the script:
    [new_client_idx.extend(np.array_split(rng.permutation(cidx), nsplits))].
    [rng.permutation] of an array shuffles a copy of it, so it draws what
    [rng.shuffle] draws. *)
Definition new_client_idx_step (nsplits : Z)
    (acc : option (list (list nat)) * G) (cidx : list nat)
    : option (list (list nat)) * G :=
  match acc with
  | (None, g) => (None, g)
  | (Some new_client_idx, g) =>
      let '(p, g') := rng_shuffle g cidx in
      (parts ← array_split p nsplits; Some (new_client_idx ++ parts), g')
  end.

(** [client_idx] as the script computes it for the data sets that come
    with client ids, for [args.clients = clients]: the groups of
    [client_ids_to_idx], each re-split into [clients // len(client_idx)]
    parts when there are fewer groups than clients.  The division raises
    when there is no group at all. *)
Definition client_idx (client_ids : list nat) (clients : Z) (rng : G)
    : option (list (list nat)) * G :=
  match client_ids_to_idx client_ids with
  | None => (None, rng)
  | Some client_idx =>
      if decide (Z.of_nat (length client_idx) < clients)%Z then
        if decide (length client_idx = 0) then (None, rng)
        else
          let nsplits := (clients / Z.of_nat (length client_idx))%Z in
          foldl (new_client_idx_step nsplits) (Some [], rng) client_idx
      else (Some client_idx, rng)
  end.

End clients.
End main.

(** ** Trees and arrays as objects *)

(** The functions of weights.py once more, now on references, as the
    interpreter runs them.  The heap holds buffers (the memory of
    arrays), array objects and list objects.  An array object names the
    buffer it reads, its shape, and for each of its elements, in
    row-major order, the position of that element in the buffer: an
    array that owns its buffer reads the positions 0, 1, ...; a view
    reads positions of the buffer of the array it was cut from.  A tree
    is a reference to a list object holding references to array
    objects.  No function of weights.py writes into a buffer; [expand]
    assigns to items of a list object and inserts into it. *)
Declare Scope heap_scope.

Module objects.
Import np weights.

Section heap.
Context {A : Type} `{!Dtype A} {G : Type} `{!Generator G A}.

Record array_obj : Set := mk_array_obj {
  base : positive;
  oshape : list nat;
  offsets : list nat
}.

Record heap := mk_heap {
  buffers : gmap positive (list A);
  arrays : gmap positive array_obj;
  lists : gmap positive (list positive)
}.

(** A computation on the heap: its result, or [None] when it raises,
    and the heap as it leaves it (an exception undoes nothing). *)
Definition M (R : Type) : Type := heap → option R * heap.

Definition ret {R} (r : R) : M R := λ h, (Some r, h).

Definition bind {R S} (m : M R) (k : R → M S) : M S :=
  λ h, match m h with
       | (Some r, h') => k r h'
       | (None, h') => (None, h')
       end.

(** The result of a computation that touches no object; it raises on
    [None]. *)
Definition lift {R} (o : option R) : M R := λ h, (o, h).

Notation "x ← m ; k" := (bind m (λ x, k))
  (at level 20, m at level 100, k at level 200, only parsing) : heap_scope.
Local Open Scope heap_scope.

(** *** Reading *)

(** The array that an array object stands for. *)
Definition read_obj (h : heap) (o : array_obj) : option (ndarray A) :=
  (buf ← buffers h !! base o;
   d ← mapM (λ i, buf !! i) (offsets o);
   Some (mk_ndarray (oshape o) d))%stdpp.

Definition read_array (h : heap) (a : positive) : option (ndarray A) :=
  (o ← arrays h !! a; read_obj h o)%stdpp.

(** The tree that a list reference stands for. *)
Definition read_tree (h : heap) (l : positive) : option (list (ndarray A)) :=
  (ls ← lists h !! l; mapM (read_array h) ls)%stdpp.

Definition get_list (l : positive) : M (list positive) := λ h, (lists h !! l, h).

Definition get_obj (a : positive) : M array_obj := λ h, (arrays h !! a, h).

Definition get_array (a : positive) : M (ndarray A) := λ h, (read_array h a, h).

Definition get_tree (l : positive) : M (list (ndarray A)) :=
  λ h, (read_tree h l, h).

(** *** Allocating *)

(** A new array in a buffer of its own. *)
Definition new_array (x : ndarray A) : M positive :=
  λ h, let b := fresh (dom (buffers h)) in
       let a := fresh (dom (arrays h)) in
       (Some a,
        mk_heap (<[b := data x]> (buffers h))
                (<[a := mk_array_obj b (shape x) (seq 0 (length (data x)))]>
                   (arrays h))
                (lists h)).

(** A new array object on the buffer of [o]: a view. *)
Definition new_view (o : array_obj) (s offs : list nat) : M positive :=
  λ h, let a := fresh (dom (arrays h)) in
       (Some a,
        mk_heap (buffers h) (<[a := mk_array_obj (base o) s offs]> (arrays h))
                (lists h)).

(** A new list object. *)
Definition new_list (ls : list positive) : M positive :=
  λ h, let l := fresh (dom (lists h)) in
       (Some l, mk_heap (buffers h) (arrays h) (<[l := ls]> (lists h))).

(** *** Assigning *)

(** [l[i] = a]: an IndexError past the end. *)
Definition list_setitem (l : positive) (i : nat) (a : positive) : M unit :=
  λ h, match lists h !! l with
       | Some ls =>
           if decide (i < length ls)
           then (Some (), mk_heap (buffers h) (arrays h)
                                  (<[l := <[i := a]> ls]> (lists h)))
           else (None, h)
       | None => (None, h)
       end.

(** [l.insert(i, a)] *)
Definition list_insert (l : positive) (i : nat) (a : positive) : M unit :=
  λ h, match lists h !! l with
       | Some ls =>
           (Some (), mk_heap (buffers h) (arrays h)
                             (<[l := py_insert i a ls]> (lists h)))
       | None => (None, h)
       end.

(** *** Loops *)

(** [[f(x) for x in l]] *)
Fixpoint for_each {X R} (f : X → M R) (l : list X) : M (list R) :=
  match l with
  | [] => ret []
  | x :: rest => r ← f x; rs ← for_each f rest; ret (r :: rs)
  end.

(** A loop that appends one result per item and carries a value from one
    iteration to the next. *)
Fixpoint for_each_from {S X R} (f : S → X → M (R * S)) (s : S) (l : list X)
    : M (list R) :=
  match l with
  | [] => ret []
  | x :: rest => rs ← f s x; rest' ← for_each_from f rs.2 rest; ret (rs.1 :: rest')
  end.

(** [for x in l: f(x)] *)
Fixpoint for_ {X} (f : X → M unit) (l : list X) : M unit :=
  match l with
  | [] => ret ()
  | x :: rest => _ ← f x; for_ f rest
  end.

(** *** The functions of weights.py *)

(** [[a op b for a, b in zip(weights_a, weights_b)]]: every [a op b] is
    a new array. *)
Definition zip_op (f : A → A → A) (weights_a weights_b : positive) : M positive :=
  wa ← get_list weights_a;
  wb ← get_list weights_b;
  rs ← for_each (λ ab : positive * positive,
                   x ← get_array ab.1;
                   y ← get_array ab.2;
                   z ← lift (np.binop f x y);
                   new_array z)
                (zip wa wb);
  new_list rs.

Definition mul : positive → positive → M positive := zip_op d_mul.
Definition div : positive → positive → M positive := zip_op d_div.
Definition sub : positive → positive → M positive := zip_op d_sub.

(** [[f(x) for x in weights]] for an [f] that returns a new array. *)
Definition pointwise_op (f : ndarray A → ndarray A) (weights : positive)
    : M positive :=
  w ← get_list weights;
  rs ← for_each (λ a, x ← get_array a; new_array (f x)) w;
  new_list rs.

Definition scale (weights : positive) (scale : A) : M positive :=
  pointwise_op (np.pointwise (λ e, d_mul e scale)) weights.

Definition minimum (weights : positive) (val : A) : M positive :=
  pointwise_op (np.pointwise (λ e, d_min e val)) weights.

Definition maximum (weights : positive) (val : A) : M positive :=
  pointwise_op (np.pointwise (λ e, d_max e val)) weights.

Definition counter (weights : positive) : M positive :=
  pointwise_op np.nonzero_indicator weights.

(** [add]: [zip] walks the lists, [sum] reads the arrays of one position
    and its result is a new array (the intermediate sums are dropped). *)
Definition add (weights : list positive) : M positive :=
  ts ← for_each get_tree weights;
  rs ← for_each (λ xs, z ← lift (py_sum xs); new_array z) (py_zip ts);
  new_list rs.

(** [uniform] and [add_normal], drawing from generator state [g]: what
    the generator returns is a new array, and so is the sum with it. *)
Definition uniform (weights : positive) (low high : A) (g : G) : M positive :=
  w ← get_list weights;
  rs ← for_each_from
          (λ g a,
             x ← get_array a;
             r ← new_array (mk_ndarray (shape x) (rng_uniform g low high (shape x)).1);
             ret (r, (rng_uniform g low high (shape x)).2))
          g w;
  new_list rs.

Definition add_normal (weights : positive) (loc scale : A) (g : G) : M positive :=
  w ← get_list weights;
  rs ← for_each_from
          (λ g a,
             x ← get_array a;
             z ← lift (np.binop d_add x
                         (mk_ndarray (shape x) (rng_normal g loc scale (shape x)).1));
             r ← new_array z;
             ret (r, (rng_normal g loc scale (shape x)).2))
          g w;
  new_list rs.

(** [ravel]: [np.concatenate] returns one new array, the flat vector. *)
Definition ravel (weights : positive) : M positive :=
  w ← get_list weights;
  xs ← for_each get_array w;
  v ← lift (np.concatenate (np.ravel <$> xs));
  new_array (mk_ndarray [length v] v).

(** [unravel] of a one-dimensional array object: [weights[i:i + length]]
    is a view, and [np.reshape] of it is a view again, on the buffer of
    [weights]. *)
Definition unravel (weights : positive) (skeleton : list (list nat * nat))
    : M positive :=
  o ← get_obj weights;
  rs ← for_each_from
          (λ i (sl : list nat * nat),
             let offs := py_slice (offsets o) i (i + sl.2) in
             if decide (length offs = np.prod sl.1)
             then r ← new_view o sl.1 offs; ret (r, i + sl.2)
             else lift None)
          0 skeleton;
  new_list rs.

(** [x[tuple(slice(k) for k in ks)]] on an array object: more slices
    than axes is an IndexError; of an array without axes, [x[()]] is a
    scalar, which holds a copy of the value; of any other array the
    result is a view on the buffer of [x]. *)
Definition slice_view (a : positive) (ks : list nat) : M positive :=
  o ← get_obj a;
  if decide (length ks ≤ length (oshape o)) then
    match oshape o with
    | [] => x ← get_array a; new_array x
    | _ => new_view o (np.block_shape (oshape o) ks)
                    (np.leading_block (oshape o) ks (offsets o))
    end
  else lift None.

(** [partition] *)
Definition partition (weights : positive) (skel_from skel_to : skel)
    : M positive :=
  w ← get_list weights;
  rs ← for_each (λ kv : string * entry,
                   e ← lift (dict_get kv.1 skel_from);
                   a ← lift (w !! index e);
                   slice_view a (eshape kv.2))
                (filter (λ kv, is_Some (dict_get kv.1 skel_from)) skel_to);
  new_list rs.

(** One iteration of the loop of [expand]: [np.pad] and [np.zeros]
    return new arrays; the assignment and the insertion change the list
    object [weights]. *)
Definition expand_step (weights : positive) (skel_from : skel)
    (kv : string * entry) : M unit :=
  if decide (is_Some (dict_get kv.1 skel_from)) then
    w ← get_list weights;
    a ← lift (w !! index kv.2);
    x ← get_array a;
    y ← lift (np.pad x (zip_with (λ b ws, Z.of_nat b - Z.of_nat ws)%Z
                                 (eshape kv.2) (shape x)));
    a' ← new_array y;
    list_setitem weights (index kv.2) a'
  else
    a' ← new_array (np.zeros (eshape kv.2));
    list_insert weights (index kv.2) a'.

(** [expand]: it returns the reference it was given. *)
Definition expand (weights : positive) (skel_from skel_to : skel) : M positive :=
  _ ← for_ (expand_step weights skel_from) skel_to;
  ret weights.

(** A tree stored as new objects, for the worked examples. *)
Definition store_tree (t : list (ndarray A)) : M positive :=
  rs ← for_each new_array t;
  new_list rs.

End heap.

Arguments heap : clear implicits.
Arguments M : clear implicits.

End objects.

(** ** Vocabulary of the properties *)

Import np.

(** The unravel skeletons that [unraveller] produces record, for each
    array, the number of elements its shape holds. *)
Definition consistent (s : list (list nat * nat)) : Prop :=
  Forall (λ p, p.2 = np.prod p.1) s.

(** [sum(length for _, length in s)] *)
Definition total_length (s : list (list nat * nat)) : nat :=
  sum_list (snd <$> s).

(** A tree with a matrix, a scalar, an empty matrix and a vector. *)
Definition example_tree : weights.tree Z :=
  [mk_ndarray [2; 2] [1; 2; 3; 4]%Z; mk_ndarray [] [5%Z]; mk_ndarray [0; 3] [];
   mk_ndarray [3] [6; 7; 8]%Z].

(** [r] is the leading sub-block [x[0:k0, 0:k1, ...]] of [x]: its shape
    is that of [x] cut down to [ks] (clamped at the sizes of [x]), and
    every position of [r] holds the element of [x] at the same position. *)
Definition leading_block_of {A} (r x : ndarray A) (ks : list nat) : Prop :=
  shape r = np.block_shape (shape x) ks ∧
  ∀ idx, Forall2 lt idx (shape r) →
         is_Some (np.getitem r idx) ∧ np.getitem r idx = np.getitem x idx.

(** The items of [skel_to] whose name is a key of [skel_from], in the
    order of [skel_to]. *)
Definition shared (skel_from skel_to : weights.skel) : weights.skel :=
  filter (λ kv, is_Some (weights.dict_get kv.1 skel_from)) skel_to.

(** Every shared name has a global index inside the tree, and the local
    shape has no more axes than the array at that index. *)
Definition sliceable {A} (G : weights.tree A)
    (skel_from skel_to : weights.skel) : Prop :=
  Forall (λ kv, ∃ e x, weights.dict_get kv.1 skel_from = Some e ∧
                       G !! weights.index e = Some x ∧
                       length (weights.eshape kv.2) ≤ np.ndim x)
         (shared skel_from skel_to).

(** [r] has the shape of [x], agrees with [x] on the leading block of
    shape [ks] and is zero everywhere else. *)
Definition zero_padded_block_of {A} `{!Dtype A} (r x : ndarray A)
    (ks : list nat) : Prop :=
  shape r = shape x ∧
  ∀ idx, Forall2 lt idx (shape x) →
         np.getitem r idx =
         if decide (Forall2 lt idx ks) then np.getitem x idx else Some d_zero.

(** [r] is the zero array of the shape of [x]. *)
Definition zeros_like {A} `{!Dtype A} (r x : ndarray A) : Prop :=
  shape r = shape x ∧
  ∀ idx, Forall2 lt idx (shape x) → np.getitem r idx = Some d_zero.

(** The named skeleton of a model whose names are pairwise distinct: the
    [i]-th name with index [o + i] and the shape of the [i]-th array. *)
Fixpoint named_from {A} (o : nat) (model_weights : list (string * ndarray A))
    : weights.skel :=
  match model_weights with
  | [] => []
  | (k, x) :: rest =>
      (k, weights.mk_entry o (shape x)) :: named_from (S o) rest
  end.

(** What [expand(partition(G, Sg, Sl), Sl, Sg)] holds for the model's
    array [x] of name [k]. *)
Definition expanded_like {A} `{!Dtype A} (Sl : weights.skel) (k : string)
    (r x : ndarray A) : Prop :=
  match weights.dict_get k Sl with
  | Some v => zero_padded_block_of r x (weights.eshape v)
  | None => zeros_like r x
  end.

(** A local skeleton for a smaller model of [model_weights]: its names
    are names of the model in the same relative order, and each shape has
    at least one axis, as many axes as the model's array of that name,
    and no axis longer than the model's. *)
Definition sub_skeleton {A} (Sl : weights.skel)
    (model_weights : list (string * ndarray A)) : Prop :=
  Sl.*1 `sublist_of` model_weights.*1 ∧
  ∀ k v x, (k, v) ∈ Sl → (k, x) ∈ model_weights →
           weights.eshape v ≠ [] ∧ Forall2 le (weights.eshape v) (shape x).

(** The local tree [P] holds, for the names of [Sl] in order, the
    leading blocks of the arrays of those names in a suffix of the
    model. *)
Inductive aligned {A} : weights.skel → weights.tree A →
    list (string * ndarray A) → Prop :=
  | aligned_nil : aligned [] [] []
  | aligned_skip Sl P k x model :
      k ∉ Sl.*1 → aligned Sl P model → aligned Sl P ((k, x) :: model)
  | aligned_take k v p x Sl P model :
      np.slice_leading x (weights.eshape v) = Some p →
      weights.eshape v ≠ [] →
      Forall2 le (weights.eshape v) (shape x) →
      aligned Sl P model →
      aligned ((k, v) :: Sl) (p :: P) ((k, x) :: model).

(** A model with a matrix, a bias vector and a one-element vector, and a
    local skeleton for a smaller model without the bias. *)
Definition example_model : list (string * ndarray Z) :=
  [("w"%string, mk_ndarray [2; 2] [1; 2; 3; 4]%Z);
   ("b"%string, mk_ndarray [2] [5; 6]%Z);
   ("c"%string, mk_ndarray [1] [9%Z])].

Definition example_local : weights.skel :=
  [("w"%string, weights.mk_entry 0 [1; 2]);
   ("c"%string, weights.mk_entry 1 [1])].

(** [l] ascends from [st]: [st <= l[0] <= l[1] <= ...]. *)
Fixpoint ascending_from (st : nat) (l : list nat) : Prop :=
  match l with
  | [] => True
  | x :: rest => st ≤ x ∧ ascending_from x rest
  end.

(** The invariant of a [DataIter]: the batch size does not exceed the
    number of held labels, and [idx] is their full index range. *)
Definition DataIter_inv {Row} (it : datasets.DataIter (Row:=Row)) : Prop :=
  datasets.batch_size it ≤ length (datasets.y it) ∧
  datasets.idx it = seq 0 (length (datasets.y it)).

(** [b] is a batch of [it]: it holds [batch_size] rows and as many
    labels, and there are [batch_size] pairwise distinct positions of the
    held range such that the [j]-th row and the [j]-th label of [b] are
    the row and the label that [it] holds at the [j]-th of them. *)
Definition is_batch {Row} (it : datasets.DataIter (Row:=Row))
    (b : list Row * list nat) : Prop :=
  length b.1 = datasets.batch_size it ∧ length b.2 = datasets.batch_size it ∧
  ∃ ix, length ix = datasets.batch_size it ∧ NoDup ix ∧
        Forall (λ i, i < length (datasets.y it)) ix ∧
        ∀ j i, ix !! j = Some i →
               b.1 !! j = datasets.X it !! i ∧ b.2 !! j = datasets.y it !! i.

(** Every buffer, array object and list object of [h] is an object of
    [h'] with the same contents. *)
Definition unchanged {A} (h h' : objects.heap A) : Prop :=
  objects.buffers h ⊆ objects.buffers h' ∧
  objects.arrays h ⊆ objects.arrays h' ∧
  objects.lists h ⊆ objects.lists h'.

(** The array object reads a buffer that did not exist in [h]. *)
Definition in_new_buffer {A} (h : objects.heap A) (o : objects.array_obj) : Prop :=
  objects.buffers h !! objects.base o = None.

(** The array object is a view on the buffer of one of the array objects
    [srcs] of [h]; or it has no axis and reads a buffer that did not
    exist in [h]. *)
Definition view_on {A} (h : objects.heap A) (srcs : list positive)
    (o : objects.array_obj) : Prop :=
  (objects.oshape o = [] ∧ in_new_buffer h o) ∨
  (objects.oshape o ≠ [] ∧
   ∃ a0 o0, a0 ∈ srcs ∧ objects.arrays h !! a0 = Some o0 ∧
            objects.base o = objects.base o0).

(** [res] is the outcome of a call that, started in [h], built the
    arrays [xs]: it changed no object of [h]; when [xs] is [None] it
    raised; otherwise it returned references to pairwise distinct array
    objects that did not exist in [h], each satisfying [Q], which stand
    for the arrays [xs]. *)
Definition builds_arrays {A} (h : objects.heap A) (Q : objects.array_obj → Prop)
    (xs : option (list (ndarray A)))
    (res : option (list positive) * objects.heap A) : Prop :=
  unchanged h res.2 ∧
  match xs with
  | Some xs =>
      ∃ ls, res.1 = Some ls ∧ NoDup ls ∧
            Forall (λ a, objects.arrays h !! a = None ∧
                         ∃ o, objects.arrays res.2 !! a = Some o ∧ Q o) ls ∧
            mapM (objects.read_array res.2) ls = Some xs
  | None => res.1 = None
  end.

(** [res] is the outcome of a call that, started in [h], returned the
    tree [t] as a new tree: it changed no object of [h]; when [t] is
    [None] it raised; otherwise it returned a reference to a list object
    that did not exist in [h], holding references to pairwise distinct
    array objects that did not exist in [h] either, each satisfying [Q],
    and the list stands for [t]. *)
Definition returns_new_tree {A} (h : objects.heap A)
    (Q : objects.array_obj → Prop) (t : option (list (ndarray A)))
    (res : option positive * objects.heap A) : Prop :=
  unchanged h res.2 ∧
  match t with
  | Some t =>
      ∃ l ls, res.1 = Some l ∧ objects.lists h !! l = None ∧
              objects.lists res.2 !! l = Some ls ∧ NoDup ls ∧
              Forall (λ a, objects.arrays h !! a = None ∧
                           ∃ o, objects.arrays res.2 !! a = Some o ∧ Q o) ls ∧
              objects.read_tree res.2 l = Some t
  | None => res.1 = None
  end.

(** The same for the one new array that [ravel] returns. *)
Definition returns_new_array {A} (h : objects.heap A) (v : option (list A))
    (res : option positive * objects.heap A) : Prop :=
  unchanged h res.2 ∧
  match v with
  | Some v =>
      ∃ a o, res.1 = Some a ∧ objects.arrays h !! a = None ∧
             objects.arrays res.2 !! a = Some o ∧ in_new_buffer h o ∧
             objects.read_array res.2 a = Some (mk_ndarray [length v] v)
  | None => res.1 = None
  end.

(** [[p(x) for x in xs]] for a [p] that carries a value from one item
    to the next and may raise. *)
Fixpoint mapM_from {S V R} (p : S → V → option (R * S)) (s : S) (xs : list V)
    : option (list R) :=
  match xs with
  | [] => Some []
  | x :: rest =>
      ys ← p s x; rest' ← mapM_from p ys.2 rest; Some (ys.1 :: rest')
  end.

(** A computation over the generator objects that uses generator [r]
    and no other: its result and the next state of [r] are determined by
    the state of [r], and every other generator is left as it was. *)
Definition draws_only_from {G R : Type} (r : weights.rng_ref)
    (run : (weights.rng_ref → G) → R * (weights.rng_ref → G)) : Prop :=
  ∀ σ1 σ2, σ1 r = σ2 r →
    (run σ1).1 = (run σ2).1 ∧ (run σ1).2 r = (run σ2).2 r ∧
    ∀ r', r' ≠ r → (run σ1).2 r' = σ1 r'.

(** [x op y] for two arrays of one shape: the shape of [x], and the
    elements combined position by position. *)
Definition elementwise {A} (f : A → A → A) (x y : ndarray A) : ndarray A :=
  mk_ndarray (shape x) (zip_with f (data x) (data y)).

(** Every array of [R] has the shape of the array of [T] at its
    position, and holds at every index [f] of the element that the array
    of [T] holds there. *)
Definition maps_elements {A} (f : A → A) (T R : weights.tree A) : Prop :=
  Forall2 (λ x r, shape r = shape x ∧
                  ∀ idx, np.getitem r idx = f <$> np.getitem x idx) T R.

(** [R] has one well-formed array per array of [T], of the same shape. *)
Definition same_shapes {A} (R T : weights.tree A) : Prop :=
  Forall2 (λ r x, shape r = shape x ∧ np.wf r) R T.

(** The local tree that [partition] cuts from [example_model] for
    [example_local]. *)
Definition example_local_tree : weights.tree Z :=
  [mk_ndarray [1; 2] [1; 2]%Z; mk_ndarray [1] [9%Z]].

(** A heap holding [example_tree] twice, the tree of [example_model],
    [example_local_tree] and a flat vector, each tree as a list object
    with arrays of its own, in the lists 1 to 4 and the array 14. *)
Definition example_heap : objects.heap Z :=
  (objects.bind (objects.store_tree example_tree) (λ _,
   objects.bind (objects.store_tree example_tree) (λ _,
   objects.bind (objects.store_tree example_model.*2) (λ _,
   objects.bind (objects.store_tree example_local_tree) (λ _,
   objects.new_array (mk_ndarray [5] [1; 2; 3; 4; 5]%Z)))))
     (objects.mk_heap ∅ ∅ ∅)).2.

(** The entries of [a] at the positions where [mask] holds [True], in
    order. *)
Fixpoint masked {T} (a : list T) (mask : list bool) : list T :=
  match a, mask with
  | x :: a', b :: mask' => if b then x :: masked a' mask' else masked a' mask'
  | _, _ => []
  end.

(** A data set of three rows, the first and the last for training. *)
Definition example_dataset : datasets.Dataset (Row:=string) :=
  datasets.Dataset_init ["a"; "b"; "c"]%string [0; 1; 0] [true; false; true].

(** * Properties *)

(** ** Ravel and unravel *)

Section ravel_unravel.
Context {A : Type}.
Implicit Types (T : weights.tree A) (v : list A).

Lemma py_slice_length {X} (l : list X) i j :
  length (py_slice l i j) = Nat.min (j - i) (length l - i).
Proof. unfold py_slice. by rewrite length_take, length_drop. Qed.

Lemma py_slice_middle {X} (pre mid post : list X) :
  py_slice (pre ++ mid ++ post) (length pre) (length pre + length mid) = mid.
Proof.
  unfold py_slice. rewrite drop_app_length.
  replace (length pre + length mid - length pre) with (length mid) by lia.
  by rewrite take_app_length.
Qed.

Lemma unraveller_consistent T : consistent (weights.unraveller T).
Proof.
  unfold consistent, weights.unraveller. apply Forall_fmap, Forall_forall.
  by intros x _.
Qed.

Lemma unravel_from_ravelled T : ∀ pre post,
  Forall np.wf T →
  weights.unravel_from (pre ++ concat (np.ravel <$> T) ++ post) (length pre)
                       (weights.unraveller T) = Some T.
Proof.
  unfold np.ravel, weights.unraveller.
  induction T as [|x T IH]; intros pre post Hwf; [done|].
  apply Forall_cons_1 in Hwf as [Hx Hwf]. unfold wf in Hx.
  specialize (IH (pre ++ data x) post Hwf).
  rewrite length_app, <- (assoc_L (++)) in IH.
  cbn. rewrite <- Hx, <- !(assoc_L (++)), py_slice_middle.
  unfold np.reshape. rewrite decide_True by done. cbn.
  rewrite IH. cbn. by destruct x.
Qed.

Lemma unravel_from_none v s : ∀ i,
  consistent s → i ≤ length v →
  weights.unravel_from v i s = None ↔ length v < i + total_length s.
Proof.
  induction s as [|[sh n] s IH]; intros i Hs Hi.
  - unfold total_length. cbn. split; [done|lia].
  - apply Forall_cons_1 in Hs as [Hn Hs]. cbn in Hn. subst n.
    cbn [weights.unravel_from]. unfold np.reshape.
    unfold total_length. cbn [fmap list_fmap sum_list snd].
    fold (total_length s). rewrite py_slice_length.
    destruct (decide (i + prod sh ≤ length v)) as [Hi'|Hi'].
    + rewrite decide_True by lia. cbn.
      specialize (IH (i + prod sh) Hs Hi').
      destruct (weights.unravel_from v (i + prod sh) s) as [xs|]; cbn.
      * split; [done|]. intros ?.
        assert (length v < i + prod sh + total_length s) as H' by lia.
        by apply IH in H'.
      * split; [|done]. intros _. destruct IH as [IH _].
        specialize (IH eq_refl). lia.
    + rewrite decide_False by lia. cbn. split; [|done]. intros _. lia.
Qed.

Lemma unravel_from_some v s : ∀ i T,
  weights.unravel_from v i s = Some T →
  concat (data <$> T) = py_slice v i (i + total_length s) ∧ shape <$> T = fst <$> s.
Proof.
  induction s as [|[sh n] s IH]; intros i T H.
  - cbn in H. injection H as <-. cbn. unfold py_slice, total_length. cbn.
    replace (i + 0 - i) with 0 by lia. done.
  - cbn [weights.unravel_from] in H. unfold np.reshape in H.
    destruct (decide _) as [Hl|]; [|done]. cbn in H.
    destruct (weights.unravel_from v (i + n) s) as [xs|] eqn:E; [|done].
    cbn in H. injection H as <-. apply IH in E as [E1 E2].
    cbn. rewrite E1, E2. split; [|done].
    rewrite py_slice_length in Hl.
    unfold py_slice, total_length in *. cbn [fmap list_fmap sum_list snd].
    replace (i + n - i) with n in * by lia.
    replace (i + n + sum_list (snd <$> s) - (i + n)) with (sum_list (snd <$> s)) by lia.
    replace (i + (n + sum_list (snd <$> s)) - i) with (n + sum_list (snd <$> s)) by lia.
    rewrite <- (drop_drop v n i), <- take_take_drop. done.
Qed.

End ravel_unravel.

(** C1, as amended: for every non-empty weight tree [T] of well-formed
    arrays, [ravel(T)] returns a vector and
    [unravel(ravel(T), unraveller(T))] returns [T] itself: the same
    length and, at every position, the same shape and the same values. *)
Theorem ravel_unravel_roundtrip {A} (T : weights.tree A) :
  T ≠ [] → Forall np.wf T →
  ∃ v, weights.ravel T = Some v ∧
       weights.unravel v (weights.unraveller T) = Some T ∧
       weights.roundtrip T = Some T.
Proof.
  intros Hne Hwf. exists (concat (np.ravel <$> T)).
  assert (weights.ravel T = Some (concat (np.ravel <$> T))) as Hr.
  { unfold weights.ravel, np.concatenate. by destruct T. }
  assert (weights.unravel (concat (np.ravel <$> T)) (weights.unraveller T)
          = Some T) as Hu.
  { pose proof (unravel_from_ravelled T [] [] Hwf) as H.
    cbn in H. by rewrite app_nil_r in H. }
  split_and!; [done..|]. unfold weights.roundtrip. by rewrite Hr.
Qed.

Lemma ravel_unravel_roundtrip_witness :
  ∃ v, weights.ravel example_tree = Some v ∧
       weights.unravel v (weights.unraveller example_tree) = Some example_tree ∧
       weights.roundtrip example_tree = Some example_tree.
Proof.
  apply ravel_unravel_roundtrip; [done|].
  repeat constructor.
Defined.

(** C1 as stated fails for the empty tree: [np.concatenate] of no array
    raises, so the round trip returns no tree. *)
Lemma roundtrip_empty_tree_raises :
  weights.ravel (A:=Z) [] = None ∧ weights.roundtrip (A:=Z) [] = None.
Proof. done. Qed.

(** C5, as amended: for a skeleton whose recorded lengths are the sizes
    of its shapes, [unravel(v, s)] raises exactly when the lengths sum to
    more than [len(v)]; otherwise it returns the tree of the recorded
    shapes built from the leading [sum] elements of [v], ignoring any
    surplus. *)
Theorem unravel_raises_iff_too_short {A} (v : list A) s :
  consistent s →
  (weights.unravel v s = None ↔ length v < total_length s) ∧
  (∀ T, weights.unravel v s = Some T →
        concat (data <$> T) = take (total_length s) v ∧ shape <$> T = fst <$> s).
Proof.
  intros Hs. split.
  - unfold weights.unravel. rewrite unravel_from_none by (done || lia). done.
  - intros T HT. apply unravel_from_some in HT as [H1 H2].
    split; [|done]. rewrite H1. unfold py_slice. cbn. by rewrite Nat.sub_0_r.
Qed.

Lemma unravel_raises_iff_too_short_witness :
  (weights.unravel [1; 2; 3]%Z [([2], 2); ([1; 2], 2)] = None
   ↔ length [1; 2; 3]%Z < total_length [([2], 2); ([1; 2], 2)]) ∧
  (∀ T, weights.unravel [1; 2; 3]%Z [([2], 2); ([1; 2], 2)] = Some T →
        concat (data <$> T) = take (total_length [([2], 2); ([1; 2], 2)]) [1; 2; 3]%Z ∧
        shape <$> T = fst <$> [([2], 2); ([1; 2], 2)]).
Proof.
  apply unravel_raises_iff_too_short. repeat constructor.
Defined.

(** C5 as stated fails for a vector that is too long: the lengths sum to
    2, the vector has 3 elements, and [unravel] returns a tree. *)
Lemma unravel_long_vector_accepted :
  total_length [([2], 2)] ≠ length [1; 2; 3]%Z ∧
  weights.unravel [1; 2; 3]%Z [([2], 2)] = Some [mk_ndarray [2] [1; 2]%Z].
Proof. split; [cbv; lia|reflexivity]. Qed.

(** ** Element-wise arithmetic *)

Section arithmetic.
Context {A : Type} `{!Dtype A}.
Implicit Types (a b : weights.tree A).

Lemma broadcast_rev_refl (s : list nat) : np.broadcast_rev s s = Some s.
Proof.
  induction s as [|d s IH]; [done|]. cbn. rewrite IH. cbn.
  by rewrite decide_True.
Qed.

Lemma broadcast_shapes_refl (s : list nat) : np.broadcast_shapes s s = Some s.
Proof.
  unfold np.broadcast_shapes. rewrite broadcast_rev_refl. cbn.
  by rewrite reverse_involutive.
Qed.

Lemma mapM_None {X Y} (f : X → option Y) (l : list X) :
  mapM f l = None ↔ ∃ i x, l !! i = Some x ∧ f x = None.
Proof.
  induction l as [|x l IH]; cbn.
  - split; [done|]. by intros (i & x & Hi & _).
  - destruct (f x) as [y|] eqn:Hf; cbn.
    + destruct (mapM f l) as [k|]; cbn.
      * split; [done|]. intros ([|i] & x' & Hi & Hf'); cbn in Hi.
        -- injection Hi as <-. congruence.
        -- destruct IH as [_ IH]. by discriminate IH; eauto.
      * split; [|done]. intros _. destruct IH as [IH _].
        destruct (IH eq_refl) as (i & x' & Hi & Hf'). by exists (S i), x'.
    + split; [|done]. intros _. by exists 0, x.
Qed.

Lemma zip_op_None f a b :
  weights.zip_op f a b = None ↔
  ∃ i x y, a !! i = Some x ∧ b !! i = Some y ∧
           np.broadcast_shapes (shape x) (shape y) = None.
Proof.
  unfold weights.zip_op. etrans; [apply mapM_None|]. split.
  - intros (i & [x y] & Hi & Hf). exists i, x, y.
    apply lookup_zip_with_Some in Hi as (x' & y' & Heq & Hx & Hy).
    injection Heq as <- <-. split_and!; [done..|].
    unfold np.binop in Hf. cbn in Hf.
    by destruct (np.broadcast_shapes (shape x) (shape y)).
  - intros (i & x & y & Hx & Hy & Hb). exists i, (x, y). split.
    + apply lookup_zip_with_Some. eauto.
    + unfold np.binop. cbn. by rewrite Hb.
Qed.

Lemma zip_op_length f a b t :
  weights.zip_op f a b = Some t → length t = Nat.min (length a) (length b).
Proof.
  unfold weights.zip_op. intros H. apply length_mapM in H.
  by rewrite <- H, length_zip_with.
Qed.

Lemma zip_op_same_shapes f a b :
  Forall2 (λ x y, shape x = shape y) a b → is_Some (weights.zip_op f a b).
Proof.
  intros H. destruct (weights.zip_op f a b) eqn:E; [eauto|].
  apply zip_op_None in E as (i & x & y & Hx & Hy & Hb).
  pose proof (Forall2_lookup_lr _ _ _ _ _ _ H Hx Hy) as Hs. cbn in Hs.
  rewrite Hs, broadcast_shapes_refl in Hb. done.
Qed.

End arithmetic.

(** C4, as amended: each of [sub], [mul] and [div] raises exactly when,
    at some position that both trees have, the two shapes cannot be
    broadcast together; in particular they never raise when all paired
    shapes are identical.  A difference in length alone raises nothing:
    the result has the length of the shorter tree. *)
Theorem sub_mul_div_raise_iff {A} `{!Dtype A} (a b : weights.tree A) :
  let mismatch := ∃ i x y, a !! i = Some x ∧ b !! i = Some y ∧
                           np.broadcast_shapes (shape x) (shape y) = None in
  (weights.sub a b = None ↔ mismatch) ∧
  (weights.mul a b = None ↔ mismatch) ∧
  (weights.div a b = None ↔ mismatch) ∧
  (Forall2 (λ x y, shape x = shape y) a b →
   is_Some (weights.sub a b) ∧ is_Some (weights.mul a b) ∧
   is_Some (weights.div a b)) ∧
  (∀ t, weights.sub a b = Some t ∨ weights.mul a b = Some t ∨
        weights.div a b = Some t →
        length t = Nat.min (length a) (length b)).
Proof.
  cbn zeta. unfold weights.sub, weights.mul, weights.div.
  split_and!; try apply zip_op_None.
  - intros H. split_and!; by apply zip_op_same_shapes.
  - intros t [H|[H|H]]; by apply zip_op_length in H.
Qed.

(** C4 as stated fails twice: trees of different lengths are cut to the
    shorter one, and differing shapes that broadcast are accepted. *)
Lemma sub_mul_div_mismatch_accepted :
  weights.sub [mk_ndarray [2] [1; 2]%Z] [] = Some [] ∧
  weights.mul [mk_ndarray [2] [1; 2]%Z] [mk_ndarray [1] [3%Z]]
    = Some [mk_ndarray [2] [3; 6]%Z] ∧
  weights.div [mk_ndarray [2; 1] [4; 6]%Z] [mk_ndarray [] [2%Z]; mk_ndarray [] [2%Z]]
    = Some [mk_ndarray [2; 1] [2; 3]%Z].
Proof. split_and!; reflexivity. Qed.

(** ** Blocks, slices and padding of row-major data *)

Section blocks.
Context {A : Type} `{!Dtype A}.
Implicit Types (l : list A) (s ks idx aft : list nat).

Lemma prod_cons d s : np.prod (d :: s) = d * np.prod s.
Proof. done. Qed.

Lemma chunks_length n d l : length (np.chunks n d l) = d.
Proof. revert l. induction d as [|d IH]; intros l; cbn; [done|]. by rewrite IH. Qed.

Lemma chunks_Forall_length n d l :
  length l = d * n → Forall (λ b, length b = n) (np.chunks n d l).
Proof.
  revert l. induction d as [|d IH]; intros l Hl; cbn; constructor.
  - rewrite length_take. lia.
  - apply IH. rewrite length_drop. lia.
Qed.

Lemma chunks_app n e (bs : list (list A)) rest :
  Forall (λ b, length b = n) bs →
  np.chunks n (length bs + e) (concat bs ++ rest) = bs ++ np.chunks n e rest.
Proof.
  induction 1 as [|b bs Hb _ IH]; [done|]. cbn.
  rewrite <- (assoc_L (++)), <- Hb, take_app_length, drop_app_length.
  f_equal. rewrite Hb. apply IH.
Qed.

Lemma chunks_concat n (bs : list (list A)) :
  Forall (λ b, length b = n) bs → np.chunks n (length bs) (concat bs) = bs.
Proof.
  intros H. pose proof (chunks_app n 0 bs [] H) as H'.
  by rewrite Nat.add_0_r, !app_nil_r in H'.
Qed.

Lemma chunks_replicate n a (z : A) :
  np.chunks n a (replicate (a * n) z) = replicate a (replicate n z).
Proof.
  induction a as [|a IH]; [done|]. cbn.
  rewrite replicate_add, take_app_length', drop_app_length'
    by (by rewrite length_replicate).
  by rewrite IH.
Qed.

Lemma concat_length_uniform m (bs : list (list A)) :
  Forall (λ b, length b = m) bs → length (concat bs) = length bs * m.
Proof.
  induction 1 as [|b bs Hb _ IH]; [done|]. cbn. rewrite length_app. lia.
Qed.

Lemma item_is_Some s : ∀ idx l,
  length l = np.prod s → Forall2 lt idx s → is_Some (np.item s idx l).
Proof.
  induction s as [|d s IH]; intros idx l Hl Hidx.
  - apply Forall2_nil_inv_r in Hidx as ->. cbn.
    apply lookup_lt_is_Some. rewrite Hl. cbv. lia.
  - apply Forall2_cons_inv_r in Hidx as (i & idx' & Hi & Hidx & ->). cbn.
    rewrite prod_cons in Hl.
    destruct (np.chunks (np.prod s) d l !! i) as [b|] eqn:Hb.
    + cbn. apply IH; [|done].
      pose proof (chunks_Forall_length _ _ _ Hl) as HF.
      rewrite Forall_lookup in HF. by apply (HF i).
    + apply lookup_ge_None in Hb. rewrite chunks_length in Hb. lia.
Qed.

Lemma item_zeros s : ∀ idx,
  Forall2 lt idx s → np.item s idx (replicate (np.prod s) d_zero) = Some d_zero.
Proof.
  induction s as [|d s IH]; intros idx Hidx.
  - by apply Forall2_nil_inv_r in Hidx as ->.
  - apply Forall2_cons_inv_r in Hidx as (i & idx' & Hi & Hidx & ->). cbn.
    rewrite prod_cons, chunks_replicate, lookup_replicate_2 by done. cbn.
    by apply IH.
Qed.

Lemma block_shape_length s ks : length (np.block_shape s ks) = length s.
Proof.
  revert ks. induction s as [|d s IH]; intros [|k ks]; cbn; try done.
  by rewrite IH.
Qed.

Lemma block_shape_le s ks :
  length ks = length s → Forall2 le ks s → np.block_shape s ks = ks.
Proof.
  intros _ H. induction H as [|k d ks s Hk _ IH]; [done|]. cbn.
  rewrite IH. f_equal. lia.
Qed.

Lemma leading_block_length s : ∀ ks l,
  length l = np.prod s →
  length (np.leading_block s ks l) = np.prod (np.block_shape s ks).
Proof.
  induction s as [|d s IH]; intros [|k ks] l Hl; cbn; try done.
  rewrite prod_cons in *.
  pose proof (chunks_Forall_length _ _ _ Hl) as HF.
  rewrite (concat_length_uniform (np.prod (np.block_shape s ks))).
  - by rewrite length_fmap, length_take, chunks_length.
  - apply Forall_fmap, Forall_take. eapply Forall_impl; [exact HF|].
    intros b Hb. cbn. by apply IH.
Qed.

Lemma leading_blocks_Forall_length s ks (bs : list (list A)) :
  Forall (λ b, length b = np.prod s) bs →
  Forall (λ b, length b = np.prod (np.block_shape s ks))
         (np.leading_block s ks <$> bs).
Proof.
  intros H. apply Forall_fmap. eapply Forall_impl; [exact H|].
  intros b Hb. cbn. by apply leading_block_length.
Qed.

Lemma item_leading_block s : ∀ ks idx l,
  length l = np.prod s → Forall2 lt idx (np.block_shape s ks) →
  np.item (np.block_shape s ks) idx (np.leading_block s ks l) = np.item s idx l.
Proof.
  induction s as [|d s IH]; intros [|k ks] idx l Hl Hidx; cbn; try done.
  cbn in Hidx.
  apply Forall2_cons_inv_r in Hidx as (i & idx' & Hi & Hidx & ->). cbn.
  rewrite prod_cons in Hl.
  pose proof (chunks_Forall_length _ _ _ Hl) as HF.
  set (cs := np.chunks (np.prod s) d l) in *.
  assert (length (np.leading_block s ks <$> take k cs) = k `min` d) as Hlen.
  { rewrite length_fmap, length_take. unfold cs. by rewrite chunks_length. }
  rewrite <- Hlen, chunks_concat
    by (apply leading_blocks_Forall_length; by apply Forall_take).
  rewrite list_lookup_fmap, lookup_take_lt by lia.
  destruct (cs !! i) as [b|] eqn:Hb; [|done]. cbn.
  apply IH; [|done]. rewrite Forall_lookup in HF. by apply (HF i).
Qed.

Lemma pad_data_length s : ∀ aft l,
  length aft = length s → length l = np.prod s →
  length (np.pad_data s aft l) = np.prod (zip_with Nat.add s aft).
Proof.
  induction s as [|d s IH]; intros [|a aft] l Haft Hl; cbn; try done.
  cbn in Haft. rewrite prod_cons in *.
  rewrite length_app, length_replicate.
  pose proof (chunks_Forall_length _ _ _ Hl) as HF.
  rewrite (concat_length_uniform (np.prod (zip_with Nat.add s aft))).
  - rewrite length_fmap, chunks_length. lia.
  - apply Forall_fmap. eapply Forall_impl; [exact HF|].
    intros b Hb. cbn. apply IH; [lia|done].
Qed.

Lemma pad_blocks_Forall_length s aft (bs : list (list A)) :
  length aft = length s →
  Forall (λ b, length b = np.prod s) bs →
  Forall (λ b, length b = np.prod (zip_with Nat.add s aft))
         (np.pad_data s aft <$> bs).
Proof.
  intros Haft H. apply Forall_fmap. eapply Forall_impl; [exact H|].
  intros b Hb. cbn. by apply pad_data_length.
Qed.

Lemma item_pad_data s : ∀ aft idx l,
  length aft = length s → length l = np.prod s →
  Forall2 lt idx (zip_with Nat.add s aft) →
  np.item (zip_with Nat.add s aft) idx (np.pad_data s aft l)
  = if decide (Forall2 lt idx s) then np.item s idx l else Some d_zero.
Proof.
  induction s as [|d s IH]; intros [|a aft] idx l Haft Hl Hidx; try done.
  - cbn in *. apply Forall2_nil_inv_r in Hidx as ->.
    by rewrite decide_True by constructor.
  - cbn in Haft, Hidx.
    apply Forall2_cons_inv_r in Hidx as (i & idx' & Hi & Hidx & ->).
    cbn [np.pad_data zip_with np.item]. rewrite prod_cons in Hl.
    pose proof (chunks_Forall_length _ _ _ Hl) as HF.
    set (cs := np.chunks (np.prod s) d l) in *.
    assert (length (np.pad_data s aft <$> cs) = d) as Hlen.
    { rewrite length_fmap. unfold cs. by rewrite chunks_length. }
    rewrite <- Hlen at 1.
    rewrite chunks_app by (apply pad_blocks_Forall_length; [lia|done]).
    rewrite chunks_replicate.
    destruct (decide (i < d)) as [Hid|Hid].
    + rewrite lookup_app_l by lia. rewrite list_lookup_fmap.
      destruct (cs !! i) as [b|] eqn:Hb.
      2:{ apply lookup_ge_None in Hb. unfold cs in Hb.
          rewrite chunks_length in Hb. lia. }
      cbn. rewrite IH; [|lia| |done].
      2:{ rewrite Forall_lookup in HF. by apply (HF i). }
      destruct (decide (Forall2 lt idx' s)) as [H1|H1].
      * by rewrite decide_True by (by constructor).
      * rewrite decide_False; [done|]. intros H2.
        apply Forall2_cons_1 in H2 as [_ H2]. done.
    + rewrite lookup_app_r by lia. rewrite Hlen.
      rewrite lookup_replicate_2 by lia. cbn.
      rewrite item_zeros by done. rewrite decide_False; [done|].
      intros H2. apply Forall2_cons_1 in H2 as [H2 _]. lia.
Qed.

End blocks.

(** ** Leading blocks and zero padding of arrays *)

Section array_blocks.
Context {A : Type} `{!Dtype A}.
Implicit Types (x p y : ndarray A) (ks : list nat).

Lemma Forall2_lt_block_shape s : ∀ ks idx,
  Forall2 lt idx (np.block_shape s ks) → Forall2 lt idx s.
Proof.
  induction s as [|d s IH]; intros [|k ks] idx H; cbn in *; try done.
  apply Forall2_cons_inv_r in H as (i & idx' & Hi & H & ->).
  constructor; [lia|]. by eapply IH.
Qed.

Lemma slice_leading_spec x ks p :
  np.wf x → np.slice_leading x ks = Some p →
  np.wf p ∧ leading_block_of p x ks.
Proof.
  unfold np.slice_leading, np.wf, np.size. intros Hwf H.
  case_decide; [|done]. injection H as <-. cbn. split.
  - by apply leading_block_length.
  - split; [done|]. cbn. intros idx Hidx. unfold np.getitem. cbn.
    rewrite item_leading_block by done. split; [|done].
    apply item_is_Some; [done|]. by eapply Forall2_lt_block_shape.
Qed.

Lemma zeros_spec x : zeros_like (np.zeros (shape x)) x.
Proof.
  split; [done|]. intros idx Hidx. unfold np.getitem. cbn.
  by apply item_zeros.
Qed.

Lemma pad_widths_spec s ks :
  Forall2 le ks s →
  Forall (λ a, 0 ≤ a)%Z (zip_with (λ b ws, Z.of_nat b - Z.of_nat ws)%Z s ks) ∧
  length (zip_with (λ b ws, Z.of_nat b - Z.of_nat ws)%Z s ks) = length ks ∧
  zip_with Nat.add ks
    (Z.to_nat <$> zip_with (λ b ws, Z.of_nat b - Z.of_nat ws)%Z s ks) = s.
Proof.
  induction 1 as [|k d ks s Hk _ (IH1 & IH2 & IH3)]; [done|]. cbn.
  split_and!.
  - constructor; [lia|done].
  - by rewrite IH2.
  - rewrite IH3. f_equal. lia.
Qed.

(** The composition at the heart of [expand(partition(...))]: cutting
    [x] down to [ks] and padding the block back to the shape of [x]. *)
Lemma pad_slice_spec x ks :
  np.wf x → ks ≠ [] → Forall2 le ks (shape x) →
  ∃ p y, np.slice_leading x ks = Some p ∧
         np.pad p (zip_with (λ b ws, Z.of_nat b - Z.of_nat ws)%Z
                            (shape x) (shape p)) = Some y ∧
         zero_padded_block_of y x ks.
Proof.
  intros Hwf Hne Hle.
  pose proof (Forall2_length _ _ _ Hle) as Hlen.
  unfold np.slice_leading, np.ndim. rewrite decide_True by lia.
  eexists _, _. split; [done|]. cbn [shape data].
  rewrite block_shape_le by done.
  destruct (pad_widths_spec _ _ Hle) as (Hw1 & Hw2 & Hw3).
  unfold np.pad, np.ndim. cbn [shape data].
  destruct (zip_with _ (shape x) ks) as [|w ws] eqn:Hz.
  { destruct ks; [done|]. done. }
  rewrite <- Hz in *. rewrite decide_True by done.
  rewrite decide_True by done. cbn. split; [done|].
  split; [done|]. cbn. intros idx Hidx. unfold np.getitem. cbn.
  rewrite Hw3. rewrite <- Hw3 at 1.
  unfold np.wf, np.size in Hwf.
  rewrite item_pad_data.
  - case_decide as Hin; [|done].
    rewrite <- (block_shape_le (shape x) ks) at 1 by done.
    apply item_leading_block; [done|]. by rewrite block_shape_le.
  - by rewrite length_fmap.
  - rewrite leading_block_length by done. by rewrite block_shape_le.
  - by rewrite Hw3.
Qed.

End array_blocks.

(** ** Partition *)

Section partition.
Context {A : Type} `{!Dtype A}.
Implicit Types (G : weights.tree A) (Sg Sl : weights.skel).

Lemma partition_item_Some G Sg (kv : string * weights.entry) r :
  (e ← weights.dict_get kv.1 Sg;
   x ← G !! weights.index e;
   np.slice_leading x (weights.eshape kv.2)) = Some r ↔
  ∃ e x, weights.dict_get kv.1 Sg = Some e ∧ G !! weights.index e = Some x ∧
         np.slice_leading x (weights.eshape kv.2) = Some r.
Proof.
  split.
  - intros H. destruct (weights.dict_get kv.1 Sg) as [e|]; [|done]. cbn in H.
    destruct (G !! weights.index e) as [x|] eqn:Hx; [|done]. cbn in H.
    by exists e, x.
  - intros (e & x & -> & Hx & Hr). cbn. by rewrite Hx.
Qed.

Lemma partition_is_Some G Sg Sl :
  is_Some (weights.partition G Sg Sl) ↔ sliceable G Sg Sl.
Proof.
  unfold weights.partition, sliceable, shared.
  etrans; [apply mapM_is_Some|].
  apply Forall_proper; [|done]. intros kv. cbn. split.
  - intros [r Hr]. apply partition_item_Some in Hr as (e & x & He & Hx & Hr).
    exists e, x. split_and!; [done..|].
    unfold np.slice_leading in Hr. by case_decide.
  - intros (e & x & He & Hx & Hr).
    exists (mk_ndarray (np.block_shape (shape x) (weights.eshape kv.2))
              (np.leading_block (shape x) (weights.eshape kv.2) (data x))).
    apply partition_item_Some. exists e, x. split_and!; [done..|].
    unfold np.slice_leading. by rewrite decide_True.
Qed.

Lemma partition_Some G Sg Sl R :
  Forall np.wf G → weights.partition G Sg Sl = Some R →
  Forall2 (λ kv r, ∃ e x, weights.dict_get kv.1 Sg = Some e ∧
                          G !! weights.index e = Some x ∧
                          leading_block_of r x (weights.eshape kv.2))
          (shared Sg Sl) R.
Proof.
  unfold weights.partition. intros Hwf H. apply mapM_Some_1 in H.
  fold (shared Sg Sl) in H. eapply Forall2_impl; [exact H|].
  intros kv r Hr. apply partition_item_Some in Hr as (e & x & He & Hx & Hr).
  exists e, x. split_and!; [done..|].
  eapply slice_leading_spec; [|done].
  rewrite Forall_lookup in Hwf. by eapply Hwf.
Qed.

End partition.

(** C3, as amended: [partition] returns a tree exactly when every name
    present in both skeletons has its global index inside the global tree
    and a local shape with no more axes than the array at that index
    (otherwise it raises).  The tree it returns has one array per name
    present in both skeletons, in the order of the local skeleton; each
    is the leading sub-block, of the local shape clamped at the array's
    sizes, of the global array at that name's global index. *)
Theorem partition_leading_blocks {A} `{!Dtype A}
    (G : weights.tree A) (Sg Sl : weights.skel) :
  Forall np.wf G →
  (is_Some (weights.partition G Sg Sl) ↔ sliceable G Sg Sl) ∧
  ∀ R, weights.partition G Sg Sl = Some R →
       Forall2 (λ kv r, ∃ e x, weights.dict_get kv.1 Sg = Some e ∧
                               G !! weights.index e = Some x ∧
                               leading_block_of r x (weights.eshape kv.2))
               (shared Sg Sl) R.
Proof.
  intros Hwf. split; [apply partition_is_Some|].
  intros R. by apply partition_Some.
Qed.

(** C3 as stated fails where the local shape has more axes than the
    global array: the slicing raises and no tree is returned. *)
Lemma partition_too_many_axes_raises :
  weights.partition [mk_ndarray [2] [1; 2]%Z]
    [("w"%string, weights.mk_entry 0 [2])]
    [("w"%string, weights.mk_entry 0 [1; 1])] = None.
Proof. reflexivity. Qed.

(** ** Named skeletons *)

Section skeletons.
Context {A : Type} `{!Dtype A}.
Implicit Types (model : list (string * ndarray A)) (Sl : weights.skel).

Lemma dict_get_None {V} k (d : list (string * V)) :
  weights.dict_get k d = None ↔ k ∉ d.*1.
Proof.
  induction d as [|[k' v] d IH]; cbn.
  - split; [|done]. intros _. apply not_elem_of_nil.
  - rewrite not_elem_of_cons. case_decide as Hk.
    + split; [done|]. by intros [Hne _].
    + rewrite IH. split; [|by intros [_ ?]]. intros ?. split; [congruence|done].
Qed.

Lemma dict_get_elem_of {V} k v (d : list (string * V)) :
  weights.dict_get k d = Some v → (k, v) ∈ d.
Proof.
  induction d as [|[k' v'] d IH]; cbn; [done|].
  case_decide as Hk.
  - intros [= ->]. subst. apply elem_of_cons. by left.
  - intros H. apply elem_of_cons. right. by apply IH.
Qed.

Lemma dict_get_NoDup {V} k v (d : list (string * V)) :
  NoDup d.*1 → (k, v) ∈ d → weights.dict_get k d = Some v.
Proof.
  induction d as [|[k' v'] d IH]; cbn; intros Hnd Hin.
  - by apply elem_of_nil in Hin.
  - apply NoDup_cons in Hnd as [Hk' Hnd].
    apply elem_of_cons in Hin as [[= -> ->]|Hin].
    + by rewrite decide_True.
    + rewrite decide_False; [by apply IH|].
      intros ->. apply Hk'. apply list_elem_of_fmap. by exists (k, v).
Qed.

Lemma dict_set_fresh {V} k v (d : list (string * V)) :
  k ∉ d.*1 → weights.dict_set k v d = d ++ [(k, v)].
Proof.
  induction d as [|[k' v'] d IH]; cbn; [done|].
  rewrite not_elem_of_cons. intros [Hne Hk].
  rewrite decide_False by done. by rewrite IH.
Qed.

Lemma named_from_keys o model : (named_from o model).*1 = model.*1.
Proof.
  revert o. induction model as [|[k x] model IH]; intros o; cbn; [done|].
  by rewrite IH.
Qed.

Lemma skeleton_from acc o model :
  NoDup (acc.*1 ++ model.*1) →
  foldl (λ d (iw : nat * (string * ndarray A)),
           weights.dict_set iw.2.1 (weights.mk_entry iw.1 (shape iw.2.2)) d)
        acc (weights.py_enumerate o model)
  = acc ++ named_from o model.
Proof.
  revert acc o. induction model as [|[k x] model IH]; intros acc o Hnd; cbn.
  - by rewrite app_nil_r.
  - cbn in Hnd. apply NoDup_app in Hnd as (Hacc & Hdisj & Hm).
    rewrite dict_set_fresh.
    2:{ intros Hk. apply (Hdisj k Hk). apply elem_of_cons. by left. }
    rewrite IH, <- (assoc_L (++)); [done|].
    rewrite fmap_app. cbn. rewrite <- (assoc_L (++)). cbn.
    apply NoDup_app. split_and!; [done| |done].
    intros k' Hk'. by apply Hdisj.
Qed.

Lemma skeleton_NoDup model :
  NoDup model.*1 → weights.skeleton model = named_from 0 model.
Proof. intros Hnd. unfold weights.skeleton. by rewrite skeleton_from. Qed.

Lemma named_from_lookup o model i k x :
  model !! i = Some (k, x) →
  (k, weights.mk_entry (o + i) (shape x)) ∈ named_from o model.
Proof.
  revert o i. induction model as [|[k' x'] model IH]; intros o i; [done|].
  destruct i as [|i]; cbn.
  - intros [= -> ->]. rewrite Nat.add_0_r. apply elem_of_cons. by left.
  - intros H. apply elem_of_cons. right.
    replace (o + S i) with (S o + i) by lia. by apply IH.
Qed.

End skeletons.

(** ** Partition followed by expand *)

Section expand_partition.
Context {A : Type} `{!Dtype A}.
Implicit Types (model : list (string * ndarray A)) (Sl : weights.skel)
  (P R : weights.tree A).

Lemma Forall2_impl_elem {X Y} (P1 P2 : X → Y → Prop) (l : list X) (k : list Y) :
  Forall2 P1 l k → (∀ x y, x ∈ l → P1 x y → P2 x y) → Forall2 P2 l k.
Proof.
  induction 1 as [|x y l k Hxy _ IH]; intros Himp; constructor.
  - apply Himp; [|done]. apply elem_of_cons. by left.
  - apply IH. intros x' y' Hx'. apply Himp. apply elem_of_cons. by right.
Qed.

Lemma filter_all {X} (Q : X → Prop) `{!∀ x, Decision (Q x)} (l : list X) :
  Forall Q l → filter Q l = l.
Proof.
  induction 1 as [|x l Hx _ IH]; [done|].
  by rewrite filter_cons_True, IH.
Qed.

Lemma elem_of_keys {V} k (v : V) (d : list (string * V)) : (k, v) ∈ d → k ∈ d.*1.
Proof. intros H. apply list_elem_of_fmap. by exists (k, v). Qed.

(** The blocks that [partition] cut for the names of [Sl] line up with
    the model, name by name. *)
Lemma aligned_of_blocks model : ∀ Sl P,
  NoDup model.*1 → sub_skeleton Sl model →
  Forall2 (λ kv p, ∃ x, (kv.1, x) ∈ model ∧
                        np.slice_leading x (weights.eshape kv.2) = Some p) Sl P →
  aligned Sl P model.
Proof.
  induction model as [|[k x] model IH]; intros Sl P Hnd [Hsub Hshape] HP.
  - cbn in Hsub. apply sublist_nil_r in Hsub. apply fmap_nil_inv in Hsub as ->.
    apply Forall2_nil_inv_l in HP as ->. constructor.
  - cbn in Hnd, Hsub. apply NoDup_cons in Hnd as [Hk Hnd].
    apply sublist_cons_r in Hsub as [Hsub|(l' & Heq & Hsub)].
    + assert (k ∉ Sl.*1) as HkSl.
      { intros Hin. apply Hk. by eapply elem_of_sublist. }
      apply aligned_skip; [done|]. apply IH; [done| |].
      * split; [done|]. intros k' v x' Hv Hx'. apply (Hshape k' v x' Hv).
        apply elem_of_cons. by right.
      * eapply Forall2_impl_elem; [exact HP|].
        intros [k' v] p Hin (x' & Hx' & Hp). cbn in *. exists x'.
        split; [|done]. apply elem_of_cons in Hx' as [[= -> ->]|]; [|done].
        exfalso. apply HkSl. by eapply elem_of_keys.
    + destruct Sl as [|[k' v] Sl]; [done|]. cbn in Heq.
      injection Heq as -> <-.
      apply Forall2_cons_inv_l in HP as (p & P' & (x' & Hx' & Hp) & HP & ->).
      cbn in Hx', Hp.
      assert (x' = x) as ->.
      { apply elem_of_cons in Hx' as [[= ->]|Hx']; [done|].
        exfalso. apply Hk. by eapply elem_of_keys. }
      destruct (Hshape k v x) as [Hne Hle]; [apply elem_of_cons; by left..|].
      apply aligned_take; [done..|]. apply IH; [done| |].
      * split; [done|]. intros k' v' x' Hv Hx''. apply (Hshape k' v' x').
        -- apply elem_of_cons. by right.
        -- apply elem_of_cons. by right.
      * eapply Forall2_impl_elem; [exact HP|].
        intros [k' v'] p' Hin (x' & Hx'' & Hp'). cbn in *. exists x'.
        split; [|done]. apply elem_of_cons in Hx'' as [[= -> ->]|]; [|done].
        exfalso. apply Hk. eapply elem_of_sublist; [|exact Hsub].
        by eapply elem_of_keys.
Qed.

(** The loop of [expand] over the model's skeleton, started with the
    first [o] arrays already expanded. *)
Lemma expand_loop_aligned Sl0 : ∀ Sl P model,
  aligned Sl P model →
  ∀ o done_,
    NoDup model.*1 → Forall np.wf model.*2 → length done_ = o →
    (∀ k, k ∈ model.*1 → weights.dict_get k Sl0 = weights.dict_get k Sl) →
    ∃ R, weights.expand_loop Sl0 (done_ ++ P) (named_from o model)
         = (true, done_ ++ R) ∧
         Forall2 (λ kx r, expanded_like Sl0 kx.1 r kx.2) model R.
Proof.
  induction 1 as [|Sl P k x model HkSl Hal IH|k v p x Sl P model Hp Hne Hle Hal IH];
    intros o done_ Hnd Hwf Hlen Hget.
  - exists []. by split.
  - cbn in Hnd, Hwf. apply NoDup_cons in Hnd as [Hk Hnd].
    apply Forall_cons in Hwf as [Hx Hwf].
    assert (weights.dict_get k Sl0 = None) as Hnone.
    { rewrite Hget by (apply elem_of_cons; by left). by apply dict_get_None. }
    destruct (IH (S o) (done_ ++ [np.zeros (shape x)]) Hnd Hwf) as (R & HR & HF).
    { rewrite length_app. cbn. lia. }
    { intros k' Hk'. apply Hget. apply elem_of_cons. by right. }
    exists (np.zeros (shape x) :: R). split.
    + cbn [named_from weights.expand_loop]. unfold weights.expand_step.
      cbn [fst snd weights.index weights.eshape].
      rewrite decide_False by (rewrite Hnone; by intros [? ?]).
      unfold weights.py_insert. rewrite <- Hlen, take_app_length, drop_app_length.
      rewrite <- (assoc_L (++)) in HR. cbn in HR. rewrite Hlen.
      by rewrite HR, <- (assoc_L (++)).
    + constructor; [|done]. unfold expanded_like. cbn. rewrite Hnone.
      apply zeros_spec.
  - cbn in Hnd, Hwf. apply NoDup_cons in Hnd as [Hk Hnd].
    apply Forall_cons in Hwf as [Hx Hwf].
    assert (weights.dict_get k Sl0 = Some v) as Hsome.
    { rewrite Hget by (apply elem_of_cons; by left). cbn.
      by rewrite decide_True. }
    destruct (pad_slice_spec x (weights.eshape v) Hx Hne Hle)
      as (p' & y & Hp' & Hy & Hspec).
    rewrite Hp in Hp'. injection Hp' as <-.
    destruct (IH (S o) (done_ ++ [y]) Hnd Hwf) as (R & HR & HF).
    { rewrite length_app. cbn. lia. }
    { intros k' Hk'. rewrite Hget by (apply elem_of_cons; by right). cbn.
      rewrite decide_False; [done|]. by intros ->. }
    exists (y :: R). split.
    + cbn [named_from weights.expand_loop]. unfold weights.expand_step.
      cbn [fst snd weights.index weights.eshape].
      rewrite decide_True by (rewrite Hsome; eauto).
      rewrite (list_lookup_middle done_ P p o) by done. cbn. rewrite Hy. cbn.
      rewrite insert_app_r_alt by lia.
      replace (o - length done_) with 0 by lia. cbn.
      rewrite <- (assoc_L (++)) in HR. cbn in HR.
      by rewrite HR, <- (assoc_L (++)).
    + constructor; [|done]. unfold expanded_like. cbn. by rewrite Hsome.
Qed.

End expand_partition.

Section expand_partition_law.
Context {A : Type} `{!Dtype A}.
Implicit Types (model : list (string * ndarray A)) (Sl : weights.skel).

Lemma named_from_get model k x :
  NoDup model.*1 → (k, x) ∈ model →
  ∃ i, model !! i = Some (k, x) ∧
       weights.dict_get k (named_from 0 model)
       = Some (weights.mk_entry i (shape x)).
Proof.
  intros Hnd Hin. apply list_elem_of_lookup in Hin as [i Hi]. exists i.
  split; [done|]. apply dict_get_NoDup.
  - by rewrite named_from_keys.
  - by apply (named_from_lookup 0).
Qed.

(** [partition] of the model's own tree against a sub-skeleton cuts one
    block per local name. *)
Lemma partition_sub_skeleton model Sl :
  NoDup model.*1 → sub_skeleton Sl model →
  ∃ P, weights.partition model.*2 (named_from 0 model) Sl = Some P ∧
       Forall2 (λ kv p, ∃ x, (kv.1, x) ∈ model ∧
                  np.slice_leading x (weights.eshape kv.2) = Some p) Sl P.
Proof.
  intros Hnd [Hsub Hshape].
  assert (∀ kv, kv ∈ Sl → ∃ x i, (kv.1, x) ∈ model ∧ model !! i = Some (kv.1, x) ∧
            weights.dict_get kv.1 (named_from 0 model)
            = Some (weights.mk_entry i (shape x))) as Hkeys.
  { intros [k v] Hin. cbn.
    assert (k ∈ model.*1) as Hk.
    { eapply elem_of_sublist; [|exact Hsub]. by eapply elem_of_keys. }
    apply list_elem_of_fmap in Hk as ([k' x] & -> & Hx). cbn.
    destruct (named_from_get model k' x Hnd Hx) as (i & Hi & Hg). eauto. }
  unfold weights.partition.
  rewrite filter_all.
  2:{ apply Forall_forall. intros kv Hin.
      destruct (Hkeys kv Hin) as (x & i & _ & _ & ->). eauto. }
  destruct (mapM _ Sl) as [P|] eqn:HP.
  - exists P. split; [done|]. apply mapM_Some_1 in HP.
    eapply Forall2_impl_elem; [exact HP|]. intros kv p Hin Hp.
    destruct (Hkeys kv Hin) as (x & i & Hx & Hi & Hg). cbn beta in Hp.
    rewrite Hg in Hp. cbn in Hp. rewrite list_lookup_fmap, Hi in Hp.
    cbn in Hp. eauto.
  - exfalso. apply mapM_None in HP as (j & kv & Hj & Hnone).
    assert (kv ∈ Sl) as Hin by (apply list_elem_of_lookup; eauto).
    destruct (Hkeys kv Hin) as (x & i & Hx & Hi & Hg).
    rewrite Hg in Hnone. cbn in Hnone. rewrite list_lookup_fmap, Hi in Hnone.
    cbn in Hnone. unfold np.slice_leading in Hnone.
    destruct kv as [k v]. destruct (Hshape k v x Hin Hx) as [_ Hle].
    apply Forall2_length in Hle. cbn in Hnone.
    rewrite decide_True in Hnone; [done|]. unfold np.ndim. lia.
Qed.

Lemma expand_partition_model model Sl :
  NoDup model.*1 → Forall np.wf model.*2 → sub_skeleton Sl model →
  ∃ P R, weights.partition model.*2 (weights.skeleton model) Sl = Some P ∧
         weights.expand P Sl (weights.skeleton model) = Some R ∧
         Forall2 (λ kx r, expanded_like Sl kx.1 r kx.2) model R.
Proof.
  intros Hnd Hwf Hsub. rewrite skeleton_NoDup by done.
  destruct (partition_sub_skeleton model Sl Hnd Hsub) as (P & HP & Hblocks).
  pose proof (aligned_of_blocks model Sl P Hnd Hsub Hblocks) as Hal.
  destruct (expand_loop_aligned Sl Sl P model Hal 0 [] Hnd Hwf eq_refl)
    as (R & HR & HF); [done|].
  exists P, R. split_and!; [done| |done].
  unfold weights.expand. cbn in HR. by rewrite HR.
Qed.

End expand_partition_law.

(** C2, as amended: let [G] be the tree of a model with pairwise distinct
    names and [Sg] its named skeleton, and let [Sl] be a local skeleton
    over a subset of the names, in the same relative order, whose shapes
    have at least one axis and are entrywise [<=] the model's shapes.
    Then [expand(partition(G, Sg, Sl), Sl, Sg)] returns a tree of the
    length of [G]; at the global index of every name it holds an array of
    the global shape which, for a name of [Sl], equals [G]'s array on the
    leading block of the local shape and is zero outside it, and which is
    all zeros for a name absent from [Sl]. *)
Theorem expand_partition_zero_pads {A} `{!Dtype A}
    (model : list (string * ndarray A)) (Sl : weights.skel) :
  NoDup model.*1 → Forall np.wf model.*2 → sub_skeleton Sl model →
  let G := model.*2 in
  let Sg := weights.skeleton model in
  ∃ P R, weights.partition G Sg Sl = Some P ∧
         weights.expand P Sl Sg = Some R ∧
         length R = length G ∧
         ∀ k e x, weights.dict_get k Sg = Some e → (k, x) ∈ model →
           G !! weights.index e = Some x ∧
           ∃ r, R !! weights.index e = Some r ∧
                shape r = weights.eshape e ∧ expanded_like Sl k r x.
Proof.
  intros Hnd Hwf Hsub G Sg.
  destruct (expand_partition_model model Sl Hnd Hwf Hsub) as (P & R & HP & HR & HF).
  exists P, R. split_and!; [done..| |].
  - unfold G. rewrite length_fmap. symmetry. by eapply Forall2_length.
  - intros k e x He Hx. unfold Sg in He. rewrite skeleton_NoDup in He by done.
    destruct (named_from_get model k x Hnd Hx) as (i & Hi & Hg).
    rewrite Hg in He. injection He as <-. cbn.
    split; [unfold G; by rewrite list_lookup_fmap, Hi|].
    destruct (Forall2_lookup_l _ _ _ _ _ HF Hi) as (r & Hr & Hlike).
    exists r. split_and!; [done| |done].
    unfold expanded_like in Hlike. cbn in Hlike.
    destruct (weights.dict_get k Sl); by destruct Hlike.
Qed.

(** C2 as stated fails for a shared array without axes: [partition]
    returns it, and [expand] raises on the empty pad width. *)
Lemma expand_partition_scalar_raises :
  let model := [("b"%string, mk_ndarray [] [7%Z])] in
  let Sl := [("b"%string, weights.mk_entry 0 [])] in
  weights.partition model.*2 (weights.skeleton model) Sl
    = Some [mk_ndarray [] [7%Z]] ∧
  weights.expand [mk_ndarray [] [7%Z]] Sl (weights.skeleton model) = None.
Proof. split; reflexivity. Qed.

Lemma example_local_sub_skeleton : sub_skeleton example_local example_model.
Proof.
  split.
  - cbn. apply sublist_skip, sublist_cons, sublist_skip, sublist_nil.
  - intros k v x Hv Hx. unfold example_local, example_model in *.
    repeat (apply elem_of_cons in Hv as [Hv|Hv]);
      try (by apply elem_of_nil in Hv);
      repeat (apply elem_of_cons in Hx as [Hx|Hx]);
      try (by apply elem_of_nil in Hx);
      simplify_eq; (split; [done|repeat constructor]).
Qed.

Lemma expand_partition_zero_pads_witness :
  ∃ P R, weights.partition example_model.*2 (weights.skeleton example_model)
           example_local = Some P ∧
         weights.expand P example_local (weights.skeleton example_model)
           = Some R ∧
         length R = length example_model.*2 ∧
         ∀ k e x, weights.dict_get k (weights.skeleton example_model) = Some e →
           (k, x) ∈ example_model →
           example_model.*2 !! weights.index e = Some x ∧
           ∃ r, R !! weights.index e = Some r ∧
                shape r = weights.eshape e ∧ expanded_like example_local k r x.
Proof.
  apply (expand_partition_zero_pads example_model example_local).
  - apply (bool_decide_unpack (NoDup example_model.*1)). by vm_compute.
  - repeat constructor.
  - apply example_local_sub_skeleton.
Defined.

Lemma partition_leading_blocks_witness :
  let G := example_model.*2 in
  let Sg := weights.skeleton example_model in
  let Sl := [("b"%string, weights.mk_entry 0 [5]);
             ("z"%string, weights.mk_entry 1 [3]);
             ("w"%string, weights.mk_entry 2 [1])] in
  (is_Some (weights.partition G Sg Sl) ↔ sliceable G Sg Sl) ∧
  ∀ R, weights.partition G Sg Sl = Some R →
       Forall2 (λ kv r, ∃ e x, weights.dict_get kv.1 Sg = Some e ∧
                               G !! weights.index e = Some x ∧
                               leading_block_of r x (weights.eshape kv.2))
               (shared Sg Sl) R.
Proof.
  apply partition_leading_blocks. repeat constructor.
Defined.

(** ** The Dirichlet partitioner *)

Section rounding.

Lemma round_half_even_bounds q :
  (Qfloor q ≤ main.round_half_even q ≤ Qfloor q + 1)%Z.
Proof.
  unfold main.round_half_even.
  destruct (q - inject_Z (Qfloor q) ?= 1 # 2)%Q; [destruct (Z.even _)|..]; lia.
Qed.

Lemma round_half_even_mono x y :
  (x <= y)%Q → (main.round_half_even x ≤ main.round_half_even y)%Z.
Proof.
  intros Hxy. pose proof (Qfloor_resp_le _ _ Hxy) as Hf.
  pose proof (round_half_even_bounds x) as Hx.
  pose proof (round_half_even_bounds y) as Hy.
  destruct (decide (Qfloor x = Qfloor y)) as [Heq|Hne]; [|lia].
  clear Hx Hy Hf. unfold main.round_half_even. rewrite <- Heq.
  destruct (x - inject_Z (Qfloor x) ?= 1 # 2)%Q eqn:Hcx;
    destruct (y - inject_Z (Qfloor x) ?= 1 # 2)%Q eqn:Hcy.
  all: try (destruct (Z.even (Qfloor x))); try lia; exfalso.
  all: try rewrite <- Qeq_alt in Hcx; try rewrite <- Qeq_alt in Hcy.
  all: try rewrite <- Qlt_alt in Hcx; try rewrite <- Qlt_alt in Hcy.
  all: try rewrite <- Qgt_alt in Hcx; try rewrite <- Qgt_alt in Hcy.
  all: lra.
Qed.

Lemma round_half_even_nonneg q : (0 <= q)%Q → (0 ≤ main.round_half_even q)%Z.
Proof.
  intros Hq. pose proof (round_half_even_bounds q) as Hb.
  pose proof (Qfloor_resp_le _ _ Hq) as Hf.
  change (Qfloor 0) with 0%Z in Hf. lia.
Qed.

End rounding.

Section splitting.
Context {T : Type}.
Implicit Types (ary : list T).

Lemma py_slice_app ary a b c :
  a ≤ b → b ≤ c → py_slice ary a b ++ py_slice ary b c = py_slice ary a c.
Proof.
  intros Hab Hbc. unfold py_slice.
  replace (drop b ary) with (drop (b - a) (drop a ary))
    by (rewrite drop_drop; f_equal; lia).
  rewrite take_take_drop. f_equal. lia.
Qed.

Lemma last_cons_default (x d d' : nat) l : List.last (x :: l) d = List.last (x :: l) d'.
Proof. revert x. induction l as [|y l IH]; intros x; [done|]. apply (IH y). Qed.

Lemma ascending_from_last st l : ascending_from st l → st ≤ List.last l st.
Proof.
  revert st. induction l as [|x l IH]; intros st; cbn [ascending_from]; [done|].
  intros [Hx Hl]. apply IH in Hl. destruct l as [|y l]; [done|].
  rewrite (last_cons_default y x st) in Hl.
  change (List.last (x :: y :: l) st) with (List.last (y :: l) st). lia.
Qed.

(** Consecutive slices between ascending bounds tile the slice between
    the first and the last bound. *)
Lemma slices_concat ary l : ∀ st,
  ascending_from st l →
  concat (zip_with (py_slice ary) (st :: l) l) = py_slice ary st (List.last l st).
Proof.
  induction l as [|x l IH]; intros st Hasc.
  - cbn. unfold py_slice. by rewrite Nat.sub_diag.
  - destruct Hasc as [Hx Hl].
    change (concat (zip_with (py_slice ary) (st :: x :: l) (x :: l)))
      with (py_slice ary st x ++ concat (zip_with (py_slice ary) (x :: l) l)).
    rewrite (IH x Hl).
    rewrite py_slice_app; [|done|by apply ascending_from_last].
    f_equal. destruct l as [|y l]; [done|]. exact (last_cons_default y x st l).
Qed.

Lemma ascending_from_take st l m :
  ascending_from st l → ascending_from st (take m l).
Proof.
  revert st m. induction l as [|x l IH]; intros st [|m]; cbn; try done.
  intros [Hx Hl]. split; [done|]. by apply IH.
Qed.

Lemma ascending_from_snoc st l n :
  ascending_from st l → st ≤ n → Forall (λ x, x ≤ n) l →
  ascending_from st (l ++ [n]).
Proof.
  revert st. induction l as [|x l IH]; intros st Hasc Hst Hall; cbn; [done|].
  destruct Hasc as [Hx Hl]. apply Forall_cons in Hall as [Hxn Hall].
  split; [done|]. by apply IH.
Qed.

Lemma slice_bound_nonneg n b : (0 ≤ b)%Z → main.slice_bound n b = Nat.min (Z.to_nat b) n.
Proof. intros Hb. unfold main.slice_bound. by rewrite decide_False by lia. Qed.

Lemma zip_with_py_slice_Z ary (l1 l2 : list Z) :
  zip_with (main.py_slice_Z ary) l1 l2
  = zip_with (py_slice ary) (main.slice_bound (length ary) <$> l1)
                            (main.slice_bound (length ary) <$> l2).
Proof.
  revert l2. induction l1 as [|a l1 IH]; intros [|b l2]; cbn; try done.
  by rewrite IH.
Qed.

(** [np.split] at ascending, non-negative points cuts the array into
    one more piece than there are points, and the pieces tile it. *)
Lemma np_split_spec ary (points : list Z) :
  Forall (λ b, 0 ≤ b)%Z points →
  ascending_from 0 (main.slice_bound (length ary) <$> points) →
  length (main.np_split ary points) = S (length points) ∧
  concat (main.np_split ary points) = ary.
Proof.
  intros Hnn Hasc. unfold main.np_split. cbn [tail]. split.
  - rewrite length_zip_with. cbn [length]. rewrite !length_app. cbn [length]. lia.
  - rewrite zip_with_py_slice_Z, fmap_cons, fmap_app. cbn [fmap list_fmap].
    change (main.slice_bound (length ary) 0) with 0.
    replace (main.slice_bound (length ary) (Z.of_nat (length ary)))
      with (length ary) by (rewrite slice_bound_nonneg by lia; lia).
    rewrite slices_concat.
    + rewrite last_last. unfold py_slice. cbn. rewrite Nat.sub_0_r.
      by apply take_ge.
    + apply ascending_from_snoc; [done|lia|].
      apply Forall_fmap, Forall_forall. intros b _. cbn.
      unfold main.slice_bound. case_decide; lia.
Qed.

End splitting.

Section lda_properties.
Context {G A : Type} `{!Generator G A} `{!GeneratorLaws G A}.
Implicit Types (Y : list nat) (D : list (list nat)).

Lemma elem_of_where_eq Y c i : i ∈ main.where_eq Y c ↔ Y !! i = Some c.
Proof.
  unfold main.where_eq. rewrite list_elem_of_filter, elem_of_seq. split.
  - by intros [? _].
  - intros Hi. split; [done|]. apply lookup_lt_Some in Hi. lia.
Qed.

Lemma NoDup_where_eq Y c : NoDup (main.where_eq Y c).
Proof. apply NoDup_filter, NoDup_seq. Qed.

Lemma cumsum_from_length acc p : length (main.cumsum_from acc p) = length p.
Proof. revert acc. induction p as [|x p IH]; intros acc; cbn; [done|]. by rewrite IH. Qed.

Lemma split_points_length p n : length (main.split_points p n) = length p - 1.
Proof.
  unfold main.split_points, main.drop_last.
  rewrite length_take, length_fmap. unfold main.cumsum.
  rewrite cumsum_from_length. lia.
Qed.

(** The bound that [np.split] reads off the running sum [q]. *)
Lemma bound_mono n (q1 q2 : Q) :
  (0 <= q1)%Q → (q1 <= q2)%Q →
  main.slice_bound n (main.round_half_even (q1 * inject_Z (Z.of_nat n))%Q)
  ≤ main.slice_bound n (main.round_half_even (q2 * inject_Z (Z.of_nat n))%Q).
Proof.
  intros H1 H12.
  assert (0 <= inject_Z (Z.of_nat n))%Q as Hn.
  { change 0%Q with (inject_Z 0). rewrite <- Zle_Qle. lia. }
  assert (0 <= q1 * inject_Z (Z.of_nat n))%Q as Ha by (by apply Qmult_le_0_compat).
  assert (q1 * inject_Z (Z.of_nat n) <= q2 * inject_Z (Z.of_nat n))%Q as Hb
    by (by apply Qmult_le_compat_r).
  pose proof (round_half_even_nonneg _ Ha) as Hr1.
  pose proof (round_half_even_mono _ _ Hb) as Hr.
  rewrite !slice_bound_nonneg by lia. lia.
Qed.

Lemma cumsum_from_ascending n p : ∀ acc,
  (0 <= acc)%Q → Forall (λ x, 0 <= x)%Q p →
  Forall (λ b, 0 ≤ b)%Z
    ((λ q, main.round_half_even (q * inject_Z (Z.of_nat n))%Q)
       <$> main.cumsum_from acc p) ∧
  ascending_from
    (main.slice_bound n (main.round_half_even (acc * inject_Z (Z.of_nat n))%Q))
    (main.slice_bound n <$>
       ((λ q, main.round_half_even (q * inject_Z (Z.of_nat n))%Q)
          <$> main.cumsum_from acc p)).
Proof.
  induction p as [|x p IH]; intros acc Hacc Hp; [done|].
  apply Forall_cons in Hp as [Hx Hp].
  assert (0 <= acc + x)%Q as Hax by lra.
  destruct (IH (acc + x)%Q Hax Hp) as [IH1 IH2]. cbn. split.
  - constructor; [|done]. apply round_half_even_nonneg.
    apply Qmult_le_0_compat; [done|].
    change 0%Q with (inject_Z 0). rewrite <- Zle_Qle. lia.
  - split; [|done]. apply bound_mono; [done|lra].
Qed.

Lemma ascending_from_weaken st st' l :
  st' ≤ st → ascending_from st l → ascending_from st' l.
Proof. destruct l; cbn; [done|]. intros ? [? ?]. split; [lia|done]. Qed.

Lemma split_points_spec p n :
  Forall (λ x, 0 <= x)%Q p →
  Forall (λ b, 0 ≤ b)%Z (main.split_points p n) ∧
  ascending_from 0 (main.slice_bound n <$> main.split_points p n).
Proof.
  intros Hp. unfold main.split_points, main.drop_last, main.cumsum.
  destruct (cumsum_from_ascending n p 0%Q) as [H1 H2]; [lra|done|]. split.
  - by apply Forall_take.
  - rewrite fmap_take. apply ascending_from_take.
    eapply ascending_from_weaken; [|exact H2]. lia.
Qed.

Lemma extend_from (pieces : list (list nat)) : ∀ D pre,
  length D = length pieces →
  mapM (λ id : nat * list nat, (λ l, l ++ id.2) <$> (pre ++ D) !! id.1)
       (weights.py_enumerate (length pre) pieces)
  = Some (zip_with app D pieces).
Proof.
  induction pieces as [|d pieces IH]; intros [|l D] pre Hlen; try done.
  cbn in Hlen. cbn [weights.py_enumerate mapM fst snd].
  rewrite (list_lookup_middle pre D l (length pre)) by done. cbn.
  specialize (IH D (pre ++ [l])). rewrite length_app, <- (assoc_L (++)) in IH.
  cbn in IH. replace (length pre + 1) with (S (length pre)) in IH by lia.
  rewrite IH by lia. done.
Qed.

Lemma extend_spec D (pieces : list (list nat)) :
  length D = length pieces →
  main.extend D pieces = Some (zip_with app D pieces).
Proof. intros Hlen. by apply (extend_from pieces D []). Qed.

Lemma concat_zip_with_app D (pieces : list (list nat)) :
  length D = length pieces →
  concat (zip_with app D pieces) ≡ₚ concat D ++ concat pieces.
Proof.
  revert pieces. induction D as [|l D IH]; intros [|d pieces] Hlen; try done.
  cbn in *. rewrite IH by lia. rewrite <- !(assoc_L (++)).
  f_equiv. rewrite !(assoc_L (++)). f_equiv. apply Permutation_app_comm.
Qed.

End lda_properties.

Section concat_lemmas.
Context {T : Type}.

Lemma elem_of_concat (x : T) (D : list (list T)) :
  x ∈ concat D ↔ ∃ j d, D !! j = Some d ∧ x ∈ d.
Proof.
  induction D as [|d D IH]; cbn.
  - split; [by intros ?%elem_of_nil|]. by intros (j & d & ? & _).
  - rewrite elem_of_app, IH. split.
    + intros [Hx|(j & d' & Hj & Hx)]; [by exists 0, d|by exists (S j), d'].
    + intros ([|j] & d' & Hj & Hx); cbn in Hj; [left; congruence|right; eauto].
Qed.

Lemma NoDup_concat_disjoint (D : list (list T)) j1 j2 d1 d2 x :
  NoDup (concat D) → j1 ≠ j2 →
  D !! j1 = Some d1 → D !! j2 = Some d2 → x ∈ d1 → x ∉ d2.
Proof.
  revert j1 j2. induction D as [|d D IH]; intros j1 j2 Hnd Hne H1 H2 Hx1 Hx2;
    [done|].
  cbn in Hnd. apply NoDup_app in Hnd as (Hd & Hdisj & HD).
  destruct j1 as [|j1], j2 as [|j2]; cbn in H1, H2; try done.
  - injection H1 as ->. apply (Hdisj x Hx1). apply elem_of_concat. eauto.
  - injection H2 as ->. apply (Hdisj x Hx2). apply elem_of_concat. eauto.
  - apply (IH j1 j2); auto.
Qed.

Lemma concat_replicate_nil k : concat (replicate k (@nil T)) = [].
Proof. induction k as [|k IH]; [done|]. done. Qed.

End concat_lemmas.

Section lda_loop.
Context {G A : Type} `{!Generator G A} `{!GeneratorLaws G A}.
Implicit Types (Y : list nat) (D : list (list nat)).

Lemma elem_of_classes_below Y c i :
  i ∈ concat (main.where_eq Y <$> seq 0 c) ↔ ∃ c', c' < c ∧ Y !! i = Some c'.
Proof.
  induction c as [|c IH].
  - cbn. split; [by intros ?%elem_of_nil|]. intros (c' & ? & _). lia.
  - rewrite seq_S, fmap_app, concat_app, elem_of_app, IH. cbn.
    rewrite app_nil_r, elem_of_where_eq. split.
    + intros [(c' & Hc' & Hi)|Hi]; [exists c'|exists c]; split; (done || lia).
    + intros (c' & Hc' & Hi). destruct (decide (c' = c)) as [->|]; [by right|].
      left. exists c'. split; [lia|done].
Qed.

Lemma NoDup_classes_below Y c : NoDup (concat (main.where_eq Y <$> seq 0 c)).
Proof.
  induction c as [|c IH]; [apply NoDup_nil_2|].
  rewrite seq_S, fmap_app, concat_app. cbn. rewrite app_nil_r.
  apply NoDup_app. split_and!; [done| |apply NoDup_where_eq].
  intros i Hi Hc. apply elem_of_classes_below in Hi as (c' & Hc' & Hi).
  apply elem_of_where_eq in Hc. rewrite Hi in Hc. injection Hc as ->. lia.
Qed.

Lemma lda_class_step Y props k D g c p :
  1 ≤ k → length D = k → props !! c = Some p → length p = k →
  Forall (λ x, 0 <= x)%Q p →
  ∃ D' g', main.lda_class Y props (Some D, g) c = (Some D', g') ∧
           length D' = k ∧ concat D' ≡ₚ concat D ++ main.where_eq Y c.
Proof.
  intros Hk HD Hp Hlen Hnn. unfold main.lda_class.
  pose proof (rng_shuffle_perm g (main.where_eq Y c)) as Hperm.
  destruct (rng_shuffle g (main.where_eq Y c)) as [idx_c g'].
  cbn in Hperm. rewrite Hp.
  destruct (split_points_spec p (length idx_c) Hnn) as [Hpts Hasc].
  destruct (np_split_spec idx_c _ Hpts Hasc) as [Hn Hcat].
  rewrite split_points_length in Hn.
  rewrite extend_spec by lia. eexists _, g'. split_and!; [done| |].
  - rewrite length_zip_with. lia.
  - rewrite concat_zip_with_app by lia. by rewrite Hcat, Hperm.
Qed.

Lemma lda_loop_spec Y props k g0 :
  1 ≤ k →
  Forall (λ row, length row = k ∧ Forall (λ x, 0 <= x)%Q row) props →
  ∀ c, c ≤ length props →
    ∃ D g, foldl (main.lda_class Y props) (Some (replicate k []), g0) (seq 0 c)
           = (Some D, g) ∧
           length D = k ∧ concat D ≡ₚ concat (main.where_eq Y <$> seq 0 c).
Proof.
  intros Hk Hprops. induction c as [|c IH]; intros Hc.
  - exists (replicate k []), g0. split_and!; [done|apply length_replicate|].
    by rewrite concat_replicate_nil.
  - destruct IH as (D & g & Hfold & HD & Hperm); [lia|].
    destruct (lookup_lt_is_Some_2 props c) as [p Hp]; [lia|].
    rewrite Forall_lookup in Hprops. destruct (Hprops c p Hp) as [Hlen Hnn].
    destruct (lda_class_step Y props k D g c p Hk HD Hp Hlen Hnn)
      as (D' & g' & Hstep & HD' & Hperm').
    exists D', g'. rewrite seq_S, foldl_app, Hfold. cbn [foldl].
    split_and!; [done..|].
    rewrite fmap_app, concat_app. cbn. by rewrite app_nil_r, Hperm', Hperm.
Qed.

(** C6: for every label vector [Y], client count [k >= 1], class count
    [C], generator and [alpha > 0], [lda] returns exactly [k] index
    lists; for every class [c < C] the indices with label [c] that occur
    in some client's list are exactly the positions of [Y] holding [c];
    and no index occurs in the lists of two different clients. *)
Theorem lda_covers_every_class Y (k C : nat) (rng : G) (alpha : Q) :
  1 ≤ k → (0 < alpha)%Q →
  ∃ D, (main.lda Y k C rng alpha).1 = Some D ∧
       length D = k ∧
       (∀ c i, c < C →
          (∃ j d, D !! j = Some d ∧ i ∈ d ∧ Y !! i = Some c) ↔ Y !! i = Some c) ∧
       (∀ j1 j2 d1 d2 i, j1 ≠ j2 →
          D !! j1 = Some d1 → D !! j2 = Some d2 → i ∈ d1 → i ∉ d2).
Proof.
  intros Hk Halpha. unfold main.lda.
  destruct (rng_dirichlet_rows rng (replicate k alpha) C) as [Hrows Hrow].
  { destruct k; [lia|done]. }
  { apply Forall_replicate. done. }
  destruct (rng_dirichlet rng (replicate k alpha) C) as [props g].
  cbn in Hrows, Hrow. rewrite length_replicate in Hrow.
  destruct (lda_loop_spec Y props k g Hk Hrow C) as (D & g' & Hfold & HD & Hperm);
    [lia|].
  rewrite Hfold. exists D. split_and!; [done..| |].
  - intros c i Hc. split; [by intros (j & d & _ & _ & Hi)|].
    intros Hi. assert (i ∈ concat D) as Hin.
    { rewrite Hperm. apply elem_of_classes_below. eauto. }
    apply elem_of_concat in Hin as (j & d & Hj & Hd). eauto.
  - intros j1 j2 d1 d2 i. apply NoDup_concat_disjoint.
    rewrite Hperm. apply NoDup_classes_below.
Qed.

End lda_loop.

(** ** DataIter *)

Section dataiter.
Context {Row : Type} {G A : Type} `{!Generator G A} `{!GeneratorLaws G A}.
Implicit Types (it : datasets.DataIter (Row:=Row)).

Lemma DataIter_init_inv X y b classes rng :
  DataIter_inv (datasets.DataIter_init (Row:=Row) X y b classes rng).
Proof.
  split; [|done]. cbn. destruct b as [b|]; cbn; lia.
Qed.

Lemma DataIter_map_inv it f : DataIter_inv (datasets.DataIter_map it f).
Proof.
  unfold datasets.DataIter_map. destruct (f _ _) as [X' y'].
  split; [|done]. cbn. lia.
Qed.

Lemma DataIter_filter_inv it f it' :
  datasets.DataIter_filter it f = Some it' → DataIter_inv it'.
Proof.
  unfold datasets.DataIter_filter. intros H.
  destruct (datasets.mask_rows (datasets.X it) _) as [X'|]; [|done].
  destruct (datasets.mask_rows (datasets.y it) _) as [y'|]; [|done].
  cbn in H. injection H as <-. split; [|done]. cbn. lia.
Qed.

Lemma apply_transforms_inv ts : ∀ it it',
  DataIter_inv it → datasets.apply_transforms it ts = Some it' → DataIter_inv it'.
Proof.
  induction ts as [|t ts IH]; intros it it' Hinv H; cbn in H.
  - by injection H as <-.
  - destruct (datasets.apply_transform it t) as [it1|] eqn:Ht; [|done].
    cbn in H. apply (IH it1 it'); [|done].
    destruct t as [f|f]; cbn in Ht.
    + injection Ht as <-. apply DataIter_map_inv.
    + by eapply DataIter_filter_inv.
Qed.

(** Under the invariant the draw of [__next__] is within what
    [rng.choice] can deliver, and what it delivers are distinct held
    indices. *)
Lemma DataIter_draw it (σ : weights.rng_ref → G) :
  DataIter_inv it →
  datasets.batch_size it ≤ length (datasets.idx it) ∧
  ∃ ix g, rng_choice (σ (datasets.rng it)) (datasets.idx it)
                     (datasets.batch_size it) = Some (ix, g) ∧
          length ix = datasets.batch_size it ∧ NoDup ix ∧
          Forall (λ i, i < length (datasets.y it)) ix.
Proof.
  intros [Hb Hidx]. rewrite Hidx, length_seq. split; [done|].
  destruct (rng_choice_some (σ (datasets.rng it)) (seq 0 (length (datasets.y it)))
              (datasets.batch_size it)) as (ix & g & Hc & Hlen & rest & Hperm).
  { by rewrite length_seq. }
  exists ix, g. split_and!; [done..| |].
  - assert (NoDup (ix ++ rest)) as Hnd by (rewrite Hperm; apply NoDup_seq).
    by apply NoDup_app in Hnd as [? _].
  - apply Forall_forall. intros i Hi.
    assert (i ∈ seq 0 (length (datasets.y it))) as Hin.
    { rewrite <- Hperm. apply elem_of_app. by left. }
    apply elem_of_seq in Hin. lia.
Qed.

Lemma take_rows_is_Some {T} (a : list T) ix :
  Forall (λ i, i < length a) ix → is_Some (datasets.take_rows a ix).
Proof.
  intros H. unfold datasets.take_rows. apply mapM_is_Some.
  eapply Forall_impl; [exact H|]. intros i Hi. cbn.
  by apply lookup_lt_is_Some.
Qed.

Lemma take_rows_lookup {T} (a : list T) ix r :
  datasets.take_rows a ix = Some r →
  length r = length ix ∧ ∀ j i, ix !! j = Some i → r !! j = a !! i.
Proof.
  unfold datasets.take_rows. intros H. split.
  - symmetry. by eapply length_mapM.
  - intros j i Hj. apply mapM_Some_1 in H.
    destruct (Forall2_lookup_l _ _ _ _ _ H Hj) as (x & Hx & Hi). congruence.
Qed.

Lemma DataIter_next_spec it σ :
  DataIter_inv it → length (datasets.X it) = length (datasets.y it) →
  ∃ b σ', datasets.DataIter_next it σ = Some (b, σ') ∧ is_batch it b.
Proof.
  intros Hinv HX.
  destruct (DataIter_draw it σ Hinv) as (_ & ix & g & Hc & Hlen & Hnd & Hlt).
  destruct (take_rows_is_Some (datasets.X it) ix) as [bX HbX]; [by rewrite HX|].
  destruct (take_rows_is_Some (datasets.y it) ix) as [by_ Hby]; [done|].
  eexists (bX, by_), _.
  unfold datasets.DataIter_next. rewrite Hc. cbn. rewrite HbX. cbn.
  rewrite Hby. cbn. split; [done|].
  destruct (take_rows_lookup _ _ _ HbX) as [HlX HrX].
  destruct (take_rows_lookup _ _ _ Hby) as [Hly Hry].
  split_and!; [cbn; congruence..|]. exists ix. split_and!; [done..|].
  intros j i Hj. cbn. by rewrite (HrX j i Hj), (Hry j i Hj).
Qed.

Lemma DataIter_next_n_spec it n : ∀ σ,
  DataIter_inv it → length (datasets.X it) = length (datasets.y it) →
  ∃ bs σ', datasets.DataIter_next_n n it σ = Some (bs, σ') ∧
           length bs = n ∧ Forall (is_batch it) bs.
Proof.
  induction n as [|n IH]; intros σ Hinv HX.
  - exists [], σ. by split_and!.
  - destruct (DataIter_next_spec it σ Hinv HX) as (b & σ1 & Hb & Hbatch).
    destruct (IH σ1 Hinv HX) as (bs & σ2 & Hbs & Hlen & Hall).
    exists (b :: bs), σ2. cbn. rewrite Hb. cbn. rewrite Hbs. cbn.
    split_and!; [done|by rewrite Hlen|by constructor].
Qed.

(** C7: a [DataIter] constructed with requested batch size [b] over [n]
    samples has [batch_size = min(b, n)] (and [n] when no batch size is
    requested); any number of successive calls of [next] all return, and
    each returns the [X] and [y] rows of [batch_size] distinct indices of
    the held range. *)
Theorem DataIter_next_never_stops (X : list Row) (y : list nat)
    (b : option nat) (classes : nat) (rng : weights.rng_ref) :
  length X = length y →
  let it := datasets.DataIter_init X y b classes rng in
  datasets.batch_size it
    = match b with Some b => Nat.min b (length y) | None => length y end ∧
  ∀ (m : nat) (σ : weights.rng_ref → G),
    ∃ bs σ', datasets.DataIter_next_n m it σ = Some (bs, σ') ∧
             length bs = m ∧ Forall (is_batch it) bs.
Proof.
  intros HX it. split; [by destruct b|].
  intros m σ. apply DataIter_next_n_spec; [apply DataIter_init_inv|done].
Qed.

(** C10: the invariant [batch_size <= number of held labels] and [idx =
    full index range] holds after construction, is established by every
    [map] and every completed [filter] call, and so holds after any
    sequence of such calls; under it the draw of [__next__] never
    requests more distinct indices than are held, and [rng.choice]
    delivers them. *)
Theorem DataIter_invariant_preserved (X : list Row) (y : list nat)
    (b : option nat) (classes : nat) (rng : weights.rng_ref)
    (ts : list datasets.transform) it :
  datasets.apply_transforms (datasets.DataIter_init X y b classes rng) ts
    = Some it →
  DataIter_inv (datasets.DataIter_init X y b classes rng) ∧
  (∀ it0 f, DataIter_inv (datasets.DataIter_map it0 f)) ∧
  (∀ it0 f it1, datasets.DataIter_filter it0 f = Some it1 → DataIter_inv it1) ∧
  DataIter_inv it ∧
  ∀ σ : weights.rng_ref → G,
    datasets.batch_size it ≤ length (datasets.idx it) ∧
    ∃ ix g, rng_choice (σ (datasets.rng it)) (datasets.idx it)
                       (datasets.batch_size it) = Some (ix, g) ∧
            length ix = datasets.batch_size it ∧ NoDup ix ∧
            Forall (λ i, i < length (datasets.y it)) ix.
Proof.
  intros Hts.
  assert (DataIter_inv it) as Hinv.
  { eapply apply_transforms_inv; [apply DataIter_init_inv|exact Hts]. }
  split_and!; [apply DataIter_init_inv|apply DataIter_map_inv|
               apply DataIter_filter_inv|done|].
  intros σ. by apply DataIter_draw.
Qed.

End dataiter.

(** ** Generators *)

Section generators.
Context {Row : Type} {A G : Type} `{!Dtype A} `{!Generator G A}.

Lemma uniform_draws_only_from (w : weights.tree A) lo hi r :
  draws_only_from (G:=G) r (weights.uniform w lo hi (Some r)).
Proof.
  intros σ1 σ2 Hr. unfold weights.uniform. cbn. rewrite <- Hr.
  destruct (weights.uniform_from (σ1 r) w lo hi) as [t g]. cbn.
  split_and!; [done|by rewrite !fn_lookup_insert|].
  intros r' Hne. by rewrite fn_lookup_insert_ne.
Qed.

Lemma add_normal_draws_only_from (w : weights.tree A) loc scale r :
  draws_only_from (G:=G) r (weights.add_normal w loc scale (Some r)).
Proof.
  intros σ1 σ2 Hr. unfold weights.add_normal. cbn. rewrite <- Hr.
  destruct (weights.add_normal_from (σ1 r) w loc scale) as [t g]. cbn.
  split_and!; [done|by rewrite !fn_lookup_insert|].
  intros r' Hne. by rewrite fn_lookup_insert_ne.
Qed.

Lemma get_iter_rng (ds : datasets.Dataset (Row:=Row)) split b idx f m rng it :
  datasets.get_iter ds split b idx f m rng = Some it →
  datasets.rng it = weights.resolve weights.site_get_iter rng.
Proof.
  unfold datasets.get_iter. intros H.
  destruct (if decide _ then _ else _) as [[X0 y0]|]; [|done]. cbn in H.
  destruct (match idx with Some _ => _ | None => _ end) as [[X1 y1]|]; [|done].
  cbn in H.
  destruct (match f with Some _ => _ | None => _ end) as [[X2 y2]|]; [|done].
  cbn in H. destruct (match m with Some _ => _ | None => _ end) as [X3 y3].
  by injection H as <-.
Qed.

Lemma fed_split_draws_only_from (ds : datasets.Dataset (Row:=Row)) bs mapping r :
  draws_only_from (G:=G) r (datasets.fed_split ds bs mapping (Some r)).
Proof.
  intros σ1 σ2 Hr. unfold datasets.fed_split. cbn.
  destruct mapping as [m|]; [|done].
  destruct (datasets.train ds) as [[X0 y0]|]; [|done]. rewrite <- Hr.
  destruct (m X0 y0 _ _ (σ1 r)) as [d g]. cbn.
  split_and!; [done|by rewrite !fn_lookup_insert|].
  intros r' Hne. by rewrite fn_lookup_insert_ne.
Qed.

Lemma fed_split_rng (ds : datasets.Dataset (Row:=Row)) bs mapping rng
    (σ : weights.rng_ref → G) its :
  (datasets.fed_split ds bs mapping rng σ).1 = Some its →
  Forall (λ it, datasets.rng it = weights.resolve weights.site_fed_split rng) its.
Proof.
  unfold datasets.fed_split. intros H.
  assert (∀ {T} (f : T → option datasets.DataIter) l,
            (∀ x it, f x = Some it →
               datasets.rng it = weights.resolve weights.site_fed_split rng) →
            mapM f l = Some its →
            Forall (λ it, datasets.rng it
                          = weights.resolve weights.site_fed_split rng) its)
    as Hall.
  { intros T f l Hf Hm. apply mapM_Some_1 in Hm.
    apply Forall_forall. intros it Hit.
    apply list_elem_of_lookup in Hit as [i Hi].
    destruct (Forall2_lookup_r _ _ _ _ _ Hm Hi) as (x & _ & Hx).
    by apply (Hf x). }
  destruct mapping as [m|].
  - destruct (datasets.train ds) as [[X0 y0]|]; [|done].
    destruct (m X0 y0 _ _ _) as [[d|] g]; [|done]. cbn in H.
    eapply Hall; [|exact H]. intros bd it Hit. by apply get_iter_rng in Hit.
  - cbn in H. eapply Hall; [|exact H]. intros b it Hit.
    by apply get_iter_rng in Hit.
Qed.

End generators.

(** C8, as amended: when the caller supplies a generator, every
    randomized operation uses that generator and no other.  [uniform],
    [add_normal] and [fed_split] return a result determined by their
    inputs and the state of the supplied generator, advance only that
    generator and leave every other generator, the default ones
    included, as it was; [get_iter] draws nothing and stores the supplied
    generator in the iterator, as [fed_split] does for every iterator it
    builds.  Two runs that start from equal states of the supplied
    generator with equal inputs therefore produce identical outputs. *)
Theorem supplied_generator_is_only_source {Row A G : Type}
    `{!Dtype A} `{!Generator G A}
    (w : weights.tree A) (lo hi loc scale : A)
    (ds : datasets.Dataset (Row:=Row)) (bs : list (option nat))
    (mapping : option (list Row → list nat → nat → nat → G →
                       option (list (list nat)) * G))
    (r : weights.rng_ref) :
  draws_only_from (G:=G) r (weights.uniform w lo hi (Some r)) ∧
  draws_only_from (G:=G) r (weights.add_normal w loc scale (Some r)) ∧
  draws_only_from (G:=G) r (datasets.fed_split ds bs mapping (Some r)) ∧
  (∀ (σ : weights.rng_ref → G) its,
     (datasets.fed_split ds bs mapping (Some r) σ).1 = Some its →
     Forall (λ it, datasets.rng it = r) its) ∧
  (∀ split b idx f m it,
     datasets.get_iter ds split b idx f m (Some r) = Some it →
     datasets.rng it = r).
Proof.
  split_and!.
  - apply uniform_draws_only_from.
  - apply add_normal_draws_only_from.
  - apply fed_split_draws_only_from.
  - intros σ its H. by apply fed_split_rng in H.
  - intros split b idx f m it H. by apply get_iter_rng in H.
Qed.

(** C8 as stated fails when the caller leaves [rng] out: two calls of
    [uniform] with equal inputs return different trees, although no
    generator of any caller has changed in between; both drew from the
    default generator of [uniform], which the first call advanced. *)
Lemma omitted_rng_draws_from_shared_default :
  let w := [mk_ndarray [2] [0; 0]%Z] in
  let σ0 : weights.rng_ref → nat := λ _, 0 in
  let first := weights.uniform w 0%Z 1%Z None σ0 in
  let second := weights.uniform w 0%Z 1%Z None first.2 in
  first.1 ≠ second.1 ∧
  (∀ n, second.2 (weights.caller_rng n) = σ0 (weights.caller_rng n)) ∧
  first.2 (weights.default_rng weights.site_uniform)
    ≠ σ0 (weights.default_rng weights.site_uniform).
Proof. cbn. split_and!; [discriminate|done|discriminate]. Qed.

(** ** Objects: what the functions allocate and what they assign *)

Section heap_basics.
Context {A : Type} `{!Dtype A}.
Implicit Types (h : objects.heap A) (o : objects.array_obj)
  (t : list (ndarray A)).

Lemma unchanged_refl h : unchanged h h.
Proof. by split_and!. Qed.

Lemma unchanged_trans h1 h2 h3 :
  unchanged h1 h2 → unchanged h2 h3 → unchanged h1 h3.
Proof. intros (? & ? & ?) (? & ? & ?). split_and!; by etrans. Qed.

Lemma read_array_unchanged h h' a x :
  unchanged h h' → objects.read_array h a = Some x →
  objects.read_array h' a = Some x.
Proof.
  intros (Hb & Ha & _). unfold objects.read_array, objects.read_obj. intros H.
  destruct (objects.arrays h !! a) as [o|] eqn:Ho; [|done]. cbn in H.
  rewrite (lookup_weaken _ _ _ _ Ho Ha). cbn.
  destruct (objects.buffers h !! objects.base o) as [buf|] eqn:Hbuf; [|done].
  by rewrite (lookup_weaken _ _ _ _ Hbuf Hb).
Qed.

Lemma mapM_read_unchanged h h' ls t :
  unchanged h h' → mapM (objects.read_array h) ls = Some t →
  mapM (objects.read_array h') ls = Some t.
Proof.
  intros Hun H. apply mapM_Some. apply mapM_Some_1 in H.
  eapply Forall2_impl; [exact H|]. intros a x. by apply read_array_unchanged.
Qed.

Lemma read_tree_unchanged h h' l t :
  unchanged h h' → objects.read_tree h l = Some t →
  objects.read_tree h' l = Some t.
Proof.
  intros Hun. unfold objects.read_tree. intros H.
  destruct (objects.lists h !! l) as [ls|] eqn:Hl; [|done]. cbn in H.
  destruct Hun as (Hb & Ha & Hls).
  rewrite (lookup_weaken _ _ _ _ Hl Hls). cbn.
  eapply mapM_read_unchanged; [|done]. by split_and!.
Qed.

Lemma mapM_lookup_seq {X} (d : list X) :
  mapM (λ i, d !! i) (seq 0 (length d)) = Some d.
Proof.
  apply mapM_Some. apply Forall2_same_length_lookup.
  split; [by rewrite length_seq|]. intros i j x Hj Hx.
  apply lookup_seq in Hj as [-> _]. done.
Qed.

Lemma mapM_Some_fmap {X Y} (f : X → option Y) (l : list X) (k : list Y) :
  mapM f l = Some k ↔ f <$> l = Some <$> k.
Proof.
  revert k. induction l as [|x l IH]; intros k; cbn.
  - split; [by intros [= <-]|]. by destruct k.
  - destruct (f x) as [y|] eqn:Hf; cbn.
    + destruct (mapM f l) as [k'|] eqn:Hm; cbn.
      * split.
        -- intros [= <-]. cbn. f_equal. by apply IH.
        -- destruct k as [|y' k]; [done|]. cbn. intros [= -> Hk].
           apply IH in Hk. by injection Hk as ->.
      * split; [done|]. destruct k as [|y' k]; [done|]. cbn. intros [= -> Hk].
        apply IH in Hk. done.
    + split; [done|]. by destruct k.
Qed.

Lemma new_array_spec h (x : ndarray A) :
  unchanged h (objects.new_array x h).2 ∧
  objects.lists (objects.new_array x h).2 = objects.lists h ∧
  ∃ a o, (objects.new_array x h).1 = Some a ∧
         objects.arrays h !! a = None ∧
         objects.arrays (objects.new_array x h).2 !! a = Some o ∧
         in_new_buffer h o ∧ objects.oshape o = shape x ∧
         objects.read_array (objects.new_array x h).2 a = Some x.
Proof.
  unfold objects.new_array. cbn.
  set (b := fresh (dom (objects.buffers h))).
  set (a := fresh (dom (objects.arrays h))).
  assert (objects.buffers h !! b = None) as Hb
    by (apply not_elem_of_dom, is_fresh).
  assert (objects.arrays h !! a = None) as Ha
    by (apply not_elem_of_dom, is_fresh).
  split_and!.
  - split_and!; cbn; [by apply insert_subseteq..|done].
  - done.
  - eexists a, _. split_and!; [done|done|apply lookup_insert_eq|done|done|].
    unfold objects.read_array, objects.read_obj. cbn.
    rewrite lookup_insert_eq. cbn. rewrite lookup_insert_eq. cbn.
    rewrite mapM_lookup_seq. cbn. by destruct x.
Qed.

Lemma new_view_spec h o (s offs : list nat) buf (d : list A) :
  objects.buffers h !! objects.base o = Some buf →
  mapM (λ i, buf !! i) offs = Some d →
  unchanged h (objects.new_view o s offs h).2 ∧
  objects.lists (objects.new_view o s offs h).2 = objects.lists h ∧
  ∃ a, (objects.new_view o s offs h).1 = Some a ∧
       objects.arrays h !! a = None ∧
       objects.arrays (objects.new_view o s offs h).2 !! a
       = Some (objects.mk_array_obj (objects.base o) s offs) ∧
       objects.read_array (objects.new_view o s offs h).2 a
       = Some (mk_ndarray s d).
Proof.
  intros Hbuf Hd. unfold objects.new_view. cbn.
  set (a := fresh (dom (objects.arrays h))).
  assert (objects.arrays h !! a = None) as Ha
    by (apply not_elem_of_dom, is_fresh).
  split_and!.
  - split_and!; cbn; [done|by apply insert_subseteq|done].
  - done.
  - exists a. split_and!; [done|done|apply lookup_insert_eq|].
    unfold objects.read_array, objects.read_obj. cbn.
    rewrite lookup_insert_eq. cbn. rewrite Hbuf. cbn. by rewrite Hd.
Qed.

Lemma new_list_spec h (ls : list positive) :
  unchanged h (objects.new_list ls h).2 ∧
  objects.arrays (objects.new_list ls h).2 = objects.arrays h ∧
  objects.buffers (objects.new_list ls h).2 = objects.buffers h ∧
  ∃ l, (objects.new_list ls h).1 = Some l ∧
       objects.lists h !! l = None ∧
       objects.lists (objects.new_list ls h).2 !! l = Some ls.
Proof.
  unfold objects.new_list. cbn.
  set (l := fresh (dom (objects.lists h))).
  assert (objects.lists h !! l = None) as Hl
    by (apply not_elem_of_dom, is_fresh).
  split_and!; [|done|done|].
  - split_and!; cbn; [done|done|by apply insert_subseteq].
  - exists l. split_and!; [done|done|apply lookup_insert_eq].
Qed.

(** A list comprehension whose body builds one array per item. *)
Lemma for_each_from_builds {S X V} (f : S → X → objects.M A (positive * S))
    (p : S → V → option (ndarray A * S)) (rel : X → V → Prop)
    (Q : objects.array_obj → Prop) h :
  (∀ s x v h0, rel x v → unchanged h h0 →
     unchanged h0 (f s x h0).2 ∧
     match p s v with
     | Some ys =>
         ∃ a o, (f s x h0).1 = Some (a, ys.2) ∧
                objects.arrays h0 !! a = None ∧
                objects.arrays (f s x h0).2 !! a = Some o ∧ Q o ∧
                objects.read_array (f s x h0).2 a = Some ys.1
     | None => (f s x h0).1 = None
     end) →
  ∀ l vs, Forall2 rel l vs →
  ∀ s h0, unchanged h h0 →
    builds_arrays h0 Q (mapM_from p s vs) (objects.for_each_from f s l h0).
Proof.
  intros Hf l vs Hrel. induction Hrel as [|x v l vs Hxv _ IH]; intros s h0 Hun.
  { split; [apply unchanged_refl|]. exists []. cbn. split_and!; [done|constructor|constructor|done]. }
  cbn [objects.for_each_from mapM_from]. unfold objects.bind at 1.
  destruct (Hf s x v h0 Hxv Hun) as [Hun1 Hres].
  destruct (f s x h0) as [r h1] eqn:Hfx. cbn in Hun1, Hres.
  destruct (p s v) as [[y s']|]; cbn [mbind option_bind]; cbn in Hres.
  2:{ subst r. by split. }
  destruct Hres as (a & o & -> & Hfresh & Ho & HQ & Hread). cbn [fst snd].
  destruct (IH s' h1 (unchanged_trans _ _ _ Hun Hun1)) as [Hun2 Hrest].
  unfold objects.bind.
  destruct (objects.for_each_from f s' l h1) as [r2 h2]. cbn in Hun2, Hrest.
  destruct (mapM_from p s' vs) as [ys|]; cbn [mbind option_bind].
  2:{ subst r2. split; [by eapply unchanged_trans|done]. }
  destruct Hrest as (ls & -> & Hnd & Hall & Hreads). cbn.
  split; [by eapply unchanged_trans|].
  exists (a :: ls). split_and!; [done| | |].
  - constructor; [|done]. intros Hin. rewrite Forall_forall in Hall.
    destruct (Hall a Hin) as [Hnone _]. congruence.
  - constructor.
    + split; [done|]. exists o. split; [|done].
      destruct Hun2 as (_ & Ha2 & _). by eapply lookup_weaken.
    + eapply Forall_impl; [exact Hall|]. intros a' [Hnone Ho']. split; [|done].
      destruct Hun1 as (_ & Ha1 & _). by eapply lookup_weaken_None.
  - apply mapM_Some. constructor; [by eapply read_array_unchanged|].
    by apply mapM_Some_1.
Qed.

End heap_basics.

Section heap_loops.
Context {A : Type} `{!Dtype A}.
Implicit Types (h : objects.heap A) (o : objects.array_obj)
  (t : list (ndarray A)).

Lemma for_each_builds {X V} (f : X → objects.M A positive)
    (p : V → option (ndarray A)) (rel : X → V → Prop)
    (Q : objects.array_obj → Prop) h :
  (∀ x v h0, rel x v → unchanged h h0 →
     unchanged h0 (f x h0).2 ∧
     match p v with
     | Some y =>
         ∃ a o, (f x h0).1 = Some a ∧
                objects.arrays h0 !! a = None ∧
                objects.arrays (f x h0).2 !! a = Some o ∧ Q o ∧
                objects.read_array (f x h0).2 a = Some y
     | None => (f x h0).1 = None
     end) →
  ∀ l vs, Forall2 rel l vs →
  ∀ h0, unchanged h h0 →
    builds_arrays h0 Q (mapM p vs) (objects.for_each f l h0).
Proof.
  intros Hf l vs Hrel. induction Hrel as [|x v l vs Hxv _ IH]; intros h0 Hun.
  { split; [apply unchanged_refl|]. exists []. cbn.
    split_and!; [done|constructor|constructor|done]. }
  cbn [objects.for_each mapM]. unfold objects.bind at 1.
  destruct (Hf x v h0 Hxv Hun) as [Hun1 Hres].
  destruct (f x h0) as [r h1] eqn:Hfx. cbn in Hun1, Hres.
  destruct (p v) as [y|]; cbn [mbind option_bind]; cbn in Hres.
  2:{ subst r. by split. }
  destruct Hres as (a & o & -> & Hfresh & Ho & HQ & Hread).
  destruct (IH h1 (unchanged_trans _ _ _ Hun Hun1)) as [Hun2 Hrest].
  unfold objects.bind.
  destruct (objects.for_each f l h1) as [r2 h2]. cbn in Hun2, Hrest.
  destruct (mapM p vs) as [ys|]; cbn [mbind option_bind].
  2:{ subst r2. split; [by eapply unchanged_trans|done]. }
  destruct Hrest as (ls & -> & Hnd & Hall & Hreads). cbn.
  split; [by eapply unchanged_trans|].
  exists (a :: ls). split_and!; [done| | |].
  - constructor; [|done]. intros Hin. rewrite Forall_forall in Hall.
    destruct (Hall a Hin) as [Hnone _]. congruence.
  - constructor.
    + split; [done|]. exists o. split; [|done].
      destruct Hun2 as (_ & Ha2 & _). by eapply lookup_weaken.
    + eapply Forall_impl; [exact Hall|]. intros a' [Hnone Ho']. split; [|done].
      destruct Hun1 as (_ & Ha1 & _). by eapply lookup_weaken_None.
  - apply mapM_Some. constructor; [by eapply read_array_unchanged|].
    by apply mapM_Some_1.
Qed.

(** A loop that only reads. *)
Lemma for_each_read {X R} (g : objects.heap A → X → option R) (l : list X) h :
  objects.for_each (λ x h0, (g h0 x, h0)) l h = (mapM (g h) l, h).
Proof.
  induction l as [|x l IH]; [done|].
  cbn [objects.for_each mapM]. unfold objects.bind at 1.
  destruct (g h x) as [r|]; [|done]. cbn.
  unfold objects.bind. rewrite IH. by destruct (mapM (g h) l).
Qed.

(** The arrays that a comprehension built, put into a new list. *)
Lemma new_list_returns h Q xs (res : option (list positive) * objects.heap A) :
  builds_arrays h Q xs res →
  returns_new_tree h Q xs
    (match res with
     | (Some ls, h1) => objects.new_list ls h1
     | (None, h1) => (None, h1)
     end).
Proof.
  destruct res as [r h1]. intros [Hun Hres]. cbn in Hun, Hres.
  destruct xs as [xs|].
  - destruct Hres as (ls & -> & Hnd & Hall & Hreads).
    destruct (new_list_spec h1 ls) as (Hun2 & Harr & Hbuf & l & Hl & Hfresh & Hls).
    split; [by eapply unchanged_trans|].
    exists l, ls. split_and!; [done| |done|done| |].
    + destruct Hun as (_ & _ & Hl1). by eapply lookup_weaken_None.
    + rewrite Harr. done.
    + unfold objects.read_tree. rewrite Hls. cbn.
      by eapply mapM_read_unchanged.
  - subst r. by split.
Qed.

Lemma Forall2_zip_pairs {X1 X2 V1 V2} (R1 : X1 → V1 → Prop) (R2 : X2 → V2 → Prop)
    l1 k1 l2 k2 :
  Forall2 R1 l1 k1 → Forall2 R2 l2 k2 →
  Forall2 (λ (ab : X1 * X2) (xy : V1 * V2), R1 ab.1 xy.1 ∧ R2 ab.2 xy.2)
          (zip l1 l2) (zip k1 k2).
Proof.
  intros H1. revert l2 k2. induction H1 as [|a x l1 k1 Hax _ IH];
    intros l2 k2 H2; [constructor|].
  destruct H2 as [|b y l2 k2 Hby H2]; [constructor|].
  cbn. constructor; [done|]. by apply IH.
Qed.

Lemma in_new_buffer_weaken h h0 o :
  unchanged h h0 → in_new_buffer h0 o → in_new_buffer h o.
Proof. intros (Hb & _) Ho. by eapply lookup_weaken_None. Qed.

(** The body of a comprehension that computes an array from what it
    read and stores it. *)
Lemma store_result h h0 (z : option (ndarray A)) :
  unchanged h h0 →
  unchanged h0 (objects.bind (objects.lift z) objects.new_array h0).2 ∧
  match z with
  | Some y =>
      ∃ a o, (objects.bind (objects.lift z) objects.new_array h0).1 = Some a ∧
             objects.arrays h0 !! a = None ∧
             objects.arrays (objects.bind (objects.lift z) objects.new_array h0).2 !! a
             = Some o ∧
             in_new_buffer h o ∧
             objects.read_array (objects.bind (objects.lift z) objects.new_array h0).2 a
             = Some y
  | None => (objects.bind (objects.lift z) objects.new_array h0).1 = None
  end.
Proof.
  intros Hun. unfold objects.bind, objects.lift. destruct z as [y|]; cbn.
  - destruct (new_array_spec h0 y) as (Hun1 & _ & a & o & Ha & Hf & Ho & Hb & _ & Hr).
    split; [done|]. exists a, o. split_and!; [done..| |done].
    by eapply in_new_buffer_weaken.
  - split; [apply unchanged_refl|done].
Qed.

End heap_loops.

Section heap_operations.
Context {A : Type} `{!Dtype A} {G : Type} `{!Generator G A}.
Implicit Types (h : objects.heap A) (o : objects.array_obj)
  (t : list (ndarray A)).

Lemma read_tree_Some h l t :
  objects.read_tree h l = Some t ↔
  ∃ ls, objects.lists h !! l = Some ls ∧ mapM (objects.read_array h) ls = Some t.
Proof.
  unfold objects.read_tree. split.
  - intros H. destruct (objects.lists h !! l) as [ls|]; [|done]. by exists ls.
  - intros (ls & -> & H). done.
Qed.

Lemma read_array_Some h a x :
  objects.read_array h a = Some x ↔
  ∃ o buf, objects.arrays h !! a = Some o ∧
           objects.buffers h !! objects.base o = Some buf ∧
           mapM (λ i, buf !! i) (objects.offsets o) = Some (data x) ∧
           objects.oshape o = shape x.
Proof.
  unfold objects.read_array, objects.read_obj. split.
  - intros H. destruct (objects.arrays h !! a) as [o|] eqn:Ho; [|done]. cbn in H.
    destruct (objects.buffers h !! objects.base o) as [buf|] eqn:Hb; [|done].
    cbn in H.
    destruct (mapM _ (objects.offsets o)) as [d|] eqn:Hd; [|done]. cbn in H.
    injection H as <-. by exists o, buf.
  - intros (o & buf & -> & Hb & Hd & Hs). cbn. rewrite Hb. cbn. rewrite Hd. cbn.
    rewrite Hs. by destruct x.
Qed.

Lemma bind_get_list {R} l ls (k : list positive → objects.M A R) h :
  objects.lists h !! l = Some ls →
  objects.bind (objects.get_list l) k h = k ls h.
Proof. intros H. unfold objects.bind, objects.get_list. by rewrite H. Qed.

Lemma bind_get_array {R} a x (k : ndarray A → objects.M A R) h :
  objects.read_array h a = Some x →
  objects.bind (objects.get_array a) k h = k x h.
Proof. intros H. unfold objects.bind, objects.get_array. by rewrite H. Qed.

Lemma bind_get_obj {R} a o (k : objects.array_obj → objects.M A R) h :
  objects.arrays h !! a = Some o →
  objects.bind (objects.get_obj a) k h = k o h.
Proof. intros H. unfold objects.bind, objects.get_obj. by rewrite H. Qed.

Lemma mapM_pure {X Y} (f : X → Y) (l : list X) :
  mapM (λ x, Some (f x)) l = Some (f <$> l).
Proof. induction l as [|x l IH]; [done|]. cbn. by rewrite IH. Qed.

(** *** Arithmetic *)

Lemma zip_op_spec h f la lb ta tb :
  objects.read_tree h la = Some ta → objects.read_tree h lb = Some tb →
  returns_new_tree h (in_new_buffer h) (weights.zip_op f ta tb)
                   (objects.zip_op f la lb h).
Proof.
  intros (wa & Hla & Hwa)%read_tree_Some (wb & Hlb & Hwb)%read_tree_Some.
  unfold objects.zip_op. rewrite (bind_get_list la wa) by done.
  rewrite (bind_get_list lb wb) by done.
  apply (new_list_returns h (in_new_buffer h) (weights.zip_op f ta tb)).
  apply (for_each_builds _ (λ xy : ndarray A * ndarray A, np.binop f xy.1 xy.2)
           (λ ab xy, objects.read_array h ab.1 = Some xy.1 ∧
                     objects.read_array h ab.2 = Some xy.2)
           (in_new_buffer h) h).
  - intros [a b] [x y] h0 [Hx Hy] Hun. cbn [fst snd] in *.
    rewrite (bind_get_array a x) by (by eapply read_array_unchanged).
    rewrite (bind_get_array b y) by (by eapply read_array_unchanged).
    by apply store_result.
  - apply (Forall2_zip_pairs (λ a x, objects.read_array h a = Some x)
             (λ b y, objects.read_array h b = Some y)); by apply mapM_Some_1.
  - apply unchanged_refl.
Qed.

Lemma pointwise_op_spec h (f : ndarray A → ndarray A) l t :
  objects.read_tree h l = Some t →
  returns_new_tree h (in_new_buffer h) (Some (f <$> t))
                   (objects.pointwise_op f l h).
Proof.
  intros (w & Hl & Hw)%read_tree_Some.
  unfold objects.pointwise_op. rewrite (bind_get_list l w) by done.
  rewrite <- mapM_pure.
  apply (new_list_returns h (in_new_buffer h)).
  apply (for_each_builds _ (λ x, Some (f x))
           (λ a x, objects.read_array h a = Some x) (in_new_buffer h) h).
  - intros a x h0 Hx Hun.
    rewrite (bind_get_array a x) by (by eapply read_array_unchanged).
    exact (store_result h h0 (Some (f x)) Hun).
  - by apply mapM_Some_1.
  - apply unchanged_refl.
Qed.

Lemma add_spec h ls (ts : list (list (ndarray A))) :
  mapM (objects.read_tree h) ls = Some ts →
  returns_new_tree h (in_new_buffer h) (weights.add ts) (objects.add ls h).
Proof.
  intros Hts. unfold objects.add. unfold objects.bind at 1.
  change (objects.for_each objects.get_tree ls h)
    with (objects.for_each (λ l h0, (objects.read_tree h0 l, h0)) ls h).
  rewrite for_each_read, Hts.
  apply (new_list_returns h (in_new_buffer h) (weights.add ts)).
  apply (for_each_builds _ weights.py_sum eq (in_new_buffer h) h).
  - intros xs ? h0 <- Hun. by apply store_result.
  - apply Forall_Forall2_diag, Forall_forall. done.
  - apply unchanged_refl.
Qed.

End heap_operations.

Section heap_random.
Context {A : Type} `{!Dtype A} {G : Type} `{!Generator G A}.
Implicit Types (h : objects.heap A) (o : objects.array_obj)
  (t : list (ndarray A)) (g : G).

Lemma mapM_from_uniform lo hi t : ∀ g,
  mapM_from (λ g (x : ndarray A),
               Some (mk_ndarray (shape x) (rng_uniform g lo hi (shape x)).1,
                     (rng_uniform g lo hi (shape x)).2)) g t
  = Some (weights.uniform_from g t lo hi).1.
Proof.
  induction t as [|x t IH]; intros g; [done|].
  cbn [mapM_from weights.uniform_from mbind option_bind fst snd].
  destruct (rng_uniform g lo hi (shape x)) as [d g1]. cbn [fst snd].
  rewrite IH. by destruct (weights.uniform_from g1 t lo hi).
Qed.

Lemma mapM_from_add_normal loc scale t : ∀ g,
  mapM_from (λ g (x : ndarray A),
               z ← np.binop d_add x
                      (mk_ndarray (shape x) (rng_normal g loc scale (shape x)).1);
               Some (z, (rng_normal g loc scale (shape x)).2)) g t
  = (weights.add_normal_from g t loc scale).1.
Proof.
  induction t as [|x t IH]; intros g; [done|].
  cbn [mapM_from weights.add_normal_from].
  destruct (rng_normal g loc scale (shape x)) as [d g1]. cbn [fst snd].
  destruct (np.binop d_add x (mk_ndarray (shape x) d)) as [z|]; [|done].
  cbn [mbind option_bind fst snd]. rewrite IH.
  by destruct (weights.add_normal_from g1 t loc scale) as [[ys|] g2].
Qed.

Lemma uniform_spec h l lo hi g t :
  objects.read_tree h l = Some t →
  returns_new_tree h (in_new_buffer h) (Some (weights.uniform_from g t lo hi).1)
                   (objects.uniform l lo hi g h).
Proof.
  intros (w & Hl & Hw)%read_tree_Some.
  unfold objects.uniform. rewrite (bind_get_list l w) by done.
  rewrite <- mapM_from_uniform.
  apply (new_list_returns h (in_new_buffer h)).
  apply (for_each_from_builds _ _ (λ a x, objects.read_array h a = Some x)
           (in_new_buffer h) h).
  - intros g0 a x h0 Hx Hun.
    rewrite (bind_get_array a x) by (by eapply read_array_unchanged).
    unfold objects.bind, objects.ret.
    destruct (new_array_spec h0 (mk_ndarray (shape x)
                (rng_uniform g0 lo hi (shape x)).1))
      as (Hun1 & _ & a' & o & Ha & Hf & Ho & Hb & _ & Hr).
    destruct (objects.new_array _ h0) as [r h1]. cbn in *. subst r. cbn.
    split; [done|]. exists a', o. split_and!; [done..| |done].
    by eapply in_new_buffer_weaken.
  - by apply mapM_Some_1.
  - apply unchanged_refl.
Qed.

Lemma add_normal_spec h l loc scale g t :
  objects.read_tree h l = Some t →
  returns_new_tree h (in_new_buffer h) (weights.add_normal_from g t loc scale).1
                   (objects.add_normal l loc scale g h).
Proof.
  intros (w & Hl & Hw)%read_tree_Some.
  unfold objects.add_normal. rewrite (bind_get_list l w) by done.
  rewrite <- mapM_from_add_normal.
  apply (new_list_returns h (in_new_buffer h)).
  apply (for_each_from_builds _ _ (λ a x, objects.read_array h a = Some x)
           (in_new_buffer h) h).
  - intros g0 a x h0 Hx Hun.
    rewrite (bind_get_array a x) by (by eapply read_array_unchanged).
    unfold objects.bind at 1, objects.lift.
    destruct (np.binop d_add x _) as [z|]; cbn [mbind option_bind].
    2:{ split; [apply unchanged_refl|done]. }
    unfold objects.bind, objects.ret.
    destruct (new_array_spec h0 z)
      as (Hun1 & _ & a' & o & Ha & Hf & Ho & Hb & _ & Hr).
    destruct (objects.new_array z h0) as [r h1]. cbn in *. subst r. cbn.
    split; [done|]. exists a', o. split_and!; [done..| |done].
    by eapply in_new_buffer_weaken.
  - by apply mapM_Some_1.
  - apply unchanged_refl.
Qed.

Lemma ravel_spec h l t :
  objects.read_tree h l = Some t →
  returns_new_array h (weights.ravel t) (objects.ravel l h).
Proof.
  intros (w & Hl & Hw)%read_tree_Some.
  unfold objects.ravel. rewrite (bind_get_list l w) by done.
  unfold objects.bind at 1.
  change (objects.for_each objects.get_array w h)
    with (objects.for_each (λ a h0, (objects.read_array h0 a, h0)) w h).
  rewrite for_each_read, Hw.
  unfold objects.bind, objects.lift, weights.ravel.
  destruct (np.concatenate (np.ravel <$> t)) as [v|]; cbn.
  - destruct (new_array_spec h (mk_ndarray [length v] v))
      as (Hun1 & _ & a & o & Ha & Hf & Ho & Hb & _ & Hr).
    split; [done|]. by exists a, o.
  - split; [apply unchanged_refl|done].
Qed.

End heap_random.

Section heap_views.
Context {A : Type} `{!Dtype A}.
Implicit Types (h : objects.heap A) (o : objects.array_obj)
  (t : list (ndarray A)).

Lemma bind_lift {R S} (z : option R) (k : R → objects.M A S) h :
  objects.bind (objects.lift z) k h
  = match z with Some r => k r h | None => (None, h) end.
Proof. unfold objects.bind, objects.lift. by destruct z. Qed.

Lemma chunks_fmap_any {X Y} (f : X → Y) n d (l : list X) :
  np.chunks n d (f <$> l) = (λ blk : list X, f <$> blk) <$> np.chunks n d l.
Proof.
  revert l. induction d as [|d IH]; intros l; cbn; [done|].
  by rewrite <- fmap_take, <- fmap_drop, IH.
Qed.

Lemma fmap_concat_any {X Y} (f : X → Y) (L : list (list X)) :
  f <$> concat L = concat ((λ blk : list X, f <$> blk) <$> L).
Proof.
  induction L as [|b L IH]; [done|]. cbn. by rewrite fmap_app, IH.
Qed.

Lemma leading_block_fmap {X Y} (f : X → Y) s : ∀ ks (l : list X),
  np.leading_block s ks (f <$> l) = f <$> np.leading_block s ks l.
Proof.
  induction s as [|d s IH]; intros [|k ks] l; cbn; try done.
  rewrite chunks_fmap_any, <- fmap_take, fmap_concat_any, <- !list_fmap_compose.
  f_equal. apply list_fmap_ext. intros i blk _. cbn. apply IH.
Qed.

Lemma py_slice_fmap {X Y} (f : X → Y) (l : list X) i j :
  np.py_slice (f <$> l) i j = f <$> np.py_slice l i j.
Proof. unfold np.py_slice. by rewrite fmap_take, fmap_drop. Qed.

Lemma mapM_leading_block {X Y} (g : X → option Y) s ks offs d :
  mapM g offs = Some d →
  mapM g (np.leading_block s ks offs) = Some (np.leading_block s ks d).
Proof.
  intros H. apply mapM_Some_fmap in H. apply mapM_Some_fmap.
  by rewrite <- !leading_block_fmap, H.
Qed.

Lemma mapM_py_slice {X Y} (g : X → option Y) offs d i j :
  mapM g offs = Some d →
  mapM g (np.py_slice offs i j) = Some (np.py_slice d i j).
Proof.
  intros H. apply mapM_Some_fmap in H. apply mapM_Some_fmap.
  by rewrite <- !py_slice_fmap, H.
Qed.

Lemma mapM_from_unravel (v : list A) sk : ∀ i,
  mapM_from (λ i (sl : list nat * nat),
               x ← np.reshape (np.py_slice v i (i + sl.2)) sl.1;
               Some (x, i + sl.2)) i sk
  = weights.unravel_from v i sk.
Proof.
  induction sk as [|[sh n] sk IH]; intros i; [done|].
  cbn [mapM_from weights.unravel_from fst snd].
  destruct (np.reshape (np.py_slice v i (i + n)) sh) as [x|]; [|done].
  cbn [mbind option_bind fst snd]. by rewrite IH.
Qed.

Lemma unravel_spec h av ov (v : ndarray A) sk :
  objects.arrays h !! av = Some ov → objects.read_array h av = Some v →
  returns_new_tree h (λ o, objects.base o = objects.base ov)
                   (weights.unravel (data v) sk) (objects.unravel av sk h).
Proof.
  intros Hov Hv.
  apply read_array_Some in Hv as (o' & buf & Ho' & Hbuf & Hd & Hs).
  rewrite Hov in Ho'. injection Ho' as <-.
  unfold objects.unravel. rewrite (bind_get_obj av ov) by done.
  unfold weights.unravel. rewrite <- mapM_from_unravel.
  apply (new_list_returns h (λ o, objects.base o = objects.base ov)).
  apply (for_each_from_builds _ _ eq (λ o, objects.base o = objects.base ov) h).
  - intros i sl ? h0 <- Hun. cbn zeta. unfold np.reshape.
    assert (length (np.py_slice (objects.offsets ov) i (i + sl.2))
            = length (np.py_slice (data v) i (i + sl.2))) as Hlen.
    { rewrite !py_slice_length. by rewrite (length_mapM _ _ _ Hd). }
    rewrite Hlen. case_decide as Hsz; cbn [mbind option_bind fst snd].
    2:{ split; [apply unchanged_refl|done]. }
    destruct (new_view_spec h0 ov sl.1
                (np.py_slice (objects.offsets ov) i (i + sl.2)) buf
                (np.py_slice (data v) i (i + sl.2)))
      as (Hun1 & _ & a & Ha & Hf & Ho & Hr).
    { destruct Hun as (Hb & _). by eapply lookup_weaken. }
    { by apply mapM_py_slice. }
    unfold objects.bind, objects.ret.
    destruct (objects.new_view ov _ _ h0) as [r h1]. cbn in *. subst r. cbn.
    split; [done|]. eexists a, _. by split_and!.
  - apply Forall_Forall2_diag, Forall_forall. done.
  - apply unchanged_refl.
Qed.

(** One cut of [partition]. *)
Lemma slice_view_spec h h0 (wl : list positive) a (x : ndarray A) ks :
  unchanged h h0 → a ∈ wl → objects.read_array h a = Some x →
  unchanged h0 (objects.slice_view a ks h0).2 ∧
  match np.slice_leading x ks with
  | Some y =>
      ∃ a' o, (objects.slice_view a ks h0).1 = Some a' ∧
              objects.arrays h0 !! a' = None ∧
              objects.arrays (objects.slice_view a ks h0).2 !! a' = Some o ∧
              view_on h wl o ∧
              objects.read_array (objects.slice_view a ks h0).2 a' = Some y
  | None => (objects.slice_view a ks h0).1 = None
  end.
Proof.
  intros Hun Hin Hx.
  pose proof (read_array_unchanged h h0 a x Hun Hx) as Hx0.
  apply read_array_Some in Hx as (o & buf & Ho & Hbuf & Hd & Hs).
  assert (objects.arrays h0 !! a = Some o) as Ho0.
  { destruct Hun as (_ & Ha & _). by eapply lookup_weaken. }
  unfold objects.slice_view. rewrite (bind_get_obj a o) by done.
  unfold np.slice_leading, np.ndim. rewrite Hs.
  case_decide as Hks; [|split; [apply unchanged_refl|done]].
  destruct (shape x) as [|d s] eqn:Hsx.
  - rewrite (bind_get_array a x) by done.
    destruct (new_array_spec h0 x)
      as (Hun1 & _ & a' & o' & Ha & Hf & Ho' & Hb & Hs' & Hr).
    split; [done|]. exists a', o'. split_and!; [done..| |].
    + left. split; [congruence|]. by eapply in_new_buffer_weaken.
    + rewrite Hr. destruct ks; [|cbn in Hks; lia]. destruct x as [sx dx].
      cbn in *. by subst.
  - destruct (new_view_spec h0 o (np.block_shape (d :: s) ks)
                (np.leading_block (d :: s) ks (objects.offsets o)) buf
                (np.leading_block (d :: s) ks (data x)))
      as (Hun1 & _ & a' & Ha & Hf & Ho' & Hr).
    { destruct Hun as (Hb & _). by eapply lookup_weaken. }
    { by apply mapM_leading_block. }
    split; [done|]. eexists a', _. split_and!; [done..| |done].
    right. cbn. split.
    + intros Hnil. by destruct ks.
    + by exists a, o.
Qed.

Lemma partition_spec h l (wl : list positive) t (Sg Sl : weights.skel) :
  objects.lists h !! l = Some wl → mapM (objects.read_array h) wl = Some t →
  returns_new_tree h (view_on h wl) (weights.partition t Sg Sl)
                   (objects.partition l Sg Sl h).
Proof.
  intros Hl Hw. unfold objects.partition. rewrite (bind_get_list l wl) by done.
  apply (new_list_returns h (view_on h wl) (weights.partition t Sg Sl)).
  apply (for_each_builds _ _ eq (view_on h wl) h).
  - intros kv ? h0 <- Hun. rewrite bind_lift.
    destruct (weights.dict_get kv.1 Sg) as [e|]; cbn [mbind option_bind].
    2:{ split; [apply unchanged_refl|done]. }
    rewrite bind_lift. apply mapM_Some_1 in Hw.
    destruct (wl !! weights.index e) as [a|] eqn:Ha.
    + destruct (Forall2_lookup_l _ _ _ _ _ Hw Ha) as (x & Hx & Hr).
      rewrite Hx. cbn [mbind option_bind].
      apply (slice_view_spec h h0 wl a x); [done| |done].
      apply list_elem_of_lookup. eauto.
    + assert (t !! weights.index e = None) as ->.
      { apply lookup_ge_None. apply lookup_ge_None in Ha.
        by rewrite <- (Forall2_length _ _ _ Hw). }
      split; [apply unchanged_refl|done].
  - apply Forall_Forall2_diag, Forall_forall. done.
  - apply unchanged_refl.
Qed.

End heap_views.

Section heap_expand.
Context {A : Type} `{!Dtype A}.
Implicit Types (h : objects.heap A) (o : objects.array_obj)
  (t : list (ndarray A)).

(** One iteration of the loop of [expand] does to the list object what
    [weights.expand_step] does to its contents, and changes no other
    object. *)
Lemma expand_step_spec l (Sl : weights.skel) h kv t :
  objects.read_tree h l = Some t →
  objects.buffers h ⊆ objects.buffers (objects.expand_step l Sl kv h).2 ∧
  objects.arrays h ⊆ objects.arrays (objects.expand_step l Sl kv h).2 ∧
  (∀ l', l' ≠ l →
     objects.lists (objects.expand_step l Sl kv h).2 !! l' = objects.lists h !! l') ∧
  match weights.expand_step Sl t kv with
  | Some t' => (objects.expand_step l Sl kv h).1 = Some () ∧
               objects.read_tree (objects.expand_step l Sl kv h).2 l = Some t'
  | None => (objects.expand_step l Sl kv h).1 = None ∧
            objects.read_tree (objects.expand_step l Sl kv h).2 l = Some t
  end.
Proof.
  intros Ht. pose proof Ht as (w & Hl & Hw)%read_tree_Some.
  pose proof (mapM_Some_1 _ _ _ Hw) as HF.
  unfold objects.expand_step, weights.expand_step. case_decide as Hk.
  - rewrite (bind_get_list l w) by done. rewrite bind_lift.
    destruct (w !! weights.index kv.2) as [a|] eqn:Ha.
    2:{ assert (t !! weights.index kv.2 = None) as ->.
        { apply lookup_ge_None. apply lookup_ge_None in Ha.
          by rewrite <- (Forall2_length _ _ _ HF). }
        by split_and!. }
    destruct (Forall2_lookup_l _ _ _ _ _ HF Ha) as (x & Hx & Hr).
    rewrite Hx. cbn [mbind option_bind].
    rewrite (bind_get_array a x) by done. rewrite bind_lift.
    destruct (np.pad x _) as [y|]; cbn [mbind option_bind]; [|by split_and!].
    destruct (new_array_spec h y)
      as ((Hb1 & Ha1 & _) & Hlists & a' & o & Hnew & Hf & Ho & _ & _ & Hry).
    unfold objects.bind. destruct (objects.new_array y h) as [r h1].
    cbn in Hb1, Ha1, Hlists, Hnew, Ho, Hry. subst r.
    unfold objects.list_setitem. rewrite Hlists, Hl.
    rewrite decide_True by (by eapply lookup_lt_Some). cbn.
    split_and!; [done|done| | |].
    + intros l' Hne. by rewrite lookup_insert_ne.
    + done.
    + unfold objects.read_tree. cbn. rewrite lookup_insert_eq. cbn.
      apply mapM_Some. apply Forall2_insert; [|exact Hry].
      eapply Forall2_impl; [exact HF|]. intros a0 x0 H0.
      apply (read_array_unchanged h h1); [|done]. by split_and!; [..|rewrite Hlists].
  - destruct (new_array_spec h (np.zeros (weights.eshape kv.2)))
      as ((Hb1 & Ha1 & _) & Hlists & a' & o & Hnew & Hf & Ho & _ & _ & Hry).
    unfold objects.bind.
    destruct (objects.new_array (np.zeros (weights.eshape kv.2)) h) as [r h1].
    cbn in Hb1, Ha1, Hlists, Hnew, Ho, Hry. subst r.
    unfold objects.list_insert. rewrite Hlists, Hl. cbn.
    split_and!; [done|done| | |].
    + intros l' Hne. by rewrite lookup_insert_ne.
    + done.
    + unfold objects.read_tree. cbn. rewrite lookup_insert_eq. cbn.
      apply mapM_Some. unfold weights.py_insert.
      assert (Forall2 (λ a0 x0, objects.read_array h1 a0 = Some x0) w t) as HF1.
      { eapply Forall2_impl; [exact HF|]. intros a0 x0 H0.
        apply (read_array_unchanged h h1); [|done].
        by split_and!; [..|rewrite Hlists]. }
      apply Forall2_app; [by apply Forall2_take|].
      constructor; [exact Hry|by apply Forall2_drop].
Qed.

Lemma expand_loop_spec l (Sl : weights.skel) items : ∀ h t,
  objects.read_tree h l = Some t →
  objects.buffers h
    ⊆ objects.buffers (objects.for_ (objects.expand_step l Sl) items h).2 ∧
  objects.arrays h
    ⊆ objects.arrays (objects.for_ (objects.expand_step l Sl) items h).2 ∧
  (∀ l', l' ≠ l →
     objects.lists (objects.for_ (objects.expand_step l Sl) items h).2 !! l'
     = objects.lists h !! l') ∧
  (objects.for_ (objects.expand_step l Sl) items h).1
  = (if (weights.expand_loop Sl t items).1 then Some () else None) ∧
  objects.read_tree (objects.for_ (objects.expand_step l Sl) items h).2 l
  = Some (weights.expand_loop Sl t items).2.
Proof.
  induction items as [|kv items IH]; intros h t Ht; [by split_and!|].
  cbn [objects.for_ weights.expand_loop]. unfold objects.bind.
  destruct (expand_step_spec l Sl h kv t Ht) as (Hb & Ha & Hls & Hres).
  destruct (objects.expand_step l Sl kv h) as [r h1]. cbn in Hb, Ha, Hls, Hres.
  destruct (weights.expand_step Sl t kv) as [t'|].
  - destruct Hres as [-> Ht']. destruct (IH h1 t' Ht') as (Hb' & Ha' & Hls' & Hr & Hrt).
    split_and!; [by etrans|by etrans| |done|done].
    intros l' Hne. by rewrite Hls', Hls.
  - destruct Hres as [-> Ht']. by split_and!.
Qed.

(** [expand] hands back the reference it was given when the loop ends,
    and raises when an iteration raises. *)
Lemma expand_spec l (Sl Sg : weights.skel) h t :
  objects.read_tree h l = Some t →
  (objects.expand l Sl Sg h).1
  = (if (weights.expand_loop Sl t Sg).1 then Some l else None) ∧
  objects.read_tree (objects.expand l Sl Sg h).2 l
  = Some (weights.expand_loop Sl t Sg).2 ∧
  objects.buffers h ⊆ objects.buffers (objects.expand l Sl Sg h).2 ∧
  objects.arrays h ⊆ objects.arrays (objects.expand l Sl Sg h).2 ∧
  ∀ l', l' ≠ l →
    objects.lists (objects.expand l Sl Sg h).2 !! l' = objects.lists h !! l'.
Proof.
  intros Ht. destruct (expand_loop_spec l Sl Sg h t Ht) as (Hb & Ha & Hls & Hr & Hrt).
  unfold objects.expand, objects.bind.
  destruct (objects.for_ (objects.expand_step l Sl) Sg h) as [[[]|] h'];
    cbn in *; (split_and!; [|done..]);
    by destruct (weights.expand_loop Sl t Sg).1.
Qed.

End heap_expand.

(** C9: on a heap of buffers, array objects and list objects, every
    operation of the weight-tree algebra other than [expand] changes no
    object that existed before the call, also when it raises, so the
    input lists and their arrays are as they were.  What it returns is a
    reference to a list object that did not exist before, holding
    pairwise distinct array objects that did not exist before either,
    and the list stands for the tree that the operation computes ([ravel]
    returns one new array).  The arrays returned by [add], [sub], [mul],
    [div], [scale], [uniform], [add_normal], [minimum], [maximum],
    [counter] and [ravel] read buffers that did not exist before; the
    arrays returned by [unravel] are views on the buffer of the flat
    vector, and those returned by [partition] are views on the buffers
    of arrays of the input tree (or scalars with a buffer of their own,
    for an array without axes).  [expand] returns the reference it was
    given: the list object behind it now holds the expanded contents,
    while every buffer, every array object and every other list object
    is as it was. *)
Theorem operations_return_new_trees {A G : Type} `{!Dtype A} `{!Generator G A}
    (h : objects.heap A) (la lb av le : positive) (ls wl : list positive)
    (ta tb te : list (ndarray A)) (ts : list (list (ndarray A)))
    (ov : objects.array_obj) (v : ndarray A)
    (c lo hi : A) (g : G) (Sg Sl : weights.skel) (sk : list (list nat * nat)) :
  objects.lists h !! la = Some wl →
  objects.read_tree h la = Some ta →
  objects.read_tree h lb = Some tb →
  mapM (objects.read_tree h) ls = Some ts →
  objects.arrays h !! av = Some ov →
  objects.read_array h av = Some v →
  shape v = [length (data v)] →
  objects.read_tree h le = Some te →
  returns_new_tree h (in_new_buffer h) (weights.add ts) (objects.add ls h) ∧
  returns_new_tree h (in_new_buffer h) (weights.sub ta tb) (objects.sub la lb h) ∧
  returns_new_tree h (in_new_buffer h) (weights.mul ta tb) (objects.mul la lb h) ∧
  returns_new_tree h (in_new_buffer h) (weights.div ta tb) (objects.div la lb h) ∧
  returns_new_tree h (in_new_buffer h) (Some (weights.scale ta c))
                   (objects.scale la c h) ∧
  returns_new_tree h (in_new_buffer h) (Some (weights.uniform_from g ta lo hi).1)
                   (objects.uniform la lo hi g h) ∧
  returns_new_tree h (in_new_buffer h) (weights.add_normal_from g ta lo hi).1
                   (objects.add_normal la lo hi g h) ∧
  returns_new_tree h (in_new_buffer h) (Some (weights.minimum ta c))
                   (objects.minimum la c h) ∧
  returns_new_tree h (in_new_buffer h) (Some (weights.maximum ta c))
                   (objects.maximum la c h) ∧
  returns_new_tree h (in_new_buffer h) (Some (weights.counter ta))
                   (objects.counter la h) ∧
  returns_new_array h (weights.ravel ta) (objects.ravel la h) ∧
  returns_new_tree h (λ o, objects.base o = objects.base ov)
                   (weights.unravel (data v) sk) (objects.unravel av sk h) ∧
  returns_new_tree h (view_on h wl) (weights.partition ta Sg Sl)
                   (objects.partition la Sg Sl h) ∧
  ((objects.expand le Sl Sg h).1
     = (if (weights.expand_loop Sl te Sg).1 then Some le else None) ∧
   objects.read_tree (objects.expand le Sl Sg h).2 le
     = Some (weights.expand_loop Sl te Sg).2 ∧
   (∀ t', weights.expand te Sl Sg = Some t' →
          (objects.expand le Sl Sg h).1 = Some le ∧
          objects.read_tree (objects.expand le Sl Sg h).2 le = Some t') ∧
   objects.buffers h ⊆ objects.buffers (objects.expand le Sl Sg h).2 ∧
   objects.arrays h ⊆ objects.arrays (objects.expand le Sl Sg h).2 ∧
   ∀ l', l' ≠ le →
     objects.lists (objects.expand le Sl Sg h).2 !! l' = objects.lists h !! l').
Proof.
  intros Hwl Ha Hb Hls Hov Hv _ He.
  assert (mapM (objects.read_array h) wl = Some ta) as Hwa.
  { unfold objects.read_tree in Ha. by rewrite Hwl in Ha. }
  destruct (expand_spec le Sl Sg h te He) as (H1 & H2 & H3 & H4 & H5).
  split_and!; try done.
  - by apply add_spec.
  - by apply zip_op_spec.
  - by apply zip_op_spec.
  - by apply zip_op_spec.
  - by apply pointwise_op_spec.
  - by apply uniform_spec.
  - by apply add_normal_spec.
  - by apply pointwise_op_spec.
  - by apply pointwise_op_spec.
  - by apply pointwise_op_spec.
  - by apply ravel_spec.
  - by apply unravel_spec.
  - by apply partition_spec.
  - intros t' Ht'. unfold weights.expand in Ht'. rewrite H1, H2.
    destruct (weights.expand_loop Sl te Sg) as [[] t'']; [|done].
    by injection Ht' as <-.
Qed.

(** ** The example generator and the worked instances *)

Lemma counter_generator_laws : GeneratorLaws nat Z.
Proof.
  split.
  - intros g lo hi s. cbn. apply length_replicate.
  - intros g lo hi s. cbn. apply length_replicate.
  - intros g alpha n _ _. cbn. split; [apply length_replicate|].
    apply Forall_replicate. split; [apply length_replicate|].
    apply Forall_replicate. done.
  - intros g l. cbn. rewrite Permutation_app_comm. by rewrite take_drop.
  - intros g a k Hk. cbn. rewrite decide_True by done.
    exists (take k a), (S g). split_and!; [done|rewrite length_take; lia|].
    exists (drop k a). by rewrite take_drop.
  - intros g a k Hk. cbn. rewrite decide_False; [done|lia].
Qed.

Lemma lda_covers_every_class_witness :
  ∃ D, (main.lda (G:=nat) (A:=Z) [0; 1; 0; 1; 1; 0; 2; 0] 3 2 0 (1 # 2)).1
         = Some D ∧
       length D = 3 ∧
       (∀ c i, c < 2 →
          (∃ j d, D !! j = Some d ∧ i ∈ d ∧
                  [0; 1; 0; 1; 1; 0; 2; 0] !! i = Some c)
          ↔ [0; 1; 0; 1; 1; 0; 2; 0] !! i = Some c) ∧
       (∀ j1 j2 d1 d2 i, j1 ≠ j2 →
          D !! j1 = Some d1 → D !! j2 = Some d2 → i ∈ d1 → i ∉ d2).
Proof.
  apply (lda_covers_every_class (GeneratorLaws0 := counter_generator_laws));
    [lia|reflexivity].
Defined.

Lemma DataIter_next_never_stops_witness :
  let it := datasets.DataIter_init ["a"; "b"; "c"]%string [0; 1; 0] (Some 5) 2
              (weights.caller_rng 0) in
  datasets.batch_size it = Nat.min 5 (length [0; 1; 0]) ∧
  ∀ (m : nat) (σ : weights.rng_ref → nat),
    ∃ bs σ', datasets.DataIter_next_n (A:=Z) m it σ = Some (bs, σ') ∧
             length bs = m ∧ Forall (is_batch it) bs.
Proof.
  apply (DataIter_next_never_stops (GeneratorLaws0 := counter_generator_laws)
           ["a"; "b"; "c"]%string [0; 1; 0] (Some 5) 2 (weights.caller_rng 0)).
  reflexivity.
Defined.

Lemma DataIter_invariant_preserved_witness :
  let it0 := datasets.DataIter_init ["a"; "b"; "c"]%string [0; 1; 0] (Some 5) 2
               (weights.caller_rng 0) in
  let ts := [datasets.Filter (Row:=string) (λ y, (λ c, bool_decide (c = 0)) <$> y);
             datasets.Map (λ X y, (take 1 X, take 1 y))] in
  let it := datasets.mk_DataIter ["a"]%string [0] 1 [0] 2 (weights.caller_rng 0) in
  DataIter_inv it0 ∧
  (∀ it1 f, DataIter_inv (datasets.DataIter_map (Row:=string) it1 f)) ∧
  (∀ it1 f it2, datasets.DataIter_filter (Row:=string) it1 f = Some it2 →
                DataIter_inv it2) ∧
  DataIter_inv it ∧
  ∀ σ : weights.rng_ref → nat,
    datasets.batch_size it ≤ length (datasets.idx it) ∧
    ∃ ix g, rng_choice (A:=Z) (σ (datasets.rng it)) (datasets.idx it)
                       (datasets.batch_size it) = Some (ix, g) ∧
            length ix = datasets.batch_size it ∧ NoDup ix ∧
            Forall (λ i, i < length (datasets.y it)) ix.
Proof.
  apply (DataIter_invariant_preserved
           (GeneratorLaws0 := counter_generator_laws)
           ["a"; "b"; "c"]%string [0; 1; 0] (Some 5) 2 (weights.caller_rng 0)
           [datasets.Filter (Row:=string) (λ y, (λ c, bool_decide (c = 0)) <$> y);
            datasets.Map (λ X y, (take 1 X, take 1 y))]).
  reflexivity.
Defined.

Lemma operations_return_new_trees_witness :
  let h := example_heap in
  let ta := example_tree in
  let te := example_local_tree in
  let Sg := weights.skeleton example_model in
  let Sl := example_local in
  let ov := objects.mk_array_obj 14 [5] [0; 1; 2; 3; 4] in
  let v := [1; 2; 3; 4; 5]%Z in
  let sk := [([2; 2], 4); ([], 1)] in
  (returns_new_tree h (in_new_buffer h) (weights.add [ta; ta])
                    (objects.add [1; 2]%positive h) ∧
   returns_new_tree h (in_new_buffer h) (weights.sub ta ta) (objects.sub 1 2 h) ∧
   returns_new_tree h (in_new_buffer h) (weights.mul ta ta) (objects.mul 1 2 h) ∧
   returns_new_tree h (in_new_buffer h) (weights.div ta ta) (objects.div 1 2 h) ∧
   returns_new_tree h (in_new_buffer h) (Some (weights.scale ta 2%Z))
                    (objects.scale 1 2%Z h) ∧
   returns_new_tree h (in_new_buffer h) (Some (weights.uniform_from 0 ta 0%Z 1%Z).1)
                    (objects.uniform 1 0%Z 1%Z 0 h) ∧
   returns_new_tree h (in_new_buffer h) (weights.add_normal_from 0 ta 0%Z 1%Z).1
                    (objects.add_normal 1 0%Z 1%Z 0 h) ∧
   returns_new_tree h (in_new_buffer h) (Some (weights.minimum ta 2%Z))
                    (objects.minimum 1 2%Z h) ∧
   returns_new_tree h (in_new_buffer h) (Some (weights.maximum ta 2%Z))
                    (objects.maximum 1 2%Z h) ∧
   returns_new_tree h (in_new_buffer h) (Some (weights.counter ta))
                    (objects.counter 1 h) ∧
   returns_new_array h (weights.ravel ta) (objects.ravel 1 h) ∧
   returns_new_tree h (λ o, objects.base o = objects.base ov)
                    (weights.unravel v sk) (objects.unravel 14 sk h) ∧
   returns_new_tree h (view_on h [1; 2; 3; 4]%positive) (weights.partition ta Sg Sl)
                    (objects.partition 1 Sg Sl h) ∧
   ((objects.expand 4 Sl Sg h).1
      = (if (weights.expand_loop Sl te Sg).1 then Some 4%positive else None) ∧
    objects.read_tree (objects.expand 4 Sl Sg h).2 4
      = Some (weights.expand_loop Sl te Sg).2 ∧
    (∀ t', weights.expand te Sl Sg = Some t' →
           (objects.expand 4 Sl Sg h).1 = Some 4%positive ∧
           objects.read_tree (objects.expand 4 Sl Sg h).2 4 = Some t') ∧
    objects.buffers h ⊆ objects.buffers (objects.expand 4 Sl Sg h).2 ∧
    objects.arrays h ⊆ objects.arrays (objects.expand 4 Sl Sg h).2 ∧
    ∀ l', l' ≠ 4%positive →
      objects.lists (objects.expand 4 Sl Sg h).2 !! l' = objects.lists h !! l')) ∧
  weights.unravel v sk
  = Some [mk_ndarray [2; 2] [1; 2; 3; 4]%Z; mk_ndarray [] [5%Z]] ∧
  weights.partition ta Sg Sl
  = Some [mk_ndarray [1; 2] [1; 2]%Z; mk_ndarray [0; 3] []] ∧
  objects.read_tree h 4
  = Some [mk_ndarray [1; 2] [1; 2]%Z; mk_ndarray [1] [9%Z]] ∧
  (objects.expand 4 Sl Sg h).1 = Some 4%positive ∧
  objects.read_tree (objects.expand 4 Sl Sg h).2 4
  = Some [mk_ndarray [2; 2] [1; 2; 0; 0]%Z; mk_ndarray [2] [0; 0]%Z;
          mk_ndarray [1] [9%Z]].
Proof.
  split; [|by vm_compute].
  apply (operations_return_new_trees (G:=nat) example_heap 1 2 14 4
           [1; 2]%positive [1; 2; 3; 4]%positive
           example_tree example_tree example_local_tree
           [example_tree; example_tree]
           (objects.mk_array_obj 14 [5] [0; 1; 2; 3; 4])
           (mk_ndarray [5] [1; 2; 3; 4; 5]%Z) 2%Z 0%Z 1%Z 0
           (weights.skeleton example_model) example_local [([2; 2], 4); ([], 1)]);
    by vm_compute.
Defined.

(** ** Worked examples *)

(** Cutting a 3x3 matrix down to 2x2 takes rows and columns 0 and 1, and
    expanding the block again pads row 2 and column 2 with zeros. *)
Example partition_3x3_to_2x2 :
  weights.partition [mk_ndarray [3; 3] [1; 2; 3; 4; 5; 6; 7; 8; 9]%Z]
    [("w"%string, weights.mk_entry 0 [3; 3])]
    [("w"%string, weights.mk_entry 0 [2; 2])]
  = Some [mk_ndarray [2; 2] [1; 2; 4; 5]%Z].
Proof. reflexivity. Qed.

Example expand_2x2_to_3x3 :
  weights.expand [mk_ndarray [2; 2] [1; 2; 4; 5]%Z]
    [("w"%string, weights.mk_entry 0 [2; 2])]
    [("w"%string, weights.mk_entry 0 [3; 3]);
     ("b"%string, weights.mk_entry 1 [2])]
  = Some [mk_ndarray [3; 3] [1; 2; 0; 4; 5; 0; 0; 0; 0]%Z;
          mk_ndarray [2] [0; 0]%Z].
Proof. reflexivity. Qed.

(** A too-short vector makes [unravel] raise; adding two trees sums
    position by position. *)
Example unravel_short_vector_raises :
  weights.unravel [1; 2; 3]%Z [([2], 2); ([2], 2)] = None.
Proof. reflexivity. Qed.

Example add_two_trees :
  weights.add [[mk_ndarray [2] [1; 2]%Z]; [mk_ndarray [2] [10; 20]%Z]]
  = Some [mk_ndarray [2] [11; 22]%Z].
Proof. reflexivity. Qed.

(** The partitioner on eight labels, three clients and two classes: the
    positions of class 0 and of class 1 are dealt out once each, and
    position 6, whose label 2 is not below the class count, is left
    out. *)
Example lda_eight_labels :
  (main.lda (G:=nat) (A:=Z) [0; 1; 0; 1; 1; 0; 2; 0] 3 2 0 (1 # 2)).1
  = Some [[2; 3]; [5; 7; 4]; [0; 1]].
Proof. reflexivity. Qed.

(** * Further properties *)

(** ** Arithmetic on trees of equal shapes *)

Section equal_shapes.
Context {A : Type} `{!Dtype A}.
Implicit Types (a b T : weights.tree A) (l : list A) (s : list nat).

Lemma concat_chunks n d l : length l = d * n → concat (np.chunks n d l) = l.
Proof.
  revert l. induction d as [|d IH]; intros l Hl; cbn.
  - by destruct l.
  - rewrite IH by (rewrite length_drop; lia). apply take_drop.
Qed.

Lemma fmap_chunks_id (g : list A → list A) n d l :
  length l = d * n → (∀ blk, length blk = n → g blk = blk) →
  g <$> np.chunks n d l = np.chunks n d l.
Proof.
  intros Hl Hg. rewrite <- (list_fmap_id (np.chunks n d l)) at 2.
  apply Forall_fmap_ext. eapply Forall_impl; [by apply chunks_Forall_length|].
  intros blk Hb. cbn. by apply Hg.
Qed.

Lemma broadcast_data_same s : ∀ l,
  length l = np.prod s → np.broadcast_data s s l = l.
Proof.
  induction s as [|d s IH]; intros l Hl; [done|].
  cbn [np.broadcast_data]. rewrite decide_False by (cbn; lia).
  rewrite decide_True by done. rewrite prod_cons in Hl.
  rewrite fmap_chunks_id by done. by apply concat_chunks.
Qed.

Lemma concat_replicate_replicate d n (c : A) :
  concat (replicate d (replicate n c)) = replicate (d * n) c.
Proof.
  induction d as [|d IH]; [done|]. cbn. by rewrite IH, replicate_add.
Qed.

Lemma broadcast_data_scalar s (c : A) :
  np.broadcast_data [] s [c] = replicate (np.prod s) c.
Proof.
  induction s as [|d s IH]; [done|].
  cbn [np.broadcast_data]. rewrite decide_True by (cbn; lia).
  by rewrite IH, concat_replicate_replicate.
Qed.

Lemma broadcast_shapes_scalar s : np.broadcast_shapes [] s = Some s.
Proof.
  unfold np.broadcast_shapes. cbn. by rewrite reverse_involutive.
Qed.

Lemma zip_with_replicate_l (f : A → A → A) (c : A) l :
  zip_with f (replicate (length l) c) l = f c <$> l.
Proof. induction l as [|x l IH]; [done|]. cbn. by rewrite IH. Qed.

Lemma binop_same_shape f (x y : ndarray A) :
  shape x = shape y → np.wf x → np.wf y →
  np.binop f x y = Some (elementwise f x y).
Proof.
  unfold np.wf, np.size, np.binop, elementwise. intros Hs Hx Hy.
  rewrite <- Hs, broadcast_shapes_refl. cbn.
  rewrite !broadcast_data_same; [done|by rewrite Hs|done].
Qed.

Lemma zip_op_elementwise f a b :
  Forall2 (λ x y, shape x = shape y) a b → Forall np.wf a → Forall np.wf b →
  weights.zip_op f a b = Some (zip_with (elementwise f) a b).
Proof.
  unfold weights.zip_op.
  induction 1 as [|x y a b Hs _ IH]; intros Ha Hb; [done|].
  apply Forall_cons in Ha as [Hx Ha]. apply Forall_cons in Hb as [Hy Hb].
  cbn. rewrite binop_same_shape by done. cbn. by rewrite IH.
Qed.

Lemma binop_scalar_l f (c : A) (x : ndarray A) :
  np.wf x → np.binop f (np.scalar c) x = Some (np.pointwise (f c) x).
Proof.
  unfold np.wf, np.size, np.binop, np.pointwise. intros Hx.
  cbn [shape data np.scalar]. rewrite broadcast_shapes_scalar. cbn.
  rewrite broadcast_data_scalar, broadcast_data_same by done.
  by rewrite <- Hx, zip_with_replicate_l.
Qed.

Lemma py_sum_pair (x y : ndarray A) :
  shape x = shape y → np.wf x → np.wf y →
  weights.py_sum [x; y]
  = Some (elementwise (λ p q, d_add (d_add d_zero p) q) x y).
Proof.
  intros Hs Hx Hy.
  change (weights.py_sum [x; y])
    with (np.binop d_add (np.scalar d_zero) x ≫= λ acc, np.binop d_add acc y).
  rewrite binop_scalar_l by done. cbn [mbind option_bind].
  rewrite binop_same_shape; [|done| |done].
  2:{ unfold np.wf, np.size in *. cbn. by rewrite length_fmap. }
  unfold elementwise. cbn. by rewrite zip_with_fmap_l.
Qed.

End equal_shapes.

(** X1: On two trees whose arrays have, position by position, the same
    shape, [sub], [mul] and [div] return the tree of the position-wise
    differences, products and quotients: every array keeps its shape and
    no broadcasting takes place. *)
Theorem sub_mul_div_elementwise {A} `{!Dtype A} (a b : weights.tree A) :
  Forall2 (λ x y, shape x = shape y) a b → Forall np.wf a → Forall np.wf b →
  weights.sub a b = Some (zip_with (elementwise d_sub) a b) ∧
  weights.mul a b = Some (zip_with (elementwise d_mul) a b) ∧
  weights.div a b = Some (zip_with (elementwise d_div) a b).
Proof.
  intros Hs Ha Hb. split_and!; by apply zip_op_elementwise.
Qed.

Lemma sub_mul_div_elementwise_witness :
  weights.sub example_tree example_tree
    = Some (zip_with (elementwise d_sub) example_tree example_tree) ∧
  weights.mul example_tree example_tree
    = Some (zip_with (elementwise d_mul) example_tree example_tree) ∧
  weights.div example_tree example_tree
    = Some (zip_with (elementwise d_div) example_tree example_tree).
Proof.
  apply sub_mul_div_elementwise; repeat constructor.
Defined.

(** X2: [add] of two trees of equal shapes returns, position by position,
    the array of the sums [(0 + p) + q]: Python's [sum] starts from 0. *)
Theorem add_two_trees_elementwise {A} `{!Dtype A} (a b : weights.tree A) :
  Forall2 (λ x y, shape x = shape y) a b → Forall np.wf a → Forall np.wf b →
  weights.add [a; b]
  = Some (zip_with (elementwise (λ p q, d_add (d_add d_zero p) q)) a b).
Proof.
  unfold weights.add. cbn [weights.py_zip].
  induction 1 as [|x y a b Hs _ IH]; intros Ha Hb; [done|].
  apply Forall_cons in Ha as [Hx Ha]. apply Forall_cons in Hb as [Hy Hb].
  cbn [fmap list_fmap zip_with mapM].
  rewrite py_sum_pair by done. cbn. by rewrite IH.
Qed.

Lemma add_two_trees_elementwise_witness :
  weights.add [example_tree; example_tree]
  = Some (zip_with (elementwise (λ p q, d_add (d_add d_zero p) q))
                   example_tree example_tree).
Proof.
  apply add_two_trees_elementwise; repeat constructor.
Defined.

(** ** Scalar operations on trees *)

Section pointwise_ops.
Context {A : Type} `{!Dtype A}.
Implicit Types (T : weights.tree A) (l : list A).

Lemma chunks_fmap (f : A → A) n d l :
  np.chunks n d (f <$> l) = (λ blk : list A, f <$> blk) <$> np.chunks n d l.
Proof.
  revert l. induction d as [|d IH]; intros l; cbn; [done|].
  by rewrite <- fmap_take, <- fmap_drop, IH.
Qed.

Lemma item_fmap (f : A → A) s : ∀ idx l,
  np.item s idx (f <$> l) = f <$> np.item s idx l.
Proof.
  induction s as [|d s IH]; intros [|i idx] l; cbn; try done.
  - by rewrite list_lookup_fmap.
  - rewrite chunks_fmap, list_lookup_fmap.
    destruct (np.chunks (np.prod s) d l !! i) as [blk|]; cbn; [apply IH|done].
Qed.

Lemma pointwise_maps_elements f T : maps_elements f T (np.pointwise f <$> T).
Proof.
  unfold maps_elements. apply Forall2_fmap_r, Forall_Forall2_diag, Forall_forall.
  intros x _. split; [done|]. intros idx. unfold np.getitem. cbn.
  apply item_fmap.
Qed.

End pointwise_ops.

(** X3: [scale], [minimum], [maximum] and [counter] keep the length of the
    tree and the shape of every array, and replace the element at every
    index by, respectively, its product with the scalar, its minimum and
    maximum with the scalar, and 1 or 0 as it is non-zero or zero. *)
Theorem scalar_operations_elementwise {A} `{!Dtype A} (T : weights.tree A) (c : A) :
  maps_elements (λ e, d_mul e c) T (weights.scale T c) ∧
  maps_elements (λ e, d_min e c) T (weights.minimum T c) ∧
  maps_elements (λ e, d_max e c) T (weights.maximum T c) ∧
  maps_elements (λ e, if d_nonzero e then d_one else d_zero) T (weights.counter T).
Proof. split_and!; apply pointwise_maps_elements. Qed.

(** ** Flattening *)

Section flattening.
Context {A : Type}.
Implicit Types (T : weights.tree A) (v : list A).

Lemma ravel_Some T : T ≠ [] → weights.ravel T = Some (concat (data <$> T)).
Proof. unfold weights.ravel, np.concatenate. by destruct T. Qed.

Lemma ravel_length T :
  Forall np.wf T → length (concat (data <$> T)) = total_length (weights.unraveller T).
Proof.
  unfold total_length, weights.unraveller.
  induction 1 as [|x T Hx _ IH]; [done|]. cbn. rewrite length_app, IH.
  by rewrite Hx.
Qed.

Lemma unravel_from_wf v s : ∀ i T,
  weights.unravel_from v i s = Some T → Forall np.wf T.
Proof.
  induction s as [|[sh n] s IH]; intros i T H.
  - cbn in H. injection H as <-. constructor.
  - cbn [weights.unravel_from] in H. unfold np.reshape in H.
    destruct (decide _) as [Hl|]; [|done]. cbn in H.
    destruct (weights.unravel_from v (i + n) s) as [xs|] eqn:E; [|done].
    cbn in H. injection H as <-. constructor; [done|]. by eapply IH.
Qed.

Lemma unraveller_of_shapes T s :
  consistent s → shape <$> T = fst <$> s → weights.unraveller T = s.
Proof.
  unfold consistent, weights.unraveller, np.size. intros Hs Hsh.
  transitivity ((λ sh : list nat, (sh, np.prod sh)) <$> (shape <$> T)).
  { by rewrite <- list_fmap_compose. }
  rewrite Hsh, <- list_fmap_compose.
  transitivity (id <$> s); [|apply list_fmap_id].
  apply Forall_fmap_ext.
  eapply Forall_impl; [exact Hs|]. intros [sh n] Hn. cbn in *. by subst.
Qed.

End flattening.

(** X4: [ravel] raises exactly on the empty tree; on any other tree of
    well-formed arrays it returns the elements of the arrays in order,
    as many as the lengths that [unraveller] records add up to. *)
Theorem ravel_raises_iff_empty {A} (T : weights.tree A) :
  Forall np.wf T →
  (weights.ravel T = None ↔ T = []) ∧
  ∀ v, weights.ravel T = Some v →
       v = concat (data <$> T) ∧
       length v = total_length (weights.unraveller T).
Proof.
  intros Hwf. split.
  - split; [|by intros ->]. destruct T; [done|]. by rewrite ravel_Some.
  - intros v Hv. destruct T as [|x T]; [done|].
    rewrite ravel_Some in Hv by done. injection Hv as <-.
    split; [done|]. by apply (ravel_length (x :: T)).
Qed.

Lemma ravel_raises_iff_empty_witness :
  (weights.ravel example_tree = None ↔ example_tree = []) ∧
  ∀ v, weights.ravel example_tree = Some v →
       v = concat (data <$> example_tree) ∧
       length v = total_length (weights.unraveller example_tree).
Proof.
  apply ravel_raises_iff_empty. repeat constructor.
Defined.

(** X5: The round trip from the flat side: for a non-empty skeleton whose
    recorded lengths are the sizes of its shapes and add up to [len(v)],
    [unravel(v, s)] returns a tree of well-formed arrays whose
    [unraveller] is [s] and whose [ravel] is [v] again. *)
Theorem unravel_ravel_roundtrip {A} (v : list A) (s : list (list nat * nat)) :
  consistent s → s ≠ [] → total_length s = length v →
  ∃ T, weights.unravel v s = Some T ∧ Forall np.wf T ∧
       weights.unraveller T = s ∧ weights.ravel T = Some v.
Proof.
  intros Hs Hne Hlen. unfold weights.unravel.
  destruct (weights.unravel_from v 0 s) as [T|] eqn:E.
  2:{ apply unravel_from_none in E; [lia|done|lia]. }
  exists T. pose proof (unravel_from_wf _ _ _ _ E) as Hwf.
  apply unravel_from_some in E as [Hdata Hshape].
  split_and!; [done..|by apply unraveller_of_shapes|].
  rewrite ravel_Some.
  - rewrite Hdata. unfold py_slice. cbn. rewrite drop_0, Nat.sub_0_r.
    by rewrite take_ge by lia.
  - intros ->. destruct s; [done|]. done.
Qed.

Lemma unravel_ravel_roundtrip_witness :
  ∃ T, weights.unravel [1; 2; 3; 4; 5]%Z [([2; 2], 4); ([], 1); ([0], 0)] = Some T ∧
       Forall np.wf T ∧
       weights.unraveller T = [([2; 2], 4); ([], 1); ([0], 0)] ∧
       weights.ravel T = Some [1; 2; 3; 4; 5]%Z.
Proof.
  apply unravel_ravel_roundtrip; [repeat constructor|done|reflexivity].
Defined.

(** ** Skeletons of models with repeated names *)

Section skeleton_lookup.
Context {A : Type}.
Implicit Types (model : list (string * ndarray A)).

Lemma dict_get_set_eq {V} k (v : V) d :
  weights.dict_get k (weights.dict_set k v d) = Some v.
Proof.
  induction d as [|[k' v'] d IH]; cbn.
  - by rewrite decide_True.
  - case_decide as Hk; cbn; [by rewrite decide_True|].
    by rewrite decide_False.
Qed.

Lemma dict_get_set_ne {V} k k' (v : V) d :
  k ≠ k' → weights.dict_get k (weights.dict_set k' v d) = weights.dict_get k d.
Proof.
  intros Hne. induction d as [|[k0 v0] d IH]; cbn.
  - by rewrite decide_False.
  - case_decide as Hk; cbn.
    + subst k0. by rewrite !decide_False.
    + by rewrite IH.
Qed.

Lemma dict_set_keys {V} k (v : V) d :
  (weights.dict_set k v d).*1 = if decide (k ∈ d.*1) then d.*1 else d.*1 ++ [k].
Proof.
  induction d as [|[k0 v0] d IH]; cbn.
  - rewrite decide_False; [done|]. apply not_elem_of_nil.
  - destruct (decide (k0 = k)) as [->|Hk]; cbn.
    + rewrite decide_True; [done|]. apply elem_of_cons. by left.
    + rewrite IH. destruct (decide (k ∈ d.*1)) as [Hin|Hin].
      * rewrite decide_True; [done|]. apply elem_of_cons. by right.
      * rewrite decide_False; [done|]. rewrite not_elem_of_cons. by split.
Qed.

Lemma dict_set_NoDup {V} k (v : V) d :
  NoDup d.*1 → NoDup (weights.dict_set k v d).*1.
Proof.
  intros Hnd. rewrite dict_set_keys. case_decide as Hk; [done|].
  apply NoDup_app. split_and!; [done| |apply NoDup_singleton].
  intros k' Hk' Hin. apply list_elem_of_singleton in Hin. by subst.
Qed.

Lemma py_enumerate_snoc {X} o (l : list X) x :
  weights.py_enumerate o (l ++ [x])
  = weights.py_enumerate o l ++ [(o + length l, x)].
Proof.
  revert o. induction l as [|x' l IH]; intros o; cbn.
  - by rewrite Nat.add_0_r.
  - rewrite IH. by replace (S o + length l) with (o + S (length l)) by lia.
Qed.

Lemma skeleton_snoc model k x :
  weights.skeleton (model ++ [(k, x)])
  = weights.dict_set k (weights.mk_entry (length model) (shape x))
                     (weights.skeleton model).
Proof.
  unfold weights.skeleton. by rewrite py_enumerate_snoc, foldl_app.
Qed.

End skeleton_lookup.

(** X6: [skeleton] of any model, also one in which a name occurs more than
    once: the keys are pairwise distinct, and a name is bound to the
    position and the shape of its last occurrence in the model. *)
Theorem skeleton_binds_last_occurrence {A} (model : list (string * ndarray A)) :
  NoDup (weights.skeleton model).*1 ∧
  ∀ k e, weights.dict_get k (weights.skeleton model) = Some e ↔
         ∃ x, model !! weights.index e = Some (k, x) ∧
              weights.eshape e = shape x ∧
              ∀ j y, weights.index e < j → model !! j ≠ Some (k, y).
Proof.
  induction model as [|[k' x'] model [IHnd IH]] using rev_ind.
  - split; [constructor|]. intros k e. cbn. split; [done|].
    by intros (x & Hx & _).
  - rewrite skeleton_snoc. split; [by apply dict_set_NoDup|].
    intros k e. destruct (decide (k = k')) as [->|Hne].
    + rewrite dict_get_set_eq. split.
      * intros [= <-]. cbn. exists x'.
        split_and!; [by rewrite list_lookup_middle|done|].
        intros j y Hj Hl. apply lookup_lt_Some in Hl.
        rewrite length_app in Hl. cbn in Hl. lia.
      * intros (x & Hx & Hs & Hlast).
        assert (weights.index e = length model) as Hi.
        { destruct (decide (weights.index e < length model)) as [Hlt|Hge].
          - exfalso. apply (Hlast (length model) x' Hlt).
            by rewrite list_lookup_middle.
          - apply lookup_lt_Some in Hx. rewrite length_app in Hx.
            cbn in Hx. lia. }
        rewrite Hi, list_lookup_middle in Hx by done. injection Hx as <-.
        destruct e as [i sh]. cbn in *. by subst.
    + rewrite dict_get_set_ne by done. rewrite IH. split.
      * intros (x & Hx & Hs & Hlast). exists x.
        split_and!; [by apply lookup_app_l_Some|done|].
        intros j y Hj Hl. apply lookup_app_Some in Hl as [Hl|[Hge Hl]].
        -- by eapply Hlast.
        -- apply list_lookup_singleton_Some in Hl as [_ Heq]. congruence.
      * intros (x & Hx & Hs & Hlast).
        apply lookup_app_Some in Hx as [Hx|[Hge Hx]].
        -- exists x. split_and!; [done..|]. intros j y Hj Hl.
           eapply Hlast; [done|]. by apply lookup_app_l_Some.
        -- apply list_lookup_singleton_Some in Hx as [_ Heq]. congruence.
Qed.

(** ** A model against its own skeleton *)

Section own_skeleton.
Context {A : Type} `{!Dtype A}.
Implicit Types (model : list (string * ndarray A)) (x : ndarray A)
  (l : list A) (s : list nat).

Lemma leading_block_same s : ∀ l,
  length l = np.prod s → np.leading_block s s l = l.
Proof.
  induction s as [|d s IH]; intros l Hl; [done|].
  cbn [np.leading_block]. rewrite prod_cons in Hl.
  rewrite take_ge by (by rewrite chunks_length).
  rewrite fmap_chunks_id by done. by apply concat_chunks.
Qed.

Lemma Forall2_le_refl s : Forall2 le s s.
Proof. apply Forall_Forall2_diag, Forall_forall. intros; lia. Qed.

Lemma slice_leading_same x :
  np.wf x → np.slice_leading x (shape x) = Some x.
Proof.
  unfold np.wf, np.size, np.slice_leading, np.ndim. intros Hx.
  rewrite decide_True by done.
  rewrite block_shape_le, leading_block_same by (done || apply Forall2_le_refl).
  by destruct x.
Qed.

Lemma pad_data_zero s : ∀ (w : list nat) l,
  length w = length s → zip_with Nat.add s w = s → length l = np.prod s →
  np.pad_data s w l = l.
Proof.
  induction s as [|d s IH]; intros [|a w] l Hw Hz Hl; try done.
  cbn in Hw, Hz. injection Hz as Ha Hz. assert (a = 0) as -> by lia.
  cbn [np.pad_data]. cbn [Nat.mul replicate]. rewrite app_nil_r.
  rewrite prod_cons in Hl. rewrite fmap_chunks_id; [by apply concat_chunks|done|].
  intros blk Hb. apply IH; [lia|done..].
Qed.

Lemma pad_same x :
  np.wf x →
  np.pad x (zip_with (λ b ws, Z.of_nat b - Z.of_nat ws)%Z (shape x) (shape x))
  = if decide (shape x = []) then None else Some x.
Proof.
  unfold np.wf, np.size. intros Hx.
  destruct (pad_widths_spec (shape x) (shape x) (Forall2_le_refl _))
    as (Hw1 & Hw2 & Hw3).
  unfold np.pad, np.ndim.
  destruct (zip_with _ (shape x) (shape x)) as [|w ws] eqn:Hz.
  { cbn in Hw2. rewrite decide_True; [done|]. by destruct (shape x). }
  assert (shape x ≠ []) as Hne by (intros E; by rewrite E in Hz).
  rewrite <- Hz in *. rewrite (decide_False (P:=shape x = [])) by done.
  rewrite !decide_True by done. cbn. rewrite Hw3.
  rewrite pad_data_zero; [by destruct x|by rewrite length_fmap|done..].
Qed.

Lemma named_from_lookup_inv model : ∀ o i kv,
  named_from o model !! i = Some kv →
  ∃ k x, model !! i = Some (k, x) ∧ kv = (k, weights.mk_entry (o + i) (shape x)).
Proof.
  induction model as [|[k x] model IH]; intros o i kv; [done|].
  destruct i as [|i]; cbn.
  - intros [= <-]. exists k, x. by rewrite Nat.add_0_r.
  - intros H. apply IH in H as (k' & x' & Hi & ->). exists k', x'.
    split; [done|]. by replace (o + S i) with (S o + i) by lia.
Qed.

Lemma named_from_length model o : length (named_from o model) = length model.
Proof.
  revert o. induction model as [|[k x] model IH]; intros o; cbn; [done|].
  by rewrite IH.
Qed.

(** Every item of the model's skeleton finds its own name, position and
    shape in the model. *)
Lemma named_from_own model kv :
  NoDup model.*1 → kv ∈ named_from 0 model →
  ∃ x, weights.dict_get kv.1 (named_from 0 model) = Some kv.2 ∧
       model.*2 !! weights.index kv.2 = Some x ∧
       shape x = weights.eshape kv.2.
Proof.
  intros Hnd Hin. apply list_elem_of_lookup in Hin as [i Hi].
  pose proof Hi as Hi'.
  apply named_from_lookup_inv in Hi' as (k & x & Hm & ->). cbn. exists x.
  split_and!; [|by rewrite list_lookup_fmap, Hm|done].
  apply dict_get_NoDup; [by rewrite named_from_keys|].
  apply list_elem_of_lookup. eauto.
Qed.

Lemma named_from_shapes model o :
  Forall (λ kv : string * weights.entry, weights.eshape kv.2 ≠ []) (named_from o model)
  ↔ Forall (λ x, shape x ≠ []) model.*2.
Proof.
  revert o. induction model as [|[k x] model IH]; intros o; cbn; [done|].
  by rewrite !Forall_cons, IH.
Qed.

(** The loop of [expand] over items that are all present in [Sg] and
    whose shapes are those of the arrays they index: it stops at the
    first array without axes and changes nothing before. *)
Lemma expand_loop_own Sg (G : weights.tree A) items :
  Forall np.wf G →
  Forall (λ kv : string * weights.entry,
            is_Some (weights.dict_get kv.1 Sg) ∧
            ∃ x, G !! weights.index kv.2 = Some x ∧
                 shape x = weights.eshape kv.2) items →
  weights.expand_loop Sg G items
  = (bool_decide (Forall (λ kv : string * weights.entry,
                            weights.eshape kv.2 ≠ []) items), G).
Proof.
  intros Hwf. induction 1 as [|kv items (Hk & x & Hx & Hs) _ IH]; [done|].
  cbn [weights.expand_loop]. unfold weights.expand_step.
  rewrite decide_True by done. rewrite Hx. cbn.
  rewrite <- Hs, pad_same.
  2:{ rewrite Forall_lookup in Hwf. by eapply Hwf. }
  case_decide as He; cbn.
  - rewrite bool_decide_eq_false_2; [done|].
    intros HF. apply Forall_cons in HF as [HF _]. by rewrite <- Hs in HF.
  - rewrite list_insert_id by done. rewrite IH. f_equal.
    apply bool_decide_ext. rewrite Forall_cons, <- Hs. tauto.
Qed.

End own_skeleton.

(** X7: [partition] of a model's tree from the model's skeleton to that same
    skeleton returns the tree itself: every array is cut to its own
    shape. *)
Theorem partition_own_skeleton {A} `{!Dtype A} (model : list (string * ndarray A)) :
  NoDup model.*1 → Forall np.wf model.*2 →
  weights.partition model.*2 (weights.skeleton model) (weights.skeleton model)
  = Some model.*2.
Proof.
  intros Hnd Hwf. rewrite skeleton_NoDup by done. unfold weights.partition.
  rewrite filter_all.
  2:{ apply Forall_forall. intros kv Hin.
      destruct (named_from_own model kv Hnd Hin) as (x & -> & _). eauto. }
  apply mapM_Some. apply Forall2_same_length_lookup.
  split; [by rewrite named_from_length, length_fmap|].
  intros i kv x Hkv Hx.
  assert (kv ∈ named_from 0 model) as Hin by (apply list_elem_of_lookup; eauto).
  destruct (named_from_own model kv Hnd Hin) as (x' & Hg & Hx' & Hs).
  apply named_from_lookup_inv in Hkv as (k & x0 & Hm & ->). cbn in *.
  rewrite list_lookup_fmap, Hm in Hx, Hx'. cbn in Hx, Hx'. simplify_eq.
  rewrite Hg. cbn. rewrite list_lookup_fmap, Hm. cbn.
  apply slice_leading_same. rewrite Forall_lookup in Hwf.
  apply (Hwf i). by rewrite list_lookup_fmap, Hm.
Qed.

Lemma partition_own_skeleton_witness :
  weights.partition example_model.*2 (weights.skeleton example_model)
                    (weights.skeleton example_model)
  = Some example_model.*2.
Proof.
  apply partition_own_skeleton.
  - apply (bool_decide_unpack (NoDup example_model.*1)). by vm_compute.
  - repeat constructor.
Defined.

(** X8: [expand] of a model's tree from the model's skeleton to that same
    skeleton returns the tree unchanged when every array has at least one
    axis, and raises when some array has none ([np.pad] rejects the empty
    pad width). *)
Theorem expand_own_skeleton {A} `{!Dtype A} (model : list (string * ndarray A)) :
  NoDup model.*1 → Forall np.wf model.*2 →
  weights.expand model.*2 (weights.skeleton model) (weights.skeleton model)
  = if decide (Forall (λ x, shape x ≠ []) model.*2) then Some model.*2 else None.
Proof.
  intros Hnd Hwf. rewrite skeleton_NoDup by done. unfold weights.expand.
  rewrite expand_loop_own; [|done|].
  2:{ apply Forall_forall. intros kv Hin.
      destruct (named_from_own model kv Hnd Hin) as (x & Hg & Hx & Hs).
      split; [by rewrite Hg|]. eauto. }
  case_decide as HF.
  - rewrite bool_decide_eq_true_2; [done|]. by apply named_from_shapes.
  - rewrite bool_decide_eq_false_2; [done|]. by rewrite named_from_shapes.
Qed.

Lemma expand_own_skeleton_witness :
  weights.expand example_model.*2 (weights.skeleton example_model)
                 (weights.skeleton example_model)
  = if decide (Forall (λ x, shape x ≠ []) example_model.*2)
    then Some example_model.*2 else None.
Proof.
  apply expand_own_skeleton.
  - apply (bool_decide_unpack (NoDup example_model.*1)). by vm_compute.
  - repeat constructor.
Defined.

(** ** Random trees *)

Section random_trees.
Context {A G : Type} `{!Dtype A} `{!Generator G A} `{!GeneratorLaws G A}.
Implicit Types (w : weights.tree A) (g : G).

Lemma uniform_from_shapes w : ∀ g lo hi,
  same_shapes (weights.uniform_from g w lo hi).1 w.
Proof.
  induction w as [|x w IH]; intros g lo hi; [constructor|]. cbn.
  pose proof (rng_uniform_length g lo hi (shape x)) as Hlen.
  destruct (rng_uniform g lo hi (shape x)) as [d g1].
  specialize (IH g1 lo hi).
  destruct (weights.uniform_from g1 w lo hi) as [ys g2]. cbn in *.
  constructor; [|done]. by split.
Qed.

Lemma add_normal_from_shapes w : ∀ g loc scale,
  Forall np.wf w →
  ∃ t, (weights.add_normal_from g w loc scale).1 = Some t ∧ same_shapes t w.
Proof.
  induction w as [|x w IH]; intros g loc scale Hwf.
  { exists []. split; [done|constructor]. }
  apply Forall_cons in Hwf as [Hx Hwf]. cbn.
  pose proof (rng_normal_length g loc scale (shape x)) as Hlen.
  destruct (rng_normal g loc scale (shape x)) as [d g1]. cbn in Hlen.
  rewrite binop_same_shape by done.
  destruct (IH g1 loc scale Hwf) as (t & Ht & Hsame).
  destruct (weights.add_normal_from g1 w loc scale) as [ys g2]. cbn in *.
  subst ys. eexists. split; [done|]. constructor; [|done].
  split; [done|]. unfold np.wf, np.size, elementwise in *. cbn.
  rewrite length_zip_with, Hx, Hlen. unfold np.prod. lia.
Qed.

End random_trees.

(** X9: For a generator that returns as many elements as the requested size
    holds, [uniform] returns a tree with one well-formed array per array
    of [weights], each of the shape of the array at its position; and
    [add_normal] of a tree of well-formed arrays never raises and returns
    a tree of the same shapes. *)
Theorem random_trees_keep_shapes {A G : Type} `{!Dtype A} `{!Generator G A}
    `{!GeneratorLaws G A} (w : weights.tree A) (lo hi : A)
    (rng : option weights.rng_ref) (σ : weights.rng_ref → G) :
  same_shapes (weights.uniform w lo hi rng σ).1 w ∧
  (Forall np.wf w →
   ∃ t, (weights.add_normal w lo hi rng σ).1 = Some t ∧ same_shapes t w).
Proof.
  split.
  - unfold weights.uniform.
    pose proof (uniform_from_shapes w (σ (weights.resolve weights.site_uniform rng))
                  lo hi) as H.
    by destruct (weights.uniform_from _ w lo hi).
  - intros Hwf. unfold weights.add_normal.
    destruct (add_normal_from_shapes w
                (σ (weights.resolve weights.site_add_normal rng)) lo hi Hwf)
      as (t & Ht & Hsame).
    exists t. by destruct (weights.add_normal_from _ w lo hi).
Qed.

Lemma random_trees_keep_shapes_witness :
  same_shapes (weights.uniform (G:=nat) example_tree 0%Z 1%Z None (λ _, 0)).1
              example_tree ∧
  ∃ t, (weights.add_normal (G:=nat) example_tree 0%Z 1%Z None (λ _, 0)).1 = Some t ∧
       same_shapes t example_tree.
Proof.
  destruct (random_trees_keep_shapes (GeneratorLaws0 := counter_generator_laws)
              example_tree 0%Z 1%Z None (λ _, 0)) as [H1 H2].
  split; [exact H1|]. apply H2. repeat constructor.
Defined.

(** ** Data sets and iterators *)

Section masks.
Context {T : Type}.
Implicit Types (a : list T) (mask : list bool).

Lemma mask_rows_masked a mask :
  datasets.mask_rows a mask
  = if decide (length mask = length a) then Some (masked a mask) else None.
Proof.
  unfold datasets.mask_rows. case_decide as Hl; [|done]. f_equal.
  revert mask Hl. induction a as [|x a IH]; intros [|b mask] Hl; try done.
  cbn in Hl. cbn [zip zip_with masked]. destruct b.
  - rewrite filter_cons_True by done. cbn. f_equal. apply IH. lia.
  - rewrite filter_cons_False by done. apply IH. lia.
Qed.

Lemma mask_rows_is_Some a mask :
  is_Some (datasets.mask_rows a mask) ↔ length mask = length a.
Proof.
  rewrite mask_rows_masked. case_decide as Hl; split; [done|eauto| |done].
  by intros [? ?].
Qed.

Lemma masked_length a mask :
  length a = length mask →
  length (masked a mask) = length (filter (λ b, b = true) mask).
Proof.
  revert mask. induction a as [|x a IH]; intros [|b mask] Hl; try done.
  cbn in Hl. destruct b; cbn [masked].
  - rewrite filter_cons_True by done. cbn [length]. f_equal. apply IH. lia.
  - rewrite filter_cons_False by done. apply IH. lia.
Qed.

Lemma masked_split a mask :
  length a = length mask → masked a mask ++ masked a (negb <$> mask) ≡ₚ a.
Proof.
  revert mask. induction a as [|x a IH]; intros [|b mask] Hl; try done.
  cbn in Hl. destruct b; cbn.
  - apply perm_skip, IH. lia.
  - rewrite <- Permutation_middle. apply perm_skip, IH. lia.
Qed.

End masks.

Lemma masked_zip {T U} (a : list T) (c : list U) mask :
  zip (masked a mask) (masked c mask) = masked (zip a c) mask.
Proof.
  revert c mask. induction a as [|x a IH]; intros [|z c] [|b mask]; try done.
  - cbn. by destruct b, (masked a mask).
  - cbn. destruct b; cbn; by rewrite IH.
Qed.

Section dataset_split.
Context {Row : Type}.
Implicit Types (ds : datasets.Dataset (Row:=Row)).

Lemma train_masked ds :
  datasets.train ds
  = if decide (length (datasets.train_idx ds) = length (datasets.ds_X ds) ∧
               length (datasets.train_idx ds) = length (datasets.ds_y ds))
    then Some (masked (datasets.ds_X ds) (datasets.train_idx ds),
               masked (datasets.ds_y ds) (datasets.train_idx ds))
    else None.
Proof.
  unfold datasets.train. rewrite !mask_rows_masked.
  repeat case_decide; try done; lia.
Qed.

Lemma test_masked ds :
  datasets.test ds
  = if decide (length (datasets.train_idx ds) = length (datasets.ds_X ds) ∧
               length (datasets.train_idx ds) = length (datasets.ds_y ds))
    then Some (masked (datasets.ds_X ds) (negb <$> datasets.train_idx ds),
               masked (datasets.ds_y ds) (negb <$> datasets.train_idx ds))
    else None.
Proof.
  unfold datasets.test. rewrite !mask_rows_masked, !length_fmap.
  repeat case_decide; try done; lia.
Qed.

Lemma train_Some_lengths ds X0 y0 :
  datasets.train ds = Some (X0, y0) → length X0 = length y0.
Proof.
  rewrite train_masked. case_decide as Hl; [|done]. destruct Hl as [H1 H2].
  intros [= <- <-]. by rewrite !masked_length by done.
Qed.

End dataset_split.

(** X10: For a data set with one label per row, [train()] and [test()] raise
    exactly when the boolean [train] mask does not have one entry per
    row; otherwise each returns as many rows as labels, and every
    (row, label) pair of the data set is in exactly one of the two
    subsets. *)
Theorem train_test_split_the_rows {Row} (ds : datasets.Dataset (Row:=Row)) :
  length (datasets.ds_X ds) = length (datasets.ds_y ds) →
  (is_Some (datasets.train ds)
   ↔ length (datasets.train_idx ds) = length (datasets.ds_y ds)) ∧
  (is_Some (datasets.test ds)
   ↔ length (datasets.train_idx ds) = length (datasets.ds_y ds)) ∧
  ∀ Xtr ytr Xte yte,
    datasets.train ds = Some (Xtr, ytr) → datasets.test ds = Some (Xte, yte) →
    length Xtr = length ytr ∧ length Xte = length yte ∧
    zip Xtr ytr ++ zip Xte yte ≡ₚ zip (datasets.ds_X ds) (datasets.ds_y ds).
Proof.
  intros HXy. rewrite train_masked, test_masked. split_and!.
  - case_decide as Hl; split; [lia|eauto|by intros [? ?]|lia].
  - case_decide as Hl; split; [lia|eauto|by intros [? ?]|lia].
  - intros Xtr ytr Xte yte. case_decide as Hl; [|done]. destruct Hl as [H1 H2].
    intros [= <- <-] [= <- <-].
    rewrite !masked_length by (by rewrite ?length_fmap).
    split_and!; [done..|]. rewrite !masked_zip.
    apply masked_split. rewrite length_zip_with. lia.
Qed.

Lemma train_test_split_the_rows_witness :
  (is_Some (datasets.train example_dataset)
   ↔ length (datasets.train_idx example_dataset)
     = length (datasets.ds_y example_dataset)) ∧
  (is_Some (datasets.test example_dataset)
   ↔ length (datasets.train_idx example_dataset)
     = length (datasets.ds_y example_dataset)) ∧
  ∀ Xtr ytr Xte yte,
    datasets.train example_dataset = Some (Xtr, ytr) →
    datasets.test example_dataset = Some (Xte, yte) →
    length Xtr = length ytr ∧ length Xte = length yte ∧
    zip Xtr ytr ++ zip Xte yte
    ≡ₚ zip (datasets.ds_X example_dataset) (datasets.ds_y example_dataset).
Proof.
  apply train_test_split_the_rows. reflexivity.
Defined.

Section iterators.
Context {Row : Type}.
Implicit Types (it : datasets.DataIter (Row:=Row))
  (ds : datasets.Dataset (Row:=Row)).

Lemma apply_transform_fields it t it' :
  datasets.apply_transform it t = Some it' →
  datasets.batch_size it' = Nat.min (datasets.batch_size it) (length (datasets.y it')) ∧
  datasets.classes it' = datasets.classes it ∧
  datasets.rng it' = datasets.rng it.
Proof.
  destruct t as [f|f]; cbn.
  - unfold datasets.DataIter_map. destruct (f _ _) as [X' y'].
    by intros [= <-].
  - unfold datasets.DataIter_filter.
    destruct (datasets.mask_rows (datasets.X it) _) as [X'|]; [|done].
    destruct (datasets.mask_rows (datasets.y it) _) as [y'|]; [|done].
    by intros [= <-].
Qed.

Lemma get_iter_train_idx ds b d r X0 y0 :
  datasets.train ds = Some (X0, y0) →
  datasets.get_iter ds "train" b (Some d) None None (Some r)
  = X' ← datasets.take_rows X0 d;
    y' ← datasets.take_rows y0 d;
    Some (datasets.DataIter_init X' y' b (datasets.ds_classes ds) r).
Proof.
  intros Htrain. unfold datasets.get_iter. rewrite decide_True by done.
  rewrite Htrain. cbn.
  destruct (datasets.take_rows X0 d) as [X'|]; [|done]. cbn.
  by destruct (datasets.take_rows y0 d) as [y'|].
Qed.

Lemma take_rows_length {T} (a : list T) ix r :
  datasets.take_rows a ix = Some r → length r = length ix.
Proof. unfold datasets.take_rows. intros H. by apply length_mapM in H. Qed.

Lemma take_rows_in_range {T} (a : list T) ix :
  is_Some (datasets.take_rows a ix) ↔ Forall (λ j, j < length a) ix.
Proof.
  unfold datasets.take_rows. etrans; [apply mapM_is_Some|].
  apply Forall_proper; [|done]. intros j. apply lookup_lt_is_Some.
Qed.

Lemma Forall_zip_snd {T U} (Q : U → Prop) (l : list T) (k : list U) :
  Forall (λ p : T * U, Q p.2) (zip l k) ↔ Forall Q (take (length l) k).
Proof.
  revert k. induction l as [|x l IH]; intros [|z k]; cbn; try done.
  by rewrite !Forall_cons, IH.
Qed.

End iterators.

(** X11: [DataIter.filter] on an iterator with one label per row raises
    exactly when the mask that [f] returns does not have one entry per
    label.  Otherwise it keeps rows and labels in step: the (row, label)
    pairs it holds afterwards are the pairs at the positions the mask
    selects; the batch size is clamped to the number of labels left, and
    the class count and the generator stay as they were. *)
Theorem DataIter_filter_keeps_pairs {Row} (it : datasets.DataIter (Row:=Row))
    (f : list nat → list bool) :
  length (datasets.X it) = length (datasets.y it) →
  (is_Some (datasets.DataIter_filter it f)
   ↔ length (f (datasets.y it)) = length (datasets.y it)) ∧
  ∀ it', datasets.DataIter_filter it f = Some it' →
    zip (datasets.X it') (datasets.y it')
    = masked (zip (datasets.X it) (datasets.y it)) (f (datasets.y it)) ∧
    length (datasets.X it') = length (datasets.y it') ∧
    datasets.batch_size it'
    = Nat.min (datasets.batch_size it) (length (datasets.y it')) ∧
    datasets.classes it' = datasets.classes it ∧
    datasets.rng it' = datasets.rng it.
Proof.
  intros HXy. unfold datasets.DataIter_filter. rewrite !mask_rows_masked.
  rewrite HXy. case_decide as Hl; cbn.
  - split; [split; [done|eauto]|]. intros it' [= <-]. cbn.
    rewrite masked_zip. split_and!; [done| |done..].
    rewrite !masked_length by lia. done.
  - split; [split; [by intros [? ?]|done]|]. done.
Qed.

Lemma DataIter_filter_keeps_pairs_witness :
  let it := datasets.DataIter_init ["a"; "b"; "c"]%string [0; 1; 0] (Some 5) 2
              (weights.caller_rng 0) in
  let f := λ y : list nat, (λ c, bool_decide (c = 0)) <$> y in
  (is_Some (datasets.DataIter_filter it f)
   ↔ length (f (datasets.y it)) = length (datasets.y it)) ∧
  ∀ it', datasets.DataIter_filter it f = Some it' →
    zip (datasets.X it') (datasets.y it')
    = masked (zip (datasets.X it) (datasets.y it)) (f (datasets.y it)) ∧
    length (datasets.X it') = length (datasets.y it') ∧
    datasets.batch_size it'
    = Nat.min (datasets.batch_size it) (length (datasets.y it')) ∧
    datasets.classes it' = datasets.classes it ∧
    datasets.rng it' = datasets.rng it.
Proof.
  apply (DataIter_filter_keeps_pairs
           (datasets.DataIter_init ["a"; "b"; "c"]%string [0; 1; 0] (Some 5) 2
              (weights.caller_rng 0))).
  reflexivity.
Defined.

(** X12: Chained [map] and [filter] calls never raise the batch size, and
    leave the class count and the generator untouched: once a filter has
    cut the batch size down, a later [map] that returns more rows does
    not bring it back. *)
Theorem transforms_never_raise_batch_size {Row}
    (ts : list (datasets.transform (Row:=Row))) (it it' : datasets.DataIter) :
  datasets.apply_transforms it ts = Some it' →
  datasets.batch_size it' ≤ datasets.batch_size it ∧
  datasets.classes it' = datasets.classes it ∧
  datasets.rng it' = datasets.rng it.
Proof.
  revert it. induction ts as [|t ts IH]; intros it H; cbn in H.
  - by injection H as <-.
  - destruct (datasets.apply_transform it t) as [it1|] eqn:Ht; [|done].
    cbn in H. apply IH in H as (Hb & Hc & Hr).
    apply apply_transform_fields in Ht as (Hb1 & Hc1 & Hr1).
    split_and!; [lia|congruence..].
Qed.

Lemma transforms_never_raise_batch_size_witness :
  let it := datasets.DataIter_init ["a"; "b"; "c"]%string [0; 1; 0] (Some 2) 2
              (weights.caller_rng 0) in
  let it' := datasets.mk_DataIter ["b"; "b"; "b"]%string [1; 1; 1] 1 [0; 1; 2] 2
               (weights.caller_rng 0) in
  datasets.batch_size it' ≤ datasets.batch_size it ∧
  datasets.classes it' = datasets.classes it ∧
  datasets.rng it' = datasets.rng it.
Proof.
  apply (transforms_never_raise_batch_size
           [datasets.Filter (Row:=string) (λ y, (λ c, bool_decide (c = 1)) <$> y);
            datasets.Map (λ X y, (X ++ X ++ X, y ++ y ++ y))]).
  reflexivity.
Defined.

(** X13: Passing [filter] and [map] to [get_iter] against chaining
    [.filter(f).map(m)] on the iterator that [get_iter] returns without
    them: the chained iterator exists and holds the same rows, labels,
    index range, class count and generator, and its batch size is at most
    that of the direct one (it is clamped at every step, not only at the
    end). *)
Theorem get_iter_filter_map_as_chained {Row} (ds : datasets.Dataset (Row:=Row))
    (split : string) (b : option nat) (ix : option (list nat))
    (f : list nat → list bool)
    (m : list Row → list nat → list Row * list nat)
    (rng : option weights.rng_ref) (it1 : datasets.DataIter) :
  datasets.get_iter ds split b ix (Some f) (Some m) rng = Some it1 →
  ∃ it0 it2,
    datasets.get_iter ds split b ix None None rng = Some it0 ∧
    datasets.apply_transforms it0 [datasets.Filter f; datasets.Map m] = Some it2 ∧
    datasets.X it2 = datasets.X it1 ∧ datasets.y it2 = datasets.y it1 ∧
    datasets.idx it2 = datasets.idx it1 ∧
    datasets.classes it2 = datasets.classes it1 ∧
    datasets.rng it2 = datasets.rng it1 ∧
    datasets.batch_size it2 ≤ datasets.batch_size it1.
Proof.
  unfold datasets.get_iter. intros H.
  destruct (if decide (split = "train"%string) then _ else _) as [[X0 y0]|];
    [|done].
  cbn in H |- *.
  destruct (match ix with Some _ => _ | None => _ end) as [[X1 y1]|]; [|done].
  cbn in H |- *.
  destruct (datasets.mask_rows X1 (f y1)) as [X2|] eqn:HX2; [|done]. cbn in H.
  destruct (datasets.mask_rows y1 (f y1)) as [y2|] eqn:Hy2; [|done]. cbn in H.
  destruct (m X2 y2) as [X3 y3] eqn:Hm. injection H as <-.
  eexists _, _. split; [done|]. cbn.
  unfold datasets.DataIter_filter. cbn. rewrite HX2. cbn. rewrite Hy2. cbn.
  unfold datasets.DataIter_map. cbn. rewrite Hm.
  split; [done|]. cbn. split_and!; [done..|].
  destruct b as [b|]; cbn; lia.
Qed.

Lemma get_iter_filter_map_as_chained_witness :
  let f := λ y : list nat, (λ c, bool_decide (c = 0)) <$> y in
  let m := λ (X : list string) (y : list nat), (X ++ X, y ++ y) in
  let it1 := datasets.mk_DataIter ["a"; "c"; "a"; "c"]%string [0; 0; 0; 0] 3
               [0; 1; 2; 3] 2 (weights.caller_rng 0) in
  ∃ it0 it2,
    datasets.get_iter example_dataset "train" (Some 3) None None None
      (Some (weights.caller_rng 0)) = Some it0 ∧
    datasets.apply_transforms it0 [datasets.Filter f; datasets.Map m] = Some it2 ∧
    datasets.X it2 = datasets.X it1 ∧ datasets.y it2 = datasets.y it1 ∧
    datasets.idx it2 = datasets.idx it1 ∧
    datasets.classes it2 = datasets.classes it1 ∧
    datasets.rng it2 = datasets.rng it1 ∧
    datasets.batch_size it2 ≤ datasets.batch_size it1.
Proof.
  apply (get_iter_filter_map_as_chained example_dataset "train" (Some 3) None
           (λ y, (λ c, bool_decide (c = 0)) <$> y) (λ X y, (X ++ X, y ++ y))
           (Some (weights.caller_rng 0))).
  reflexivity.
Defined.

(** X14: [fed_split] without a [mapping] draws nothing and returns one
    iterator per batch size, each over the whole training subset with its
    own batch size, all on the generator of the call; it raises when the
    training subset cannot be taken, unless there is no batch size at
    all. *)
Theorem fed_split_without_mapping {Row G : Type} (ds : datasets.Dataset (Row:=Row))
    (batch_sizes : list (option nat)) (rng : option weights.rng_ref)
    (σ : weights.rng_ref → G) :
  datasets.fed_split ds batch_sizes None rng σ
  = (match datasets.train ds with
     | Some (X0, y0) =>
         Some ((λ b, datasets.DataIter_init X0 y0 b (datasets.ds_classes ds)
                       (weights.resolve weights.site_fed_split rng))
               <$> batch_sizes)
     | None => if decide (batch_sizes = []) then Some [] else None
     end, σ).
Proof.
  unfold datasets.fed_split. f_equal.
  unfold datasets.get_iter. rewrite decide_True by done.
  destruct (datasets.train ds) as [[X0 y0]|]; cbn.
  - induction batch_sizes as [|b bs IH]; [done|]. cbn. by rewrite IH.
  - by destruct batch_sizes.
Qed.

(** X15: [fed_split] with a [mapping] that returns the index lists [dist]:
    the generator of the call is left in the state the mapping left it
    in and no other generator changes; the call raises exactly when one
    of the first [len(batch_sizes)] index lists holds an index outside
    the training subset; otherwise it returns as many iterators as the
    shorter of [batch_sizes] and [dist] has entries ([zip] drops the
    rest), the [i]-th holding the training rows and labels at the indices
    [dist[i]], with batch size [batch_sizes[i]] clamped to their
    number. *)
Theorem fed_split_with_mapping {Row G : Type} (ds : datasets.Dataset (Row:=Row))
    (batch_sizes : list (option nat))
    (mapping : list Row → list nat → nat → nat → G → option (list (list nat)) * G)
    (rng : option weights.rng_ref) (σ : weights.rng_ref → G)
    (X0 : list Row) (y0 : list nat) (dist : list (list nat)) (g : G) :
  let r := weights.resolve weights.site_fed_split rng in
  let res := datasets.fed_split ds batch_sizes (Some mapping) rng σ in
  datasets.train ds = Some (X0, y0) →
  mapping X0 y0 (length batch_sizes) (datasets.ds_classes ds) (σ r)
  = (Some dist, g) →
  (res.2 r = g ∧ ∀ r', r' ≠ r → res.2 r' = σ r') ∧
  (is_Some res.1
   ↔ Forall (λ d, Forall (λ j, j < length y0) d)
            (take (length batch_sizes) dist)) ∧
  ∀ its, res.1 = Some its →
    length its = Nat.min (length batch_sizes) (length dist) ∧
    ∀ i it b d, its !! i = Some it → batch_sizes !! i = Some b →
                dist !! i = Some d →
      datasets.take_rows X0 d = Some (datasets.X it) ∧
      datasets.take_rows y0 d = Some (datasets.y it) ∧
      datasets.batch_size it = datasets.clamp b (length d) ∧
      datasets.rng it = r.
Proof.
  intros r res Htrain Hm. unfold res, datasets.fed_split. fold r.
  rewrite Htrain, Hm. cbn [fst snd mbind option_bind].
  pose proof (train_Some_lengths ds X0 y0 Htrain) as HXy.
  split_and!.
  - by rewrite fn_lookup_insert.
  - intros r' Hr'. by rewrite fn_lookup_insert_ne.
  - etrans; [apply mapM_is_Some|].
    rewrite <- (Forall_zip_snd (λ d, Forall (λ j, j < length y0) d)).
    apply Forall_proper; [|done]. intros [b d]. cbn.
    rewrite (get_iter_train_idx ds b d r X0 y0 Htrain).
    rewrite <- (take_rows_in_range y0 d). split.
    + intros [it Hit].
      destruct (datasets.take_rows X0 d) as [X'|]; [|done]. cbn in Hit.
      destruct (datasets.take_rows y0 d) as [y'|]; [eauto|done].
    + intros [y' Hy'].
      destruct (take_rows_in_range X0 d) as [_ [X' HX']].
      { rewrite HXy. apply take_rows_in_range. eauto. }
      rewrite HX', Hy'. cbn. eauto.
  - intros its Hits. pose proof (length_mapM _ _ _ Hits) as Hlen.
    rewrite length_zip_with in Hlen. split; [done|].
    intros i it b d Hi Hb Hd. apply mapM_Some_1 in Hits.
    assert (zip batch_sizes dist !! i = Some (b, d)) as Hz.
    { apply lookup_zip_with_Some. eauto. }
    destruct (Forall2_lookup_l _ _ _ _ _ Hits Hz) as (it' & Hi' & Hit).
    rewrite Hi in Hi'. injection Hi' as <-. cbn in Hit.
    rewrite (get_iter_train_idx ds b d r X0 y0 Htrain) in Hit.
    destruct (datasets.take_rows X0 d) as [X'|]; [|done]. cbn in Hit.
    destruct (datasets.take_rows y0 d) as [y'|] eqn:Hy'; [|done]. cbn in Hit.
    injection Hit as <-. cbn. split_and!; [done..| |done].
    by rewrite (take_rows_length _ _ _ Hy').
Qed.

Lemma fed_split_with_mapping_witness :
  let batch_sizes := [Some 1; None; Some 4] in
  let mapping := λ (X : list string) (y : list nat) (n c g : nat),
                   (Some [[0]; [1; 0]], S g) in
  let r := weights.resolve weights.site_fed_split None in
  let res := datasets.fed_split example_dataset batch_sizes (Some mapping) None
               (λ _, 0) in
  (res.2 r = 1 ∧ ∀ r', r' ≠ r → res.2 r' = 0) ∧
  (is_Some res.1
   ↔ Forall (λ d, Forall (λ j, j < length [0; 0]) d)
            (take (length batch_sizes) [[0]; [1; 0]])) ∧
  ∀ its, res.1 = Some its →
    length its = Nat.min (length batch_sizes) (length [[0]; [1; 0]]) ∧
    ∀ i it b d, its !! i = Some it → batch_sizes !! i = Some b →
                [[0]; [1; 0]] !! i = Some d →
      datasets.take_rows ["a"; "c"]%string d = Some (datasets.X it) ∧
      datasets.take_rows [0; 0] d = Some (datasets.y it) ∧
      datasets.batch_size it = datasets.clamp b (length d) ∧
      datasets.rng it = r.
Proof.
  apply (fed_split_with_mapping example_dataset [Some 1; None; Some 4]
           (λ X y n c g, (Some [[0]; [1; 0]], S g)) None (λ _, 0)
           ["a"; "c"]%string [0; 0] [[0]; [1; 0]] 1);
    reflexivity.
Defined.

(** ** Client indices *)

Section client_ids.
Implicit Types (ids : list nat).

Lemma np_unique_elem_of ids c : c ∈ main.np_unique ids ↔ c ∈ ids.
Proof.
  unfold main.np_unique. rewrite merge_sort_Permutation.
  apply elem_of_remove_dups.
Qed.

Lemma np_unique_NoDup ids : NoDup (main.np_unique ids).
Proof.
  unfold main.np_unique. rewrite merge_sort_Permutation.
  apply NoDup_remove_dups.
Qed.

Lemma np_unique_length ids : length (main.np_unique ids) = length (remove_dups ids).
Proof. unfold main.np_unique. by rewrite merge_sort_Permutation. Qed.

Lemma StronglySorted_le_lt (l : list nat) :
  StronglySorted le l → NoDup l → StronglySorted lt l.
Proof.
  induction 1 as [|x l Hl IH Hx]; intros Hnd; constructor.
  - apply IH. by apply NoDup_cons in Hnd as [_ ?].
  - apply NoDup_cons in Hnd as [Hnin _].
    apply Forall_forall. intros y Hy. rewrite Forall_forall in Hx.
    specialize (Hx y Hy). assert (x ≠ y) by (by intros ->). lia.
Qed.

Lemma np_unique_ascending ids : StronglySorted lt (main.np_unique ids).
Proof.
  apply StronglySorted_le_lt; [|apply np_unique_NoDup].
  unfold main.np_unique. apply (StronglySorted_merge_sort _).
Qed.

Lemma masked_seq_where cid (l : list nat) : ∀ pre,
  masked (seq (length pre) (length l)) ((λ i, bool_decide (i = cid)) <$> l)
  = filter (λ i, (pre ++ l) !! i = Some cid) (seq (length pre) (length l)).
Proof.
  induction l as [|x l IH]; intros pre; [done|].
  cbn [length seq fmap list_fmap masked].
  specialize (IH (pre ++ [x])). rewrite length_app, Nat.add_1_r in IH.
  rewrite <- (assoc_L (++)) in IH. cbn in IH.
  destruct (decide (x = cid)) as [->|Hne].
  - rewrite bool_decide_eq_true_2 by done.
    rewrite filter_cons_True by (by rewrite list_lookup_middle).
    by rewrite IH.
  - rewrite bool_decide_eq_false_2 by done.
    rewrite filter_cons_False; [done|].
    rewrite list_lookup_middle by done. congruence.
Qed.

Lemma mask_rows_where_eq ids cid :
  datasets.mask_rows (seq 0 (length ids)) ((λ i, bool_decide (i = cid)) <$> ids)
  = Some (main.where_eq ids cid).
Proof.
  rewrite mask_rows_masked, decide_True by (by rewrite length_fmap, length_seq).
  f_equal. apply (masked_seq_where cid ids []).
Qed.

Lemma client_ids_to_idx_where ids :
  main.client_ids_to_idx ids = Some (main.where_eq ids <$> main.np_unique ids).
Proof.
  unfold main.client_ids_to_idx. cbn zeta.
  induction (main.np_unique ids) as [|c cs IH]; [done|].
  cbn. rewrite mask_rows_where_eq. cbn. by rewrite IH.
Qed.

Lemma NoDup_concat_where ids (cs : list nat) :
  NoDup cs → NoDup (concat (main.where_eq ids <$> cs)).
Proof.
  induction 1 as [|c cs Hc _ IH]; [constructor|]. cbn.
  apply NoDup_app. split_and!; [apply NoDup_where_eq| |done].
  intros i Hi Hin. apply elem_of_where_eq in Hi.
  apply elem_of_concat in Hin as (j & d & Hj & Hd).
  rewrite list_lookup_fmap in Hj.
  destruct (cs !! j) as [c'|] eqn:Hc'; [|done]. injection Hj as <-.
  apply elem_of_where_eq in Hd. rewrite Hi in Hd. injection Hd as ->.
  apply Hc. apply list_elem_of_lookup. eauto.
Qed.

Lemma concat_where_unique ids :
  concat (main.where_eq ids <$> main.np_unique ids) ≡ₚ seq 0 (length ids).
Proof.
  apply NoDup_Permutation.
  - apply NoDup_concat_where, np_unique_NoDup.
  - apply NoDup_seq.
  - intros i. rewrite elem_of_concat, elem_of_seq. split.
    + intros (j & d & Hj & Hd). rewrite list_lookup_fmap in Hj.
      destruct (main.np_unique ids !! j) as [c|]; [|done]. injection Hj as <-.
      apply elem_of_where_eq, lookup_lt_Some in Hd. lia.
    + intros [_ Hi]. destruct (lookup_lt_is_Some_2 ids i) as [c Hc]; [lia|].
      assert (c ∈ main.np_unique ids) as Hin.
      { apply np_unique_elem_of, list_elem_of_lookup. eauto. }
      apply list_elem_of_lookup in Hin as [j Hj].
      exists j, (main.where_eq ids c). split.
      * by rewrite list_lookup_fmap, Hj.
      * by apply elem_of_where_eq.
Qed.

End client_ids.

(** X16: [client_ids_to_idx] never raises.  It returns one group per distinct
    client id, the groups in strictly ascending order of their ids; each
    group is not empty and holds exactly the positions of its id; and the
    groups together hold every position of [ids] exactly once. *)
Theorem client_ids_to_idx_groups (ids : list nat) :
  ∃ cids groups,
    main.client_ids_to_idx ids = Some groups ∧
    StronglySorted lt cids ∧ (∀ c, c ∈ cids ↔ c ∈ ids) ∧
    Forall2 (λ cid g, g ≠ [] ∧ ∀ i, i ∈ g ↔ ids !! i = Some cid) cids groups ∧
    length groups = length (remove_dups ids) ∧
    concat groups ≡ₚ seq 0 (length ids).
Proof.
  exists (main.np_unique ids), (main.where_eq ids <$> main.np_unique ids).
  split_and!.
  - apply client_ids_to_idx_where.
  - apply np_unique_ascending.
  - apply np_unique_elem_of.
  - apply Forall2_fmap_r, Forall_Forall2_diag, Forall_forall.
    intros c Hc. split; [|intros i; apply elem_of_where_eq].
    apply (proj1 (np_unique_elem_of _ _)) in Hc.
    apply list_elem_of_lookup in Hc as [i Hi]. intros Hnil.
    assert (i ∈ main.where_eq ids c) as Hin
      by (by apply elem_of_where_eq).
    rewrite Hnil in Hin. by apply elem_of_nil in Hin.
  - by rewrite length_fmap, np_unique_length.
  - apply concat_where_unique.
Qed.

Section array_split.
Context {T : Type}.
Implicit Types (ary : list T) (sizes cs : list nat).

Lemma cumsum_sizes_length sizes : ∀ acc,
  length (main.cumsum_sizes acc sizes) = length sizes.
Proof. induction sizes as [|n sizes IH]; intros acc; cbn; [done|]. by rewrite IH. Qed.

Lemma cumsum_sizes_ascending sizes : ∀ acc,
  ascending_from acc (main.cumsum_sizes acc sizes).
Proof.
  induction sizes as [|n sizes IH]; intros acc; cbn; [done|].
  split; [lia|apply IH].
Qed.

Lemma cumsum_sizes_last sizes : ∀ acc,
  List.last (main.cumsum_sizes acc sizes) acc = acc + sum_list sizes.
Proof.
  induction sizes as [|n sizes IH]; intros acc.
  - simpl. lia.
  - change (sum_list (n :: sizes)) with (n + sum_list sizes).
    simpl main.cumsum_sizes.
    rewrite (last_cons_default (acc + n) acc (acc + n)).
    transitivity (List.last (main.cumsum_sizes (acc + n) sizes) (acc + n)).
    { by destruct (main.cumsum_sizes (acc + n) sizes). }
    rewrite IH. lia.
Qed.

Lemma slices_by_index ary cs : ∀ st,
  (λ i, py_slice ary (nth i (st :: cs) 0) (nth (S i) (st :: cs) 0))
    <$> seq 0 (length cs)
  = zip_with (py_slice ary) (st :: cs) cs.
Proof.
  induction cs as [|x cs IH]; intros st; [done|].
  cbn [length seq fmap list_fmap]. rewrite <- fmap_S_seq, <- list_fmap_compose.
  change (zip_with (py_slice ary) (st :: x :: cs) (x :: cs))
    with (py_slice ary st x :: zip_with (py_slice ary) (x :: cs) cs).
  f_equal. rewrite <- (IH x). done.
Qed.

Lemma array_split_spec ary (n : Z) :
  (0 < n)%Z →
  ∃ parts, main.array_split ary n = Some parts ∧
           length parts = Z.to_nat n ∧ concat parts = ary.
Proof.
  intros Hn. unfold main.array_split. rewrite decide_False by lia.
  eexists. split; [done|]. split; [by rewrite length_fmap, length_seq|].
  set (m := Z.to_nat n). assert (m ≠ 0) as Hm by lia.
  set (sizes := replicate (length ary mod m) (length ary / m + 1)
                ++ replicate (m - length ary mod m) (length ary / m)).
  assert (length sizes = m) as Hlen.
  { unfold sizes. rewrite length_app, !length_replicate.
    pose proof (Nat.mod_upper_bound (length ary) m Hm). lia. }
  assert (sum_list sizes = length ary) as Hsum.
  { unfold sizes. rewrite sum_list_with_app, !sum_list_replicate.
    pose proof (Nat.mod_upper_bound (length ary) m Hm).
    pose proof (Nat.div_mod (length ary) m Hm). nia. }
  change (main.cumsum_sizes 0 (0 :: sizes)) with (0 :: main.cumsum_sizes 0 sizes).
  rewrite <- Hlen at 1. rewrite <- (cumsum_sizes_length sizes 0).
  rewrite slices_by_index, slices_concat by apply cumsum_sizes_ascending.
  rewrite cumsum_sizes_last, Hsum. unfold py_slice. cbn.
  by rewrite Nat.sub_0_r, take_ge.
Qed.

Lemma array_split_nonpositive ary (n : Z) :
  (n ≤ 0)%Z → main.array_split ary n = None.
Proof. intros Hn. unfold main.array_split. by rewrite decide_True. Qed.

End array_split.

Section resplit.
Context {G A : Type} `{!Generator G A} `{!GeneratorLaws G A}.

(** The re-splitting loop: every group is dealt out, permuted, over
    [nsplits] new groups. *)
Lemma new_client_idx_loop (nsplits : Z) (cs : list (list nat)) :
  (0 < nsplits)%Z →
  ∀ acc (g : G),
    ∃ R g', foldl (main.new_client_idx_step nsplits) (Some acc, g) cs
            = (Some (acc ++ R), g') ∧
            length R = length cs * Z.to_nat nsplits ∧
            concat R ≡ₚ concat cs.
Proof.
  intros Hn. induction cs as [|c cs IH]; intros acc g.
  - exists [], g. by rewrite app_nil_r.
  - cbn [foldl]. unfold main.new_client_idx_step at 2.
    pose proof (rng_shuffle_perm g c) as Hperm.
    destruct (rng_shuffle g c) as [p g1]. cbn in Hperm.
    destruct (array_split_spec p nsplits Hn) as (parts & Hparts & Hlen & Hcat).
    rewrite Hparts. cbn [mbind option_bind].
    destruct (IH (acc ++ parts) g1) as (R & g' & HR & HlenR & HcatR).
    exists (parts ++ R), g'. split_and!.
    + by rewrite HR, <- (assoc_L (++)).
    + rewrite length_app. cbn [length]. lia.
    + rewrite concat_app. cbn [concat]. by rewrite Hcat, Hperm, HcatR.
Qed.

End resplit.

(** X17: [client_idx] as the script computes it from client ids.  For no
    client id at all it raises when [clients] is positive (a division by
    zero) and is empty otherwise.  For at least one client id, with [k]
    distinct ids, it never raises and its groups hold every position of
    [client_ids] exactly once; there are [k] groups when [clients <= k],
    and [k * (clients // k)] groups otherwise, which is [clients]
    exactly when [clients] is a multiple of [k]. *)
Theorem client_idx_resplit {G A : Type} `{!Generator G A} `{!GeneratorLaws G A}
    (client_ids : list nat) (clients : Z) (rng : G) :
  (main.client_idx [] clients rng).1
  = (if decide (0 < clients)%Z then None else Some []) ∧
  (client_ids ≠ [] →
   let k := length (remove_dups client_ids) in
   ∃ groups,
     (main.client_idx client_ids clients rng).1 = Some groups ∧
     concat groups ≡ₚ seq 0 (length client_ids) ∧
     length groups
     = (if decide (Z.of_nat k < clients)%Z
        then k * Z.to_nat (clients / Z.of_nat k) else k) ∧
     ((Z.of_nat k < clients)%Z →
      Z.of_nat (length groups) = clients ↔ (clients mod Z.of_nat k = 0)%Z)).
Proof.
  split.
  { unfold main.client_idx. cbn. change (Z.of_nat 0) with 0%Z.
    destruct (decide (0 < clients)%Z); [by rewrite decide_True|done]. }
  intros Hne k. unfold main.client_idx.
  rewrite client_ids_to_idx_where. cbn [length].
  rewrite length_fmap, np_unique_length. fold k.
  assert (k ≠ 0) as Hk.
  { unfold k. destruct client_ids as [|c l]; [done|].
    assert (c ∈ remove_dups (c :: l)) as Hin
      by (apply elem_of_remove_dups, elem_of_cons; by left).
    destruct (remove_dups (c :: l)); [by apply elem_of_nil in Hin|done]. }
  case_decide as Hlt.
  - rewrite decide_False by done.
    assert (0 < clients / Z.of_nat k)%Z as Hq by (apply Z.div_str_pos; lia).
    destruct (new_client_idx_loop (clients / Z.of_nat k)
                (main.where_eq client_ids <$> main.np_unique client_ids) Hq [] rng)
      as (R & g' & HR & HlenR & HcatR).
    rewrite HR. exists R. cbn. rewrite length_fmap, np_unique_length in HlenR.
    fold k in HlenR. split_and!; [done| |done|].
    + by rewrite HcatR, concat_where_unique.
    + intros _. rewrite HlenR, <- Z.div_exact by lia. lia.
  - exists (main.where_eq client_ids <$> main.np_unique client_ids). cbn.
    split_and!; [done|apply concat_where_unique| |lia].
    by rewrite length_fmap, np_unique_length.
Qed.

Lemma client_idx_resplit_witness :
  (main.client_idx (G:=nat) (A:=Z) [] 8 0).1
  = (if decide (0 < 8)%Z then None else Some []) ∧
  ∃ groups,
    (main.client_idx (G:=nat) (A:=Z) [3; 1; 3; 2; 1; 7; 3; 3] 8 0).1 = Some groups ∧
    concat groups ≡ₚ seq 0 (length [3; 1; 3; 2; 1; 7; 3; 3]) ∧
    length groups
    = (if decide (Z.of_nat (length (remove_dups [3; 1; 3; 2; 1; 7; 3; 3])) < 8)%Z
       then length (remove_dups [3; 1; 3; 2; 1; 7; 3; 3])
            * Z.to_nat (8 / Z.of_nat (length (remove_dups [3; 1; 3; 2; 1; 7; 3; 3])))
       else length (remove_dups [3; 1; 3; 2; 1; 7; 3; 3])) ∧
    ((Z.of_nat (length (remove_dups [3; 1; 3; 2; 1; 7; 3; 3])) < 8)%Z →
     Z.of_nat (length groups) = 8%Z
     ↔ (8 mod Z.of_nat (length (remove_dups [3; 1; 3; 2; 1; 7; 3; 3])) = 0)%Z).
Proof.
  destruct (client_idx_resplit (GeneratorLaws0 := counter_generator_laws)
              [3; 1; 3; 2; 1; 7; 3; 3] 8 0) as [H1 H2].
  split; [exact H1|]. by apply H2.
Defined.

(** ** The Dirichlet partitioner as a partition of the samples *)

(** X18: For at least one client and a positive [alpha], the index lists that
    [lda] returns hold, taken together, no index twice and exactly the
    positions of [Y] whose label is below [nclasses]: a sample with a
    label that is not below [nclasses] is given to no client.  When every
    label is below [nclasses], the lists hold every position of [Y]
    exactly once. *)
Theorem lda_partitions_known_labels {G A : Type} `{!Generator G A}
    `{!GeneratorLaws G A} (Y : list nat) (k C : nat) (rng : G) (alpha : Q) :
  1 ≤ k → (0 < alpha)%Q →
  ∃ D, (main.lda Y k C rng alpha).1 = Some D ∧
       NoDup (concat D) ∧
       (∀ i, i ∈ concat D ↔ ∃ c, c < C ∧ Y !! i = Some c) ∧
       (Forall (λ c, c < C) Y → concat D ≡ₚ seq 0 (length Y)).
Proof.
  intros Hk Halpha. unfold main.lda.
  destruct (rng_dirichlet_rows rng (replicate k alpha) C) as [Hrows Hrow].
  { destruct k; [lia|done]. }
  { by apply Forall_replicate. }
  destruct (rng_dirichlet rng (replicate k alpha) C) as [props g].
  cbn in Hrows, Hrow. rewrite length_replicate in Hrow.
  destruct (lda_loop_spec Y props k g Hk Hrow C) as (D & g' & Hfold & HD & Hperm);
    [lia|].
  rewrite Hfold. exists D.
  assert (∀ i, i ∈ concat D ↔ ∃ c, c < C ∧ Y !! i = Some c) as Hin.
  { intros i. rewrite Hperm. apply elem_of_classes_below. }
  assert (NoDup (concat D)) as Hnd.
  { rewrite Hperm. apply NoDup_classes_below. }
  split_and!; [done..|]. intros Hall.
  apply NoDup_Permutation; [done|apply NoDup_seq|].
  intros i. rewrite Hin, elem_of_seq. split.
  - intros (c & _ & Hi). apply lookup_lt_Some in Hi. lia.
  - intros [_ Hi]. destruct (lookup_lt_is_Some_2 Y i) as [c Hc]; [lia|].
    exists c. split; [|done]. rewrite Forall_lookup in Hall. by eapply Hall.
Qed.

Lemma lda_partitions_known_labels_witness :
  ∃ D, (main.lda (G:=nat) (A:=Z) [0; 1; 0; 1; 1; 0; 2; 0] 3 3 0 (1 # 2)).1
         = Some D ∧
       NoDup (concat D) ∧
       (∀ i, i ∈ concat D ↔ ∃ c, c < 3 ∧ [0; 1; 0; 1; 1; 0; 2; 0] !! i = Some c) ∧
       (Forall (λ c, c < 3) [0; 1; 0; 1; 1; 0; 2; 0] →
        concat D ≡ₚ seq 0 (length [0; 1; 0; 1; 1; 0; 2; 0])).
Proof.
  apply (lda_partitions_known_labels (GeneratorLaws0 := counter_generator_laws));
    [lia|reflexivity].
Defined.

(** ** Scalars and any number of trees *)

Section scalars.
Context {A : Type} `{!Dtype A}.
Implicit Types (a : weights.tree A) (x : ndarray A).

Lemma broadcast_shapes_scalar_r s : np.broadcast_shapes s [] = Some s.
Proof.
  unfold np.broadcast_shapes. change (reverse []) with (@nil nat).
  assert (∀ r, np.broadcast_rev r [] = Some r) as -> by (by intros []).
  cbn. by rewrite reverse_involutive.
Qed.

Lemma zip_with_replicate_r_fmap (f : A → A → A) (c : A) (l : list A) :
  zip_with f l (replicate (length l) c) = (λ e, f e c) <$> l.
Proof. induction l as [|e l IH]; [done|]. cbn. by rewrite IH. Qed.

Lemma binop_scalar_r f (c : A) x :
  np.wf x → np.binop f x (np.scalar c) = Some (np.pointwise (λ e, f e c) x).
Proof.
  unfold np.wf, np.size, np.binop, np.pointwise. intros Hx.
  cbn [shape data np.scalar]. rewrite broadcast_shapes_scalar_r. cbn.
  rewrite broadcast_data_scalar, broadcast_data_same by done.
  by rewrite <- Hx, zip_with_replicate_r_fmap.
Qed.

Lemma zip_op_scalars f a (cs : list A) :
  Forall np.wf a →
  weights.zip_op f a (np.scalar <$> cs)
  = Some (zip_with (λ x c, np.pointwise (λ e, f e c) x) a cs).
Proof.
  unfold weights.zip_op. intros Ha. revert cs.
  induction Ha as [|x a Hx _ IH]; intros [|c cs]; try done.
  cbn. rewrite binop_scalar_r by done. cbn. by rewrite IH.
Qed.

Lemma py_zip_length (ws : list (weights.tree A)) :
  Forall (λ w, length (weights.py_zip ws) ≤ length w) ws ∧
  (ws ≠ [] → Exists (λ w, length (weights.py_zip ws) = length w) ws).
Proof.
  induction ws as [|w ws [IH1 IH2]]; [by split|].
  destruct ws as [|w' ws].
  { cbn. rewrite length_fmap. split; [by constructor|].
    intros _. by constructor. }
  change (weights.py_zip (w :: w' :: ws))
    with (zip_with cons w (weights.py_zip (w' :: ws))).
  rewrite length_zip_with. split.
  - constructor; [lia|]. eapply Forall_impl; [exact IH1|]. intros; cbn in *; lia.
  - intros _. destruct (decide (length w ≤ length (weights.py_zip (w' :: ws)))).
    + apply Exists_cons_hd. lia.
    + apply Exists_cons_tl. eapply Exists_impl; [by apply IH2|].
      intros; cbn in *; lia.
Qed.

End scalars.

(** X19: [sub], [mul] and [div] against a tree of zero-dimensional arrays:
    numpy broadcasts every such array over the whole array at its
    position, so every element is combined with the one value, and the
    shapes of the first tree are kept. *)
Theorem sub_mul_div_broadcast_scalars {A} `{!Dtype A}
    (a : weights.tree A) (cs : list A) :
  Forall np.wf a →
  weights.sub a (np.scalar <$> cs)
  = Some (zip_with (λ x c, np.pointwise (λ e, d_sub e c) x) a cs) ∧
  weights.mul a (np.scalar <$> cs)
  = Some (zip_with (λ x c, np.pointwise (λ e, d_mul e c) x) a cs) ∧
  weights.div a (np.scalar <$> cs)
  = Some (zip_with (λ x c, np.pointwise (λ e, d_div e c) x) a cs).
Proof. intros Ha. split_and!; by apply zip_op_scalars. Qed.

Lemma sub_mul_div_broadcast_scalars_witness :
  weights.sub example_tree (np.scalar <$> [1; 2; 3; 4]%Z)
  = Some (zip_with (λ x c, np.pointwise (λ e, d_sub e c) x)
                   example_tree [1; 2; 3; 4]%Z) ∧
  weights.mul example_tree (np.scalar <$> [1; 2; 3; 4]%Z)
  = Some (zip_with (λ x c, np.pointwise (λ e, d_mul e c) x)
                   example_tree [1; 2; 3; 4]%Z) ∧
  weights.div example_tree (np.scalar <$> [1; 2; 3; 4]%Z)
  = Some (zip_with (λ x c, np.pointwise (λ e, d_div e c) x)
                   example_tree [1; 2; 3; 4]%Z).
Proof.
  apply sub_mul_div_broadcast_scalars. repeat constructor.
Defined.

(** X20: [add] of no tree returns the empty tree; [add] of one tree returns
    [0 + x] for every array; and whatever the number of trees, the tree
    that [add] returns is as long as the shortest of them: the arrays
    beyond that length are left out without an error. *)
Theorem add_stops_at_shortest_tree {A} `{!Dtype A}
    (a : weights.tree A) (ws : list (weights.tree A)) (t : weights.tree A) :
  Forall np.wf a → weights.add ws = Some t →
  weights.add (A:=A) [] = Some [] ∧
  weights.add [a] = Some (np.pointwise (d_add d_zero) <$> a) ∧
  Forall (λ w, length t ≤ length w) ws ∧
  (ws ≠ [] → Exists (λ w, length t = length w) ws).
Proof.
  intros Ha Ht. split; [done|]. split.
  - unfold weights.add. cbn [weights.py_zip]. clear Ht.
    induction Ha as [|x a Hx _ IH]; [done|].
    cbn [fmap list_fmap mapM].
    change (weights.py_sum [x]) with (np.binop d_add (np.scalar d_zero) x).
    rewrite binop_scalar_l by done. cbn. by rewrite IH.
  - unfold weights.add in Ht. apply length_mapM in Ht. rewrite <- Ht.
    apply py_zip_length.
Qed.

Lemma add_stops_at_shortest_tree_witness :
  weights.add (A:=Z) [] = Some [] ∧
  weights.add [example_tree] = Some (np.pointwise (d_add d_zero) <$> example_tree) ∧
  Forall (λ w, length [mk_ndarray [2] [11; 22]%Z] ≤ length w)
         [[mk_ndarray [2] [1; 2]%Z; mk_ndarray [] [3%Z]];
          [mk_ndarray [2] [10; 20]%Z]] ∧
  ([[mk_ndarray [2] [1; 2]%Z; mk_ndarray [] [3%Z]]; [mk_ndarray [2] [10; 20]%Z]] ≠ [] →
   Exists (λ w, length [mk_ndarray [2] [11; 22]%Z] = length w)
          [[mk_ndarray [2] [1; 2]%Z; mk_ndarray [] [3%Z]];
           [mk_ndarray [2] [10; 20]%Z]]).
Proof.
  apply (add_stops_at_shortest_tree example_tree
           [[mk_ndarray [2] [1; 2]%Z; mk_ndarray [] [3%Z]];
            [mk_ndarray [2] [10; 20]%Z]]
           [mk_ndarray [2] [11; 22]%Z]);
    [repeat constructor|reflexivity].
Defined.

(** ** Iterators that never stop *)

Section never_stop.
Context {Row : Type} {G A : Type} `{!Generator G A} `{!GeneratorLaws G A}.
Implicit Types (ds : datasets.Dataset (Row:=Row))
  (it : datasets.DataIter (Row:=Row)).

Lemma test_Some_lengths ds X0 y0 :
  datasets.test ds = Some (X0, y0) → length X0 = length y0.
Proof.
  rewrite test_masked. case_decide as Hl; [|done]. destruct Hl as [H1 H2].
  intros [= <- <-]. by rewrite !masked_length by (by rewrite length_fmap).
Qed.

Lemma idx_stage_aligned (X0 : list Row) (y0 : list nat) ix X1 y1 :
  length X0 = length y0 →
  match ix with
  | Some ix => X' ← datasets.take_rows X0 ix; y' ← datasets.take_rows y0 ix;
               Some (X', y')
  | None => Some (X0, y0)
  end = Some (X1, y1) →
  length X1 = length y1.
Proof.
  intros H0 H. destruct ix as [ix|]; [|by injection H as <- <-].
  destruct (datasets.take_rows X0 ix) as [X'|] eqn:HX'; [|done]. cbn in H.
  destruct (datasets.take_rows y0 ix) as [y'|] eqn:Hy'; [|done]. cbn in H.
  injection H as <- <-.
  by rewrite (take_rows_length _ _ _ HX'), (take_rows_length _ _ _ Hy').
Qed.

Lemma filter_stage_aligned (X1 : list Row) (y1 : list nat)
    (flt : option (list nat → list bool)) X2 y2 :
  length X1 = length y1 →
  match flt with
  | Some f => X' ← datasets.mask_rows X1 (f y1);
              y' ← datasets.mask_rows y1 (f y1); Some (X', y')
  | None => Some (X1, y1)
  end = Some (X2, y2) →
  length X2 = length y2.
Proof.
  intros H1 H. destruct flt as [f|]; [|by injection H as <- <-].
  rewrite !mask_rows_masked in H. rewrite H1 in H.
  case_decide as Hl; [|done]. cbn in H. injection H as <- <-.
  by rewrite !masked_length by lia.
Qed.

(** Without a [map], the iterator of [get_iter] is built over as many
    rows as labels. *)
Lemma get_iter_aligned ds split b ix flt rng it :
  datasets.get_iter ds split b ix flt None rng = Some it →
  DataIter_inv it ∧ length (datasets.X it) = length (datasets.y it).
Proof.
  unfold datasets.get_iter. intros H.
  destruct (if decide (split = "train"%string) then _ else _)
    as [[X0 y0]|] eqn:Hsplit; [|done].
  assert (length X0 = length y0) as H0.
  { case_decide; [by eapply train_Some_lengths|by eapply test_Some_lengths]. }
  cbn in H.
  destruct (match ix with Some _ => _ | None => _ end)
    as [[X1 y1]|] eqn:Hix; [|done].
  apply idx_stage_aligned in Hix; [|done]. cbn in H.
  destruct (match flt with Some _ => _ | None => _ end)
    as [[X2 y2]|] eqn:Hflt; [|done].
  apply filter_stage_aligned in Hflt; [|done]. cbn in H.
  injection H as <-. split; [apply DataIter_init_inv|done].
Qed.

Lemma get_iter_next_n ds split b ix flt rng it m (σ : weights.rng_ref → G) :
  datasets.get_iter ds split b ix flt None rng = Some it →
  ∃ bs σ', datasets.DataIter_next_n m it σ = Some (bs, σ') ∧
           length bs = m ∧ Forall (is_batch it) bs.
Proof.
  intros H. apply get_iter_aligned in H as [Hinv HX].
  by apply DataIter_next_n_spec.
Qed.

Lemma mapM_get_iter_from {X} (f : X → option (datasets.DataIter (Row:=Row)))
    (l : list X) its it :
  mapM f l = Some its → it ∈ its → ∃ x, x ∈ l ∧ f x = Some it.
Proof.
  intros H Hin. apply mapM_Some_1 in H.
  apply list_elem_of_lookup in Hin as [i Hi].
  destruct (Forall2_lookup_r _ _ _ _ _ H Hi) as (x & Hx & Hf).
  exists x. split; [|done]. apply list_elem_of_lookup. eauto.
Qed.

End never_stop.

(** X21: Every iterator that [get_iter] returns when no [map] is given, and
    every iterator that [fed_split] returns, can be drawn from any number
    of times: [__next__] never raises, and every batch holds
    [batch_size] rows and labels, those that the iterator holds at
    [batch_size] pairwise distinct positions. *)
Theorem iterators_never_stop {Row G A : Type} `{!Generator G A}
    `{!GeneratorLaws G A} (ds : datasets.Dataset (Row:=Row))
    (split : string) (b : option nat) (ix : option (list nat))
    (flt : option (list nat → list bool)) (rng : option weights.rng_ref)
    (it : datasets.DataIter)
    (batch_sizes : list (option nat))
    (mapping : option (list Row → list nat → nat → nat → G →
                       option (list (list nat)) * G))
    (rng' : option weights.rng_ref) (σ0 : weights.rng_ref → G)
    (its : list datasets.DataIter) (it' : datasets.DataIter) :
  (datasets.get_iter ds split b ix flt None rng = Some it →
   ∀ m (σ : weights.rng_ref → G),
     ∃ bs σ', datasets.DataIter_next_n m it σ = Some (bs, σ') ∧
              length bs = m ∧ Forall (is_batch it) bs) ∧
  ((datasets.fed_split ds batch_sizes mapping rng' σ0).1 = Some its →
   it' ∈ its →
   ∀ m (σ : weights.rng_ref → G),
     ∃ bs σ', datasets.DataIter_next_n m it' σ = Some (bs, σ') ∧
              length bs = m ∧ Forall (is_batch it') bs).
Proof.
  split.
  - intros H m σ. by eapply get_iter_next_n.
  - intros H Hin m σ.
    unfold datasets.fed_split in H. destruct mapping as [mp|].
    + destruct (datasets.train ds) as [[X0 y0]|]; [|done].
      destruct (mp X0 y0 _ _ _) as [[dist|] g]; [|done]. cbn in H.
      destruct (mapM_get_iter_from _ _ _ _ H Hin) as (bd & _ & Hit).
      by eapply get_iter_next_n.
    + cbn in H. destruct (mapM_get_iter_from _ _ _ _ H Hin) as (b0 & _ & Hit).
      by eapply get_iter_next_n.
Qed.

Lemma iterators_never_stop_witness :
  let flt := λ y : list nat, (λ c, bool_decide (c = 0)) <$> y in
  let mapping := λ (X : list string) (y : list nat) (n c g : nat),
                   (Some [[0]; [1; 0]], S g) in
  let it := datasets.DataIter_init ["c"; "a"]%string [0; 0] (Some 1) 2
              (weights.default_rng weights.site_get_iter) in
  let it0 := datasets.DataIter_init ["a"]%string [0] (Some 1) 2
               (weights.default_rng weights.site_fed_split) in
  let it' := datasets.DataIter_init ["c"; "a"]%string [0; 0] None 2
               (weights.default_rng weights.site_fed_split) in
  datasets.get_iter example_dataset "train" (Some 1) (Some [1; 0]) (Some flt)
                    None None = Some it ∧
  (datasets.fed_split example_dataset [Some 1; None] (Some mapping) None
                      (λ _, 0)).1 = Some [it0; it'] ∧
  (∀ m (σ : weights.rng_ref → nat),
     ∃ bs σ', datasets.DataIter_next_n (A:=Z) m it σ = Some (bs, σ') ∧
              length bs = m ∧ Forall (is_batch it) bs) ∧
  (∀ m (σ : weights.rng_ref → nat),
     ∃ bs σ', datasets.DataIter_next_n (A:=Z) m it' σ = Some (bs, σ') ∧
              length bs = m ∧ Forall (is_batch it') bs).
Proof.
  destruct (iterators_never_stop (GeneratorLaws0 := counter_generator_laws)
              example_dataset "train" (Some 1) (Some [1; 0])
              (Some (λ y, (λ c, bool_decide (c = 0)) <$> y)) None
              (datasets.DataIter_init ["c"; "a"]%string [0; 0] (Some 1) 2
                 (weights.default_rng weights.site_get_iter))
              [Some 1; None]
              (Some (λ (X : list string) (y : list nat) (n c g : nat),
                       (Some [[0]; [1; 0]], S g)))
              None (λ _, 0)
              [datasets.DataIter_init ["a"]%string [0] (Some 1) 2
                 (weights.default_rng weights.site_fed_split);
               datasets.DataIter_init ["c"; "a"]%string [0; 0] None 2
                 (weights.default_rng weights.site_fed_split)]
              (datasets.DataIter_init ["c"; "a"]%string [0; 0] None 2
                 (weights.default_rng weights.site_fed_split)))
    as [H1 H2].
  split_and!.
  - reflexivity.
  - reflexivity.
  - apply H1. reflexivity.
  - apply H2; [reflexivity|].
    apply elem_of_cons. right. apply elem_of_cons. by left.
Defined.

(** ** The branches of the loop of [expand] *)

Section expand_branches.
Context {A : Type} `{!Dtype A}.
Implicit Types (G : weights.tree A) (x y : ndarray A) (s ks : list nat).

Lemma pad_widths_nonneg s : ∀ ks,
  length s = length ks →
  Forall (λ a, 0 ≤ a)%Z (zip_with (λ b ws, Z.of_nat b - Z.of_nat ws)%Z s ks)
  ↔ Forall2 le ks s.
Proof.
  induction s as [|d s IH]; intros [|k ks] Hl; try done.
  cbn in Hl. cbn [zip_with]. rewrite Forall_cons, Forall2_cons, IH by lia.
  split; intros [? ?]; split; (lia || done).
Qed.

Lemma pad_to_shape x s :
  np.wf x → length s = np.ndim x →
  match np.pad x (zip_with (λ b ws, Z.of_nat b - Z.of_nat ws)%Z s (shape x)) with
  | Some y =>
      s ≠ [] ∧ Forall2 le (shape x) s ∧ shape y = s ∧
      ∀ idx, Forall2 lt idx s →
             np.getitem y idx
             = if decide (Forall2 lt idx (shape x)) then np.getitem x idx
               else Some d_zero
  | None => s = [] ∨ ¬ Forall2 le (shape x) s
  end.
Proof.
  unfold np.wf, np.size, np.ndim. intros Hx Hl.
  pose proof (pad_widths_nonneg s (shape x) Hl) as Hnn.
  unfold np.pad, np.ndim.
  destruct (zip_with _ s (shape x)) as [|w ws] eqn:Hz.
  { left. destruct s; [done|]. by destruct (shape x). }
  assert (s ≠ []) as Hne by (intros ->; done).
  rewrite <- Hz in *. case_decide as Hw; [|right; by rewrite <- Hnn].
  apply Hnn in Hw.
  destruct (pad_widths_spec s (shape x) Hw) as (_ & Hw2 & Hw3).
  rewrite decide_True by done. cbn.
  split_and!; [done..|]. intros idx Hidx. unfold np.getitem. cbn.
  rewrite item_pad_data; [done|by rewrite length_fmap|done|by rewrite Hw3].
Qed.

End expand_branches.

(** X22: [expand] for a target skeleton of one item [(k, index i, shape s)],
    on a tree of well-formed arrays.  If [k] is no key of [skel_from], a
    zero array of shape [s] is inserted at position [i] (appended when
    [i] is past the end).  If [k] is a key and [i] is past the end, it
    raises.  If [k] is a key and the array [x] at [i] has as many axes as
    [s], it raises when [s] has no axis or [x] is longer than [s] along
    some axis (a negative pad width), and otherwise replaces [x] by an
    array of shape [s] that agrees with [x] inside the shape of [x] and
    is zero outside. *)
Theorem expand_one_item {A} `{!Dtype A} (G : weights.tree A)
    (skel_from : weights.skel) (k : string) (i : nat) (s : list nat) :
  Forall np.wf G →
  let skel_to := [(k, weights.mk_entry i s)] in
  (weights.dict_get k skel_from = None →
   weights.expand G skel_from skel_to = Some (take i G ++ np.zeros s :: drop i G)) ∧
  (is_Some (weights.dict_get k skel_from) → G !! i = None →
   weights.expand G skel_from skel_to = None) ∧
  (is_Some (weights.dict_get k skel_from) →
   ∀ x, G !! i = Some x → length s = np.ndim x →
     if decide (s ≠ [] ∧ Forall2 le (shape x) s)
     then ∃ y, weights.expand G skel_from skel_to = Some (<[i := y]> G) ∧
               shape y = s ∧
               ∀ idx, Forall2 lt idx s →
                      np.getitem y idx
                      = if decide (Forall2 lt idx (shape x)) then np.getitem x idx
                        else Some d_zero
     else weights.expand G skel_from skel_to = None).
Proof.
  intros Hwf skel_to. unfold weights.expand, skel_to. cbn [weights.expand_loop].
  unfold weights.expand_step. cbn [fst snd weights.index weights.eshape].
  split_and!.
  - intros Hk. rewrite decide_False by (rewrite Hk; by intros [? ?]). done.
  - intros Hk Hi. rewrite decide_True by done. rewrite Hi. reflexivity.
  - intros Hk x Hx Hl.
    rewrite (decide_True (P:=is_Some (weights.dict_get k skel_from))) by done.
    rewrite Hx. cbn.
    assert (np.wf x) as Hwx by (rewrite Forall_lookup in Hwf; by eapply Hwf).
    pose proof (pad_to_shape x s Hwx Hl) as Hpad.
    destruct (np.pad x _) as [y|]; cbn.
    + destruct Hpad as (Hne & Hle & Hs & Hitems).
      rewrite decide_True by done. by exists y.
    + rewrite decide_False; [done|]. intros [Hne Hle]. by destruct Hpad.
Qed.

Lemma expand_one_item_witness :
  let G := [mk_ndarray [2] [1; 2]%Z] in
  let skel_from := [("w"%string, weights.mk_entry 0 [2])] in
  let skel_to := [("w"%string, weights.mk_entry 0 [3])] in
  (weights.dict_get "w"%string skel_from = None →
   weights.expand G skel_from skel_to = Some (take 0 G ++ np.zeros [3] :: drop 0 G)) ∧
  (is_Some (weights.dict_get "w"%string skel_from) → G !! 0 = None →
   weights.expand G skel_from skel_to = None) ∧
  (is_Some (weights.dict_get "w"%string skel_from) →
   ∀ x, G !! 0 = Some x → length [3] = np.ndim x →
     if decide ([3] ≠ [] ∧ Forall2 le (shape x) [3])
     then ∃ y, weights.expand G skel_from skel_to = Some (<[0 := y]> G) ∧
               shape y = [3] ∧
               ∀ idx, Forall2 lt idx [3] →
                      np.getitem y idx
                      = if decide (Forall2 lt idx (shape x)) then np.getitem x idx
                        else Some d_zero
     else weights.expand G skel_from skel_to = None).
Proof.
  apply (expand_one_item [mk_ndarray [2] [1; 2]%Z]
           [("w"%string, weights.mk_entry 0 [2])] "w"%string 0 [3]).
  repeat constructor.
Defined.
